(** * buddystore: ring arithmetic, routing fallback and the lock manager

    A shallow embedding of the parts of the Go package [buddystore]
    (util.go, vnode.go, chord.go, ring.go, lm_server.go) that the ring
    arithmetic, the [FindSuccessors] / [Lookup] routing path and the lock
    manager's operations live in, followed by the properties proved about
    them.

    Conventions of the embedding:
    - a Go [[]byte] is a [list byte]; a nil slice and an empty slice are
      both [[]];
    - Go's [int] and [uint] are taken at their 64-bit width (amd64) and
      carried as [Z], the wrap-around written where the code computes;
    - a Go map is a [gmap]; a nil map reads like the empty map, and every
      write in the code is behind a nil check that allocates it;
    - a pointer that may be nil is an [option];
    - a run-time panic (index out of range, nil dereference) is the
      [Panic] outcome;
    - an [error] value is its format string and arguments; a nil error is
      [None]. *)

From Stdlib Require Import ZArith Strings.Byte.
From stdpp Require Import base option list strings gmap fin_maps sorting.

Local Open Scope Z_scope.

(** ** Outcomes of code that may panic *)

Inductive outcome (A : Type) : Type :=
  | Ret (a : A)
  | Panic (why : string).
Arguments Ret {A} a.
Arguments Panic {A} why.

Definition obind {A B} (m : outcome A) (f : A → outcome B) : outcome B :=
  match m with
  | Ret a => f a
  | Panic why => Panic why
  end.

Notation "x ←! m ; k" := (obind m (λ x, k))
  (at level 20, m at level 100, k at level 200, only parsing).

(** [fmt.Errorf(format, args...)]: arguments that are themselves errors are
    carried by their text. *)
Inductive error : Type :=
  | Errorf (format : string) (args : list string).

(** ** Machine integers *)

Definition uint_bits : Z := 64.
Definition uint_modulus : Z := 2 ^ uint_bits.

(** Go [uint] / [uint64] arithmetic wraps modulo [2^64]. *)
Definition uint_wrap (z : Z) : Z := z mod uint_modulus.

(** Go [int] / [int64] arithmetic wraps into [-2^63, 2^63). *)
Definition int_wrap (z : Z) : Z :=
  (z + 2 ^ 63) mod 2 ^ 64 - 2 ^ 63.

(** ** Byte slices *)

Definition byte_val (b : byte) : Z := Z.of_N (Byte.to_N b).

Definition byte_of_Z (z : Z) : byte :=
  default x00 (Byte.of_N (Z.to_N z)).

(** [bytes.Compare(a, b)]: lexicographic, [-1], [0] or [1]; a proper prefix
    is smaller. *)
Fixpoint bytes_Compare (a b : list byte) : Z :=
  match a, b with
  | [], [] => 0
  | [], _ :: _ => -1
  | _ :: _, [] => 1
  | x :: a', y :: b' =>
      if byte_val x <? byte_val y then -1
      else if byte_val y <? byte_val x then 1
      else bytes_Compare a' b'
  end.

(** [big.Int.SetBytes]: the slice read as a big-endian unsigned integer. *)
Definition SetBytes (buf : list byte) : Z :=
  fold_left (λ acc b, acc * 256 + byte_val b) buf 0.

(** [n] bytes of [z], least significant first. *)
Fixpoint le_bytes (n : nat) (z : Z) : list byte :=
  match n with
  | O => []
  | S n' => byte_of_Z (z mod 256) :: le_bytes n' (z / 256)
  end.

(** Fixed-width big-endian encoding ([big.Int.FillBytes] on an [n]-byte
    buffer). *)
Definition be_bytes (n : nat) (z : Z) : list byte := rev (le_bytes n z).

(** [big.Int.Bytes]: the absolute value as a big-endian slice without
    leading zero bytes; zero is the empty slice. *)
Definition Int_Bytes (z : Z) : list byte :=
  let a := Z.abs z in
  if a =? 0 then [] else be_bytes (Z.to_nat (Z.log2 a / 8 + 1)) a.

(** [big.Int.Exp(2, y, nil)]: [2^y], and [1] when [y <= 0]. *)
Definition Exp2 (y : Z) : Z := if y <=? 0 then 1 else 2 ^ y.

(** ** util.go *)

(** Checks if a key is STRICTLY between two ID's exclusively. *)
Definition between (id1 id2 key : list byte) : bool :=
  if bytes_Compare id1 id2 =? 1 then
    (bytes_Compare id1 key =? -1) || (bytes_Compare id2 key =? 1)
  else
    (bytes_Compare id1 key =? -1) && (bytes_Compare id2 key =? 1).

(** Checks if a key is between two ID's, right inclusive. *)
Definition betweenRightIncl (id1 id2 key : list byte) : bool :=
  if bytes_Compare id1 id2 =? 1 then
    (bytes_Compare id1 key =? -1) || (bytes_Compare id2 key >=? 0)
  else
    (bytes_Compare id1 key =? -1) && (bytes_Compare id2 key >=? 0).

(** Computes the offset by (n + 2^exp) % (2^mod). *)
Definition powerOffset (id : list byte) (exp mod_ : Z) : list byte :=
  let idInt := SetBytes id in
  let offset := Exp2 exp in
  let sum := idInt + offset in
  let ceil := Exp2 mod_ in
  Int_Bytes (sum mod ceil).

(** ** chord.go: vnodes, configuration, rings *)

(** Represents an Vnode, local or remote. *)
Record Vnode : Type := {
  Id : list byte;   (* Virtual ID *)
  Host : string     (* Host identifier *)
}.

(** Configuration for Chord nodes.  [HashFunc] is the digest the
    configured hash computes over the bytes written to it. *)
Record Config : Type := {
  Hostname : string;
  NumVnodes : Z;
  HashFunc : list byte → list byte;
  NumSuccessors : Z;
  hashBits : Z;
  RingId : string
}.

(** Represents a local Vnode; [lv_Vnode] is the embedded [Vnode].  An entry
    of a list is a [*Vnode], nil or not. *)
Record localVnode : Type := {
  lv_Vnode : Vnode;
  successors : list (option Vnode);
  predecessors : list (option Vnode);
  finger : list (option Vnode);
  last_finger : Z;
  predecessor : option Vnode
}.

(** Stores the state required for a Chord ring. *)
Record Ring : Type := {
  config : Config;
  vnodes : list localVnode
}.

(** ** ring.go *)

(** Returns the nearest local vnode to the key: the loop runs from the last
    index down to 0. *)
Definition nearestVnode (r : Ring) (key : list byte) : outcome localVnode :=
  match find (λ vn, bytes_Compare (Id (lv_Vnode vn)) key =? -1)
             (rev (vnodes r)) with
  | Some vn => Ret vn
  | None =>
      (* Return the last vnode *)
      match last (vnodes r) with
      | Some vn => Ret vn
      | None => Panic "index out of range [-1]"
      end
  end.

(** ** vnode.go *)

(** Modelled from the spec: [copyOfVnodesList] is called by
    [FindSuccessors] but its body is not among the sources; the routing
    algorithm's step 1 says it returns the first [n] of the list. *)
Definition copyOfVnodesList (vnodes_ : list (option Vnode)) (n : Z)
  : list (option Vnode) :=
  take (Z.to_nat n) vnodes_.

(** Determine how many successors we know of: one more than the last
    non-nil index. *)
Fixpoint knownSuccessors_loop (l : list (option Vnode)) (i acc : Z) : Z :=
  match l with
  | [] => acc
  | s :: l' =>
      knownSuccessors_loop l' (i + 1)
        (match s with Some _ => i + 1 | None => acc end)
  end.

Definition knownSuccessors (vn : localVnode) : Z :=
  knownSuccessors_loop (successors vn) 0 0.

(** [s[:n]] on a slice of length at least [n]. *)
Definition slice_to {A} (s : list A) (n : Z) : outcome (list A) :=
  if n <? 0 then Panic "slice bounds out of range"
  else Ret (take (Z.to_nat n) s).

(** [for successors[len(successors)-1] == nil
      { successors = successors[:len(successors)-1] }]
    of [Ring.Lookup]; [len] is [len(successors)]. *)
Fixpoint trimNil (len : nat) (s : list (option Vnode))
  : outcome (list (option Vnode)) :=
  match len with
  | O => Panic "index out of range [-1]"
  | S len' =>
      match s !! len' with
      | None => Panic "index out of range"
      | Some None => trimNil len' (take len' s)
      | Some (Some _) => Ret s
      end
  end.

Section Routing.

(** The transport's [FindSuccessors] RPC: the reply of the remote vnode,
    a list and an error. *)
Variable transport_FindSuccessors :
  Vnode → Z → list byte → list (option Vnode) * option error.

(** The vnodes that [closestPreceedingVnodeIterator], initialised on a
    local vnode and a key, yields from [Next] until it returns nil.  The
    iterator is defined outside the sources at hand. *)
Variable closestPreceeding : localVnode → list byte → list Vnode.

(** Try the closest preceeding nodes, stop at the first that answers. *)
Fixpoint forwardToClosest (cands : list Vnode) (n : Z) (key : list byte)
  : option (list (option Vnode)) :=
  match cands with
  | [] => None
  | closest :: rest =>
      match transport_FindSuccessors closest n key with
      | (res, None) => Some res
      | (_, Some _) => forwardToClosest rest n key
      end
  end.

(** [for i := 1; i <= successors-n; i++]: [iters] iterations are left,
    the next one at index [i]. *)
Fixpoint scanSuccessors (vn : localVnode) (n : Z) (key : list byte)
    (i iters : nat) : outcome (list (option Vnode) * option error) :=
  match iters with
  | O =>
      (* Checked all closer nodes and our successors! *)
      Ret ([], Some (Errorf "Exhausted all preceeding nodes!" []))
  | S iters' =>
      match successors vn !! i with
      | None => Panic "index out of range"
      | Some None => Panic "nil pointer dereference"
      | Some (Some s) =>
          if betweenRightIncl (Id (lv_Vnode vn)) (Id s) key then
            let remain := drop i (successors vn) in
            remain ←! (if Z.of_nat (length remain) >? n
                       then slice_to remain n else Ret remain);
            Ret (copyOfVnodesList remain (Z.of_nat (length remain)), None)
          else scanSuccessors vn n key (S i) iters'
      end
  end.

(** Finds next N successors. N must be <= NumSuccessors. *)
Definition FindSuccessors (vn : localVnode) (n : Z) (key : list byte)
  : outcome (list (option Vnode) * option error) :=
  match successors vn !! 0%nat with
  | None => Panic "index out of range [0]"
  | Some None => Panic "nil pointer dereference"
  | Some (Some s0) =>
      (* Check if we are the immediate predecessor *)
      if betweenRightIncl (Id (lv_Vnode vn)) (Id s0) key then
        Ret (copyOfVnodesList (successors vn) n, None)
      else
        match forwardToClosest (closestPreceeding vn key) n key with
        | Some res => Ret (res, None)
        | None =>
            (* Determine how many successors we know of *)
            let successors_ := knownSuccessors vn in
            (* Check if the ID is between us and any non-immediate
               successors *)
            scanSuccessors vn n key 1
              (Z.to_nat (int_wrap (successors_ - n)))
        end
  end.

(** ** chord.go: [Ring.Lookup] *)

(** Does a key lookup for up to N successors of a key. *)
Definition Lookup (r : Ring) (n : Z) (key : list byte)
  : outcome (list (option Vnode) * option error) :=
  (* Ensure that n is sane *)
  if n >? NumSuccessors (config r) then
    Ret ([], Some (Errorf
      "Cannot ask for more successors than NumSuccessors!" []))
  else
    (* Hash the key *)
    let key_hash := HashFunc (config r) key in
    (* Find the nearest local vnode *)
    nearest ←! nearestVnode r key_hash;
    (* Use the nearest node for the lookup *)
    res ←! FindSuccessors nearest n key_hash;
    match res with
    | (_, Some err) => Ret ([], Some err)
    | (successors_, None) =>
        (* Trim the nil successors *)
        trimmed ←! trimNil (length successors_) successors_;
        Ret (trimmed, None)
    end.

End Routing.

(** ** lm_server.go: the lock manager *)

(** An instant ([time.Time] in UTC) as nanoseconds on the time line. *)
Definition Time : Type := Z.

Record WLockEntry : Type := {
  nodeID : string;
  LockID : string;
  version : Z;
  timeout : option Time
}.

(** For each key, the nodes and the LockIDs given out: node ID to the
    slice [[LockID, remoteAddr]]. *)
Record RLockEntry : Type := {
  nodeSet : gmap string (list string)
}.

(** Struct for the Log used for Lock state replication. *)
Record OpsLogEntry : Type := {
  OpNum : Z;                (* Operation Number *)
  Op : string;              (* Operation that was performed *)
  Key : string;             (* Key on which the operation was performed *)
  Version : Z;              (* Version number of the Key *)
  Timeout : option Time     (* Timeout setting if any *)
}.

(** In-memory state of the LockManager.  [TimeoutTicker] records whether
    the ticker has been created; the two mutexes guard a state that is
    threaded sequentially here.  The pointer [Ring], which only
    [commitWLock] reads to reach the transport, is not a field of the
    model: the lock manager is modelled with its ring and transport set. *)
Record LManager : Type := {
  CurrentLM : bool;
  VersionMap : gmap string Z;
  RLocks : gmap string RLockEntry;
  WLocks : gmap string WLockEntry;
  TimeoutTicker : bool;
  currOpNum : Z;
  OpsLog : list OpsLogEntry
}.

(** A lock manager that has served no request: every modelled field at
    its zero value, the log empty.  It stands for [&LManager{Ring: r}];
    the plain zero value [&LManager{}] has a nil [Ring], on which
    [commitWLock] panics at its first invalidation. *)
Definition newLManager : LManager :=
  {| CurrentLM := false; VersionMap := ∅; RLocks := ∅; WLocks := ∅;
     TimeoutTicker := false; currOpNum := 0; OpsLog := [] |}.

Definition set_WLocks (lm : LManager) (wl : gmap string WLockEntry)
  : LManager :=
  {| CurrentLM := CurrentLM lm; VersionMap := VersionMap lm;
     RLocks := RLocks lm; WLocks := wl; TimeoutTicker := TimeoutTicker lm;
     currOpNum := currOpNum lm; OpsLog := OpsLog lm |}.

Definition set_RLocks (lm : LManager) (rl : gmap string RLockEntry)
  : LManager :=
  {| CurrentLM := CurrentLM lm; VersionMap := VersionMap lm;
     RLocks := rl; WLocks := WLocks lm; TimeoutTicker := TimeoutTicker lm;
     currOpNum := currOpNum lm; OpsLog := OpsLog lm |}.

Definition set_VersionMap (lm : LManager) (vm : gmap string Z) : LManager :=
  {| CurrentLM := CurrentLM lm; VersionMap := vm;
     RLocks := RLocks lm; WLocks := WLocks lm;
     TimeoutTicker := TimeoutTicker lm;
     currOpNum := currOpNum lm; OpsLog := OpsLog lm |}.

(** [lm.currOpNum++] followed by the append of the entry built from the
    new number, as the three writers do under [opsLogMut]. *)
Definition appendOp (lm : LManager) (op key : string) (ver : Z)
    (tmo : option Time) : LManager :=
  let num := uint_wrap (currOpNum lm + 1) in
  {| CurrentLM := CurrentLM lm; VersionMap := VersionMap lm;
     RLocks := RLocks lm; WLocks := WLocks lm;
     TimeoutTicker := TimeoutTicker lm;
     currOpNum := num;
     OpsLog := OpsLog lm ++
       [{| OpNum := num; Op := op; Key := key; Version := ver;
           Timeout := tmo |}] |}.

(** [lm.VersionMap[key]]: the zero value when the key is absent. *)
Definition VersionMap_at (lm : LManager) (key : string) : Z :=
  default 0 (VersionMap lm !! key).

(** Creates a new Ticker which checks the existing WLocks every 500
    Milliseconds.  The goroutine it starts runs [timeoutTick] at each
    tick. *)
Definition scheduleTimeoutTicker (lm : LManager) : LManager :=
  {| CurrentLM := CurrentLM lm; VersionMap := VersionMap lm;
     RLocks := RLocks lm; WLocks := WLocks lm; TimeoutTicker := true;
     currOpNum := currOpNum lm; OpsLog := OpsLog lm |}.

(** One iteration of [for k, v := range lm.WLocks] in the ticker case:
    [v.timeout.Before(t) || v.timeout.Equal(t)] decides the delete. *)
Definition sweepEntry (t : Time) (acc : outcome (gmap string WLockEntry))
    (kv : string * WLockEntry) : outcome (gmap string WLockEntry) :=
  wl ←! acc;
  match timeout kv.2 with
  | None => Panic "nil pointer dereference"
  | Some d =>
      if (d <? t) || (d =? t) then Ret (delete kv.1 wl) else Ret wl
  end.

(** The body of [case <-lm.TimeoutTicker.C], run at instant [t]. *)
Definition timeoutTick (t : Time) (lm : LManager) : outcome LManager :=
  wl ←! foldl (sweepEntry t) (Ret (WLocks lm)) (map_to_list (WLocks lm));
  Ret (set_WLocks lm wl).

Definition hexdigit (n : Z) : string :=
  match String.get (Z.to_nat n) "0123456789abcdef" with
  | Some c => String c EmptyString
  | None => EmptyString
  end.

(** [hex.EncodeToString]. *)
Fixpoint hex_EncodeToString (src : list byte) : string :=
  match src with
  | [] => EmptyString
  | b :: rest =>
      (hexdigit (byte_val b / 16) +:+ hexdigit (byte_val b mod 16))
        +:+ hex_EncodeToString rest
  end.

(** LockID generator.  [rand_Read] is what [rand.Read] did to the 20-byte
    buffer: the bytes it put there, or the text of its error. *)
Definition getLockID (rand_Read : list byte + string)
  : string * option error :=
  match rand_Read with
  | inr err => (EmptyString,
                Some (Errorf "Error while generating LockID : " [err]))
  | inl lockID => (hex_EncodeToString lockID, None)
  end.

Definition createRLock (lm : LManager) (key nodeId remoteAddr : string)
    (rand_Read : list byte + string)
  : LManager * (string * Z * option error) :=
  let version_ := VersionMap_at lm key in
  if version_ =? 0 then
    (lm, (EmptyString, 0,
          Some (Errorf "ReadLock not possible. Key not present in LM" [])))
  else
    match getLockID rand_Read with
    | (_, Some err) => (lm, (EmptyString, 0, Some err))
    | (lockID, None) =>
        let rLockEntry := default {| nodeSet := ∅ |} (RLocks lm !! key) in
        let rLockEntry' :=
          {| nodeSet := <[nodeId := [lockID; remoteAddr]]>
                          (nodeSet rLockEntry) |} in
        let lm' := set_RLocks lm (<[key := rLockEntry']> (RLocks lm)) in
        (lm', (lockID, VersionMap_at lm' key, None))
    end.

Definition checkWLock (lm : LManager) (key : string)
  : bool * Z * option error :=
  match WLocks lm !! key with
  | None => (false, 0, None)
  | Some wLockEntry => (true, version wLockEntry, None)
  end.

(** [lm.WLocks[key].version] where the entry is known to be there. *)
Definition WLocks_version (lm : LManager) (key : string) : Z :=
  match WLocks lm !! key with
  | Some wLockEntry => version wLockEntry
  | None => 0
  end.

(** [time.Duration(timeout) * time.Second], an [int64] of nanoseconds. *)
Definition seconds (timeoutSec : Z) : Z :=
  int_wrap (int_wrap timeoutSec * 1000000000).

Definition createWLock (lm : LManager) (key : string)
    (reqVersion timeoutSec : Z) (nodeId : string)
    (now : Time) (rand_Read : list byte + string)
  : LManager * (string * Z * Z * option error) :=
  let lm := if TimeoutTicker lm then lm else scheduleTimeoutTicker lm in
  match checkWLock lm key with
  | (_, _, Some _) =>
      (lm, (EmptyString, 0, 0, Some (Errorf
        "Error while checking if a write lock exists already for that key"
        [])))
  | (true, _, None) =>
      (lm, (EmptyString, WLocks_version lm key, 0, Some (Errorf
        "WriteLock not possible. Key is currently being updated" [])))
  | (false, _, None) =>
      (* Check if requested version is greater than the committed version *)
      let checked :=
        if reqVersion <=? VersionMap_at lm key then
          if reqVersion =? 0 then (* Client wants to update *)
            inl (uint_wrap (VersionMap_at lm key + 1))
          else
            inr (Errorf
              "Committed version is higher than requested version" [])
        else inl reqVersion in
      match checked with
      | inr err => (lm, (EmptyString, VersionMap_at lm key, 0, Some err))
      | inl ver =>
          match getLockID rand_Read with
          | (_, Some err) => (lm, (EmptyString, 0, 0, Some err))
          | (lockID, None) =>
              let t := now + seconds timeoutSec in
              let lm := appendOp lm "WRITE" key ver (Some t) in
              let lm := set_WLocks lm
                (<[key := {| nodeID := nodeId; LockID := lockID;
                             version := ver; timeout := Some t |}]>
                   (WLocks lm)) in
              (lm, (lockID, ver, timeoutSec, None))
          end
      end
  end.

(** One call of [Transport.InvalidateRLock(&Vnode{Id, Host}, lockID)]. *)
Record Invalidation : Type := {
  target : Vnode;
  lockId : string
}.

(** One iteration of [for k, v := range lm.RLocks[key].nodeSet]: the call
    made with [v[1]] and [v[0]]; its error is ignored. *)
Definition invalidateHolder (kv : string * list string)
  : outcome Invalidation :=
  match kv.2 !! 1%nat, kv.2 !! 0%nat with
  | Some host, Some lockID =>
      Ret {| target := {| Id := String.list_byte_of_string kv.1;
                          Host := host |};
             lockId := lockID |}
  | _, _ => Panic "index out of range"
  end.

Fixpoint invalidateAll (holders : list (string * list string))
  : outcome (list Invalidation) :=
  match holders with
  | [] => Ret []
  | kv :: rest =>
      call ←! invalidateHolder kv;
      calls ←! invalidateAll rest;
      Ret (call :: calls)
  end.

(** The result carries the calls made on [lm.Ring.transport].  The ring
    is taken to be set: with a nil [lm.Ring] the source panics at the
    first of these calls, after the commit has been recorded, and that
    panic is not modelled.  Go leaves the order of a range over a map
    open; the calls are listed in the order of [map_to_list]. *)
Definition commitWLock (lm : LManager) (key : string) (reqVersion : Z)
    (nodeId : string)
  : outcome (LManager * list Invalidation * option error) :=
  match checkWLock lm key with
  | (_, _, Some _) =>
      Ret (lm, [], Some (Errorf
        "Error while looking up the existing set of write locks in Lock Manager"
        []))
  | (false, _, None) =>
      Ret (lm, [], Some (Errorf "Lock not available. Cannot commit" []))
  | (true, ver, None) =>
      if negb (ver =? reqVersion) then
        Ret (lm, [], Some (Errorf
          "Requested version doesn't match with the version locked. Cannot commit"
          []))
      else
        let lm := set_VersionMap lm (<[key := reqVersion]> (VersionMap lm)) in
        let lm := appendOp lm "COMMIT" key reqVersion None in
        let lm := set_WLocks lm (delete key (WLocks lm)) in
        if reqVersion =? 1 then Ret (lm, [], None)
        else
          match RLocks lm !! key with
          | None => Ret (lm, [], None)
          | Some rLockEntry =>
              calls ←! invalidateAll (map_to_list (nodeSet rLockEntry));
              Ret (lm, calls, None)
          end
  end.

Definition abortWLock (lm : LManager) (key : string) (reqVersion : Z)
    (nodeId : string) : LManager * option error :=
  match checkWLock lm key with
  | (_, _, Some _) =>
      (lm, Some (Errorf
        "Error while looking up the existing set of write locks in Lock Manager"
        []))
  | (false, _, None) =>
      (lm, Some (Errorf "Lock not available. Nothing to abort" []))
  | (true, ver, None) =>
      if negb (ver =? reqVersion) then
        (lm, Some (Errorf
          "Requested version doesn't match with the version locked. Cannot abort"
          []))
      else
        let lm := appendOp lm "ABORT" key reqVersion None in
        let lm := set_WLocks lm (delete key (WLocks lm)) in
        (lm, None)
  end.

(** *** Runs of the lock manager *)

(** What reaches one lock manager during a term: the four requests, with
    what the clock and the random source gave them, and the ticks of its
    timeout ticker.  A run takes them one after the other: a sweep of the
    ticker goroutine falls between two requests, never inside one, so the
    interleavings in which it deletes a lock between [checkWLock] and a
    later read of [lm.WLocks[key]] are outside the model. *)
Inductive LMEvent : Type :=
  | EvRLock (key nodeId remoteAddr : string) (rand_Read : list byte + string)
  | EvWLock (key : string) (reqVersion timeoutSec : Z) (nodeId : string)
            (now : Time) (rand_Read : list byte + string)
  | EvCommit (key : string) (reqVersion : Z) (nodeId : string)
  | EvAbort (key : string) (reqVersion : Z) (nodeId : string)
  | EvTick (now : Time).

Definition lmStep (lm : LManager) (ev : LMEvent) : outcome LManager :=
  match ev with
  | EvRLock key nodeId remoteAddr rnd =>
      Ret (createRLock lm key nodeId remoteAddr rnd).1
  | EvWLock key reqVersion timeoutSec nodeId now rnd =>
      Ret (createWLock lm key reqVersion timeoutSec nodeId now rnd).1
  | EvCommit key reqVersion nodeId =>
      r ←! commitWLock lm key reqVersion nodeId; Ret r.1.1
  | EvAbort key reqVersion nodeId =>
      Ret (abortWLock lm key reqVersion nodeId).1
  | EvTick now => timeoutTick now lm
  end.

Fixpoint lmRun (lm : LManager) (evs : list LMEvent) : outcome LManager :=
  match evs with
  | [] => Ret lm
  | ev :: rest => lm' ←! lmStep lm ev; lmRun lm' rest
  end.

(** ** Scenarios *)

(** Twenty bytes from the random source. *)
Definition rand20 (b : byte) : list byte + string := inl (replicate 20 b).

(** N1 holds the write lock on "a" at version 1, granted at instant 0 for
    5 seconds. *)
Definition heldLock : LManager :=
  (createWLock newLManager "a" 0 5 "N1" 0 (rand20 x11)).1.

(** Scenario 1 of the specification up to the read lock: node N1 writes
    key "a" for the first time and commits, node N2 takes a read lock. *)
Definition scenarioWriteRead : list LMEvent :=
  [ EvWLock "a" 0 5 "N1" 0 (rand20 x11);
    EvCommit "a" 1 "N1";
    EvRLock "a" "N2" "addr2" (rand20 x22) ].

(** The lock manager after [scenarioWriteRead]. *)
Definition afterWriteRead : LManager :=
  match lmRun newLManager scenarioWriteRead with
  | Ret lm => lm
  | Panic _ => newLManager
  end.

(** After scenario 1 a client commits the largest [uint] as the version of
    "a"; the next update request ([reqVersion = 0]) is then granted at
    [VersionMap["a"] + 1], which is 0 in [uint] arithmetic. *)
Definition scenarioVersionWrap : list LMEvent :=
  scenarioWriteRead ++
  [ EvWLock "a" (2 ^ 64 - 1) 5 "N1" 0 (rand20 x33);
    EvCommit "a" (2 ^ 64 - 1) "N1";
    EvWLock "a" 0 5 "N3" 0 (rand20 x44) ].

(** An 8-bit ring seen from the vnode [0x10], with the remote vnodes
    [0x20], [0x30] and [0x40] as its successors. *)
Definition vnodeAt (b : byte) (host : string) : Vnode :=
  {| Id := [b]; Host := host |}.

Definition localAt10 (succs : list (option Vnode)) : localVnode :=
  {| lv_Vnode := vnodeAt x10 "local"; successors := succs;
     predecessors := []; finger := []; last_finger := 0;
     predecessor := None |}.

Definition threeSuccessors : list (option Vnode) :=
  [Some (vnodeAt x20 "h2"); Some (vnodeAt x30 "h3"); Some (vnodeAt x40 "h4")].

Definition twoSuccessors : list (option Vnode) :=
  [Some (vnodeAt x20 "h2"); Some (vnodeAt x30 "h3")].

(** A transport on which every forward fails, one whose remote vnodes
    answer with an empty list, one whose answer holds nil entries only, and
    an iterator that yields the successors from the farthest to the
    nearest. *)
Definition transportDown (_ : Vnode) (_ : Z) (_ : list byte)
  : list (option Vnode) * option error :=
  ([], Some (Errorf "i/o timeout" [])).

Definition transportEmpty (_ : Vnode) (_ : Z) (_ : list byte)
  : list (option Vnode) * option error :=
  ([], None).

Definition transportNils (_ : Vnode) (_ : Z) (_ : list byte)
  : list (option Vnode) * option error :=
  ([None; None], None).

Definition closestFromSuccessors (vn : localVnode) (_ : list byte)
  : list Vnode :=
  omap id (rev (successors vn)).

(** A ring of the single local vnode [0x10] whose hash function leaves the
    key as it is. *)
Definition ringAt10 : Ring :=
  {| config := {| Hostname := "local"; NumVnodes := 1; HashFunc := id;
                  NumSuccessors := 8; hashBits := 8; RingId := "ring" |};
     vnodes := [localAt10 twoSuccessors] |}.

(** ** Vocabulary of the statements *)

(** An identifier of [m] bits: a slice of [m/8] bytes. *)
Definition is_id (m : Z) (id : list byte) : Prop :=
  8 * Z.of_nat (length id) = m.

(** Whether the deadline of a write lock has elapsed at instant [t]. *)
Definition expired (t : Time) (w : WLockEntry) : bool :=
  match timeout w with
  | Some d => d <=? t
  | None => false
  end.

(** The node set recorded for a key, empty when [RLocks[key]] is nil. *)
Definition nodeSet_at (lm : LManager) (key : string)
  : gmap string (list string) :=
  match RLocks lm !! key with
  | Some rLockEntry => nodeSet rLockEntry
  | None => ∅
  end.

(** The call that [commitWLock] makes for the holder [kv]. *)
Definition invalidationOf (kv : string * list string) : Invalidation :=
  {| target := {| Id := String.list_byte_of_string kv.1;
                  Host := default EmptyString (kv.2 !! 1%nat) |};
     lockId := default EmptyString (kv.2 !! 0%nat) |}.

(** States in which no operation panics: every write lock carries a
    deadline and every recorded read lock is a pair [[LockID, addr]]. *)
Definition lm_wf (lm : LManager) : Prop :=
  (∀ k w, WLocks lm !! k = Some w → is_Some (timeout w))
  ∧ (∀ k r n v, RLocks lm !! k = Some r → nodeSet r !! n = Some v →
       length v = 2%nat).

Definition OpNum_lt (e1 e2 : OpsLogEntry) : Prop := OpNum e1 < OpNum e2.

(** The log is in step with the counter: strictly increasing numbers, none
    above [currOpNum]. *)
Definition log_ok (lm : LManager) : Prop :=
  StronglySorted OpNum_lt (OpsLog lm)
  ∧ Forall (λ e, OpNum e ≤ currOpNum lm) (OpsLog lm)
  ∧ 0 ≤ currOpNum lm.

(** What an operation may do to the log: nothing, or one append numbered
    [currOpNum + 1]. *)
Definition log_step (lm lm' : LManager) : Prop :=
  (OpsLog lm' = OpsLog lm ∧ currOpNum lm' = currOpNum lm)
  ∨ (∃ e, OpsLog lm' = OpsLog lm ++ [e]
          ∧ OpNum e = uint_wrap (currOpNum lm + 1)
          ∧ currOpNum lm' = uint_wrap (currOpNum lm + 1)).

(** ** util.go: the remaining helpers *)

(** max returns the max of two ints. *)
Definition max (a b : Z) : Z := if a >=? b then a else b.

(** min returns the min of two ints. *)
Definition min (a b : Z) : Z := if a <=? b then a else b.

(** [s[i]] for an [int] index. *)
Definition index {A} (s : list A) (i : Z) : outcome A :=
  if i <? 0 then Panic "index out of range"
  else match s !! Z.to_nat i with
       | Some x => Ret x
       | None => Panic "index out of range"
       end.

(** [s[i], s[j] = s[j], s[i]]: both reads come before the writes. *)
Definition swap_at {A} (s : list A) (i j : Z) : outcome (list A) :=
  x ←! index s i;
  y ←! index s j;
  Ret (<[Z.to_nat j := x]> (<[Z.to_nat i := y]> s)).

(** The loop of [nearestVnodeToKey], from the last index down; [None] when
    it runs off the front. *)
Fixpoint nearestVnodeToKey_loop (rev_vnodes : list (option Vnode))
    (key : list byte) : outcome (option Vnode) :=
  match rev_vnodes with
  | [] => Ret None
  | None :: _ => Panic "nil pointer dereference"
  | Some vn :: rest =>
      if bytes_Compare (Id vn) key =? -1 then Ret (Some vn)
      else nearestVnodeToKey_loop rest key
  end.

(** Returns the vnode nearest a key. *)
Definition nearestVnodeToKey (vnodes_ : list (option Vnode))
    (key : list byte) : outcome (option Vnode) :=
  found ←! nearestVnodeToKey_loop (rev vnodes_) key;
  match found with
  | Some vn => Ret (Some vn)
  | None =>
      (* Return the last vnode *)
      match last vnodes_ with
      | Some vn => Ret vn
      | None => Panic "index out of range [-1]"
      end
  end.

(** IntHeap lifted from http://golang.org/pkg/container/heap/: a [[]int]. *)
Definition IntHeap : Type := list Z.

Definition IntHeap_Len (h : IntHeap) : Z := Z.of_nat (length h).

Definition IntHeap_Less (h : IntHeap) (i j : Z) : outcome bool :=
  x ←! index h i;
  y ←! index h j;
  Ret (x <? y).

Definition IntHeap_Swap (h : IntHeap) (i j : Z) : outcome IntHeap :=
  swap_at h i j.

(** Appends [x] to the slice the receiver points to; [x] holds an [int]. *)
Definition IntHeap_Push (h : IntHeap) (x : Z) : IntHeap := h ++ [x].

(** [x := old[n-1]], the receiver becomes [old[0 : n-1]]: the element and
    the heap left. *)
Definition IntHeap_Pop (h : IntHeap) : outcome (Z * IntHeap) :=
  let n := IntHeap_Len h in
  x ←! index h (n - 1);
  Ret (x, take (Z.to_nat (n - 1)) h).

(** ** ring.go: the ring as a [sort.Interface] *)

(** Len is the number of vnodes. *)
Definition Ring_Len (r : Ring) : Z := Z.of_nat (length (vnodes r)).

(** Less returns whether the vnode with index i should sort before the
    vnode with index j. *)
Definition Ring_Less (r : Ring) (i j : Z) : outcome bool :=
  vi ←! index (vnodes r) i;
  vj ←! index (vnodes r) j;
  Ret (bytes_Compare (Id (lv_Vnode vi)) (Id (lv_Vnode vj)) =? -1).

(** Swap swaps the vnodes with indexes i and j. *)
Definition Ring_Swap (r : Ring) (i j : Z) : outcome Ring :=
  vs ←! swap_at (vnodes r) i j;
  Ret {| config := config r; vnodes := vs |}.

(** *** More scenarios *)

(** A local vnode with the one-byte identifier [b]. *)
Definition localAt (b : byte) (succs : list (option Vnode)) : localVnode :=
  {| lv_Vnode := vnodeAt b "local"; successors := succs;
     predecessors := []; finger := []; last_finger := 0;
     predecessor := None |}.

(** A ring of three local vnodes, sorted, each with room for two
    successors. *)
Definition ringOfThree : Ring :=
  {| config := {| Hostname := "local"; NumVnodes := 3; HashFunc := id;
                  NumSuccessors := 2; hashBits := 8; RingId := "ring" |};
     vnodes := [localAt x10 [None; None]; localAt x20 [None; None];
                localAt x30 [None; None]] |}.

(** The order [sort.Sort(r)] leaves between a vnode and a later one: the
    later one is not [Less]. *)
Definition vnode_le (a b : localVnode) : Prop :=
  bytes_Compare (Id (lv_Vnode a)) (Id (lv_Vnode b)) ≠ 1.

(** No identifier below the key among the vnodes of a list. *)
Definition none_below (key : list byte) (l : list (option Vnode)) : Prop :=
  Forall (λ v, ∀ w, v = Some w → bytes_Compare (Id w) key ≠ -1) l.

(** ** vnode.go: the successor and predecessor lists *)

(** Converts the ID to string: [fmt.Sprintf("%x", vn.Id)] writes the
    bytes of the slice in lower-case hexadecimal. *)
Definition Vnode_String (vn : Vnode) : string := hex_EncodeToString (Id vn).

Definition set_successors (vn : localVnode) (succs : list (option Vnode))
  : localVnode :=
  {| lv_Vnode := lv_Vnode vn; successors := succs;
     predecessors := predecessors vn; finger := finger vn;
     last_finger := last_finger vn; predecessor := predecessor vn |}.

Definition set_predecessors (vn : localVnode) (preds : list (option Vnode))
  : localVnode :=
  {| lv_Vnode := lv_Vnode vn; successors := successors vn;
     predecessors := preds; finger := finger vn;
     last_finger := last_finger vn; predecessor := predecessor vn |}.

(** What a call hands to [Ring.invokeDelegate], which drops it when no
    delegate is configured. *)
Inductive DelegateEvent : Type :=
  | SuccessorLeaving (local_ remote : Vnode)
  | PredecessorLeaving (local_ remote : Vnode).

(** [copy(s[0:], s[1:])]: every entry but the last takes the value of the
    next one. *)
Definition copy_down {A} (s : list A) : list A :=
  match last s with
  | Some x => drop 1 s ++ [x]
  | None => []
  end.

(** Used to skip a successor when a node is leaving.  The result is the
    vnode and the event handed to the delegate, if any; the error returned
    is always nil. *)
Definition SkipSuccessor (vn : localVnode) (s : option Vnode)
  : outcome (localVnode * option DelegateEvent) :=
  match successors vn !! 0%nat with
  | None => Panic "index out of range [0]"
  | Some None => Panic "nil pointer dereference"
  | Some (Some old) =>
      match s with
      | None => Panic "nil pointer dereference"
      | Some s =>
          (* Skip if we have a match *)
          if String.eqb (Vnode_String old) (Vnode_String s) then
            let known := knownSuccessors vn in
            let shifted := copy_down (successors vn) in
            _ ←! index shifted (known - 1);
            Ret (set_successors vn
                   (<[Z.to_nat (known - 1) := None]> shifted),
                 Some (SuccessorLeaving (lv_Vnode vn) old))
          else Ret (vn, None)
      end
  end.

(** The loop of [GetPredecessorList] from index [i] on, [iters] iterations
    left. *)
Fixpoint GetPredecessorList_loop (preds : list (option Vnode))
    (i iters : nat) (ret : list (option Vnode))
  : outcome (list (option Vnode)) :=
  match iters with
  | O => Ret ret
  | S iters' =>
      match preds !! i with
      | None => Panic "index out of range"
      | Some None => GetPredecessorList_loop preds (S i) iters' ret
      | Some (Some p) =>
          GetPredecessorList_loop preds (S i) iters' (ret ++ [Some p])
      end
  end.

(** RPC Short Circuit: Return predecessor list. *)
Definition GetPredecessorList (conf : Config) (vn : localVnode)
  : outcome (list (option Vnode) * option error) :=
  if NumSuccessors conf + 1 <? 0 then Panic "makeslice: cap out of range"
  else
    ret ←! GetPredecessorList_loop (predecessors vn) 0
             (Z.to_nat (NumSuccessors conf + 1)) [];
    Ret (ret, None).

(** The loop of [notifySuccessor] over [succ_list], the next entry going
    to index [idx + 1]: it stops at a nil entry and at the vnode itself. *)
Fixpoint notifySuccessor_loop (self : Vnode) (succs : list (option Vnode))
    (idx : nat) (succ_list : list (option Vnode))
  : outcome (list (option Vnode)) :=
  match succ_list with
  | [] => Ret succs
  | None :: _ => Ret succs
  | Some s :: rest =>
      (* Ensure we don't set ourselves as a successor! *)
      if String.eqb (Vnode_String s) (Vnode_String self) then Ret succs
      else if decide (S idx < length succs)%nat then
        notifySuccessor_loop self (<[S idx := Some s]> succs) (S idx) rest
      else Panic "index out of range"
  end.

(** Notifies our successor of us, updates successor list.  [reply] is
    what [Transport.Notify(succ, self)] returned. *)
Definition notifySuccessor (conf : Config) (vn : localVnode)
    (reply : list (option Vnode) * option error)
  : outcome (localVnode * option error) :=
  match successors vn !! 0%nat with
  | None => Panic "index out of range [0]"
  | Some _ =>
      match reply with
      | (_, Some err) => Ret (vn, Some err)
      | (succ_list, None) =>
          (* Trim the successors list if too long *)
          let max_succ := NumSuccessors conf in
          succ_list ←! (if Z.of_nat (length succ_list) >? max_succ - 1
                        then slice_to succ_list (max_succ - 1)
                        else Ret succ_list);
          (* Update local successors list *)
          succs ←! notifySuccessor_loop (lv_Vnode vn) (successors vn) 0
                     succ_list;
          Ret (set_successors vn succs, None)
      end
  end.

(** ** ring.go: the local successors and predecessors of a new ring *)

(** [for i := 0; i < numSuc; i++
       { vnode.successors[i] = &r.vnodes[(idx+i+1)%numV].Vnode }]
    for the vnode at [idx], from [i] on with [iters] iterations left. *)
Fixpoint setLocalSuccessors_loop (vs : list localVnode) (idx : Z)
    (succs : list (option Vnode)) (i : Z) (iters : nat)
  : outcome (list (option Vnode)) :=
  match iters with
  | O => Ret succs
  | S iters' =>
      v ←! index vs (Z.rem (idx + i + 1) (Z.of_nat (length vs)));
      _ ←! index succs i;
      setLocalSuccessors_loop vs idx
        (<[Z.to_nat i := Some (lv_Vnode v)]> succs) (i + 1) iters'
  end.

(** [for idx, vnode := range r.vnodes], from the vnode at [idx] on. *)
Fixpoint range_vnodes (f : Z → localVnode → outcome localVnode) (idx : Z)
    (vs : list localVnode) : outcome (list localVnode) :=
  match vs with
  | [] => Ret []
  | vnode :: rest =>
      vnode' ←! f idx vnode;
      rest' ←! range_vnodes f (idx + 1) rest;
      Ret (vnode' :: rest')
  end.

(** Initializes the vnodes with their local successors. *)
Definition setLocalSuccessors (r : Ring) : outcome Ring :=
  let numV := Z.of_nat (length (vnodes r)) in
  let numSuc := min (NumSuccessors (config r)) (numV - 1) in
  vs ←! range_vnodes
          (λ idx vnode,
             succs ←! setLocalSuccessors_loop (vnodes r) idx
                        (successors vnode) 0 (Z.to_nat numSuc);
             Ret (set_successors vnode succs))
          0 (vnodes r);
  Ret {| config := config r; vnodes := vs |}.

(** The inner loop of [setLocalPredecessors] for the vnode at [idx]. *)
Fixpoint setLocalPredecessors_loop (vs : list localVnode) (idx : Z)
    (preds : list (option Vnode)) (i : Z) (iters : nat)
  : outcome (list (option Vnode)) :=
  match iters with
  | O => Ret preds
  | S iters' =>
      let numV := Z.of_nat (length vs) in
      v ←! (if idx - i - 1 <? 0 then index vs (numV - i - 1)
            else index vs (idx - i - 1));
      _ ←! index preds i;
      setLocalPredecessors_loop vs idx
        (<[Z.to_nat i := Some (lv_Vnode v)]> preds) (i + 1) iters'
  end.

(** Initializes the vnodes with their local predecessors. *)
Definition setLocalPredecessors (r : Ring) : outcome Ring :=
  let numV := Z.of_nat (length (vnodes r)) in
  let numPred := min (NumSuccessors (config r) + 1) (numV - 1) in
  vs ←! range_vnodes
          (λ idx vnode,
             preds ←! setLocalPredecessors_loop (vnodes r) idx
                        (predecessors vnode) 0 (Z.to_nat numPred);
             Ret (set_predecessors vnode preds))
          0 (vnodes r);
  Ret {| config := config r; vnodes := vs |}.

(** The first [n] entries are vnodes and the others are nil: a list
    without holes. *)
Definition packed (vs : list Vnode) (k : nat) : list (option Vnode) :=
  (Some <$> vs) ++ replicate k None.

(** The two calls [ring.setLocalSuccessors(); ring.setLocalPredecessors()]
    that [Create] makes on the ring [ring.init] has built. *)
Definition Create_setLocal (r : Ring) : outcome Ring :=
  r1 ←! setLocalSuccessors r;
  setLocalPredecessors r1.

(** A local vnode as [init] allocates its lists for [NumSuccessors = 2]:
    two successors and three predecessors, all nil. *)
Definition localNew (b : byte) : localVnode :=
  {| lv_Vnode := vnodeAt b "local"; successors := [None; None];
     predecessors := [None; None; None]; finger := []; last_finger := 0;
     predecessor := None |}.

(** Three local vnodes, sorted, before [Create] links them. *)
Definition ringNew : Ring :=
  {| config := config ringOfThree;
     vnodes := [localNew x10; localNew x20; localNew x30] |}.

(** ** vnode.go: the finger table *)

Definition set_finger (vn : localVnode) (fingers : list (option Vnode))
    (last : Z) : localVnode :=
  {| lv_Vnode := lv_Vnode vn; successors := successors vn;
     predecessors := predecessors vn; finger := fingers;
     last_finger := last; predecessor := predecessor vn |}.

(** Try to skip as many finger entries as possible: the [for] loop of
    [fixFingerTable], which leaves when [next >= hb] or when the node is
    no longer the successor of the offset.  [left] is [hb - 1 - last], the
    number of indices above [last]. *)
Fixpoint fixFingerTable_loop (id : list byte) (node : option Vnode) (hb : Z)
    (fingers : list (option Vnode)) (last : Z) (left : nat)
  : outcome (list (option Vnode) * Z) :=
  match left with
  | O => Ret (fingers, last)
  | S left' =>
      let next := int_wrap (last + 1) in
      if next >=? hb then Ret (fingers, last)
      else
        let offset := powerOffset id next hb in
        match node with
        | None => Panic "nil pointer dereference"
        | Some nd =>
            (* While the node is the successor, update the finger entries *)
            if betweenRightIncl id (Id nd) offset then
              _ ←! index fingers next;
              fixFingerTable_loop id node hb
                (<[Z.to_nat next := node]> fingers) next left'
            else Ret (fingers, last)
        end
  end.

Section Fingers.

Variable transport_FindSuccessors :
  Vnode → Z → list byte → list (option Vnode) * option error.
Variable closestPreceeding : localVnode → list byte → list Vnode.

(** Fixes up the finger table. *)
Definition fixFingerTable (conf : Config) (vn : localVnode)
  : outcome (localVnode * option error) :=
  (* Determine the offset *)
  let hb := hashBits conf in
  let offset := powerOffset (Id (lv_Vnode vn)) (last_finger vn) hb in
  (* Find the successor *)
  res ←! FindSuccessors transport_FindSuccessors closestPreceeding vn 1
           offset;
  match res with
  | (_, Some err) => Ret (vn, Some err)
  | ([], None) => Ret (vn, None)
  | (node :: _, None) =>
      (* Update the finger table *)
      _ ←! index (finger vn) (last_finger vn);
      let fingers := <[Z.to_nat (last_finger vn) := node]> (finger vn) in
      (* Try to skip as many finger entries as possible *)
      skipped ←! fixFingerTable_loop (Id (lv_Vnode vn)) node hb fingers
                   (last_finger vn) (Z.to_nat (hb - 1 - last_finger vn));
      (* Increment to the index to repair *)
      let last := if int_wrap (skipped.2 + 1) =? hb then 0
                  else int_wrap (skipped.2 + 1) in
      Ret (set_finger vn skipped.1 last, None)
  end.

End Fingers.

(** ** Properties of the byte-slice arithmetic *)

Lemma byte_val_range b : 0 ≤ byte_val b < 256.
Proof.
  unfold byte_val. pose proof (Byte.to_N_bounded b) as H.
  split; [apply N2Z.is_nonneg|].
  apply N.lt_succ_r in H. change (N.succ 255) with 256%N in H. lia.
Qed.

Lemma byte_val_of_Z z : 0 ≤ z < 256 → byte_val (byte_of_Z z) = z.
Proof.
  intros Hz. unfold byte_val, byte_of_Z.
  destruct (Byte.of_N (Z.to_N z)) as [b|] eqn:E; simpl.
  - apply Byte.to_of_N in E. rewrite E. lia.
  - apply Byte.of_N_None_iff in E. lia.
Qed.

Lemma byte_of_Z_val b : byte_of_Z (byte_val b) = b.
Proof.
  unfold byte_of_Z, byte_val. rewrite N2Z.id, Byte.of_to_N. done.
Qed.

Lemma fold_SetBytes l acc :
  fold_left (λ acc b, acc * 256 + byte_val b) l acc
  = acc * 256 ^ Z.of_nat (length l) + SetBytes l.
Proof.
  unfold SetBytes. revert acc.
  induction l as [|b l IH]; intros acc; simpl fold_left.
  - simpl. lia.
  - rewrite IH, (IH (0 * 256 + byte_val b)).
    rewrite length_cons, Nat2Z.inj_succ, Z.pow_succ_r by lia. ring.
Qed.

Lemma SetBytes_cons b l :
  SetBytes (b :: l) = byte_val b * 256 ^ Z.of_nat (length l) + SetBytes l.
Proof.
  unfold SetBytes at 1. simpl fold_left. rewrite fold_SetBytes. ring.
Qed.

Lemma SetBytes_snoc l b : SetBytes (l ++ [b]) = SetBytes l * 256 + byte_val b.
Proof. unfold SetBytes. by rewrite fold_left_app. Qed.

Lemma SetBytes_range l : 0 ≤ SetBytes l < 256 ^ Z.of_nat (length l).
Proof.
  induction l as [|b l IH].
  - cbn. lia.
  - rewrite SetBytes_cons, length_cons, Nat2Z.inj_succ, Z.pow_succ_r by lia.
    pose proof (byte_val_range b). nia.
Qed.

(** On slices of one length, [bytes.Compare] is the comparison of the
    big-endian values. *)
Lemma bytes_Compare_SetBytes a b :
  length a = length b →
  bytes_Compare a b =
    match SetBytes a ?= SetBytes b with Lt => -1 | Eq => 0 | Gt => 1 end.
Proof.
  revert b. induction a as [|x a IH]; intros [|y b] Hlen; try discriminate.
  - reflexivity.
  - injection Hlen as Hlen. simpl bytes_Compare.
    rewrite !SetBytes_cons, <- Hlen.
    pose proof (SetBytes_range a) as Ha. pose proof (SetBytes_range b) as Hb.
    rewrite <- Hlen in Hb.
    set (P := 256 ^ Z.of_nat (length a)) in *.
    destruct (Z.ltb_spec (byte_val x) (byte_val y)) as [Hlt|Hge].
    { assert (byte_val x * P + SetBytes a < byte_val y * P + SetBytes b)
        as H%Z.compare_lt_iff by nia.
      by rewrite H. }
    destruct (Z.ltb_spec (byte_val y) (byte_val x)) as [Hgt|Hle].
    { assert (byte_val y * P + SetBytes b < byte_val x * P + SetBytes a)
        as H%Z.compare_gt_iff by nia.
      by rewrite H. }
    assert (byte_val x = byte_val y) as -> by lia.
    rewrite (IH b Hlen).
    by rewrite Z.add_compare_mono_l.
Qed.

Lemma bytes_Compare_lt a b :
  length a = length b → bytes_Compare a b = -1 ↔ SetBytes a < SetBytes b.
Proof.
  intros H. rewrite (bytes_Compare_SetBytes a b H).
  destruct (Z.compare_spec (SetBytes a) (SetBytes b)); lia.
Qed.

Lemma bytes_Compare_gt a b :
  length a = length b → bytes_Compare a b = 1 ↔ SetBytes b < SetBytes a.
Proof.
  intros H. rewrite (bytes_Compare_SetBytes a b H).
  destruct (Z.compare_spec (SetBytes a) (SetBytes b)); lia.
Qed.

Lemma bytes_Compare_ge a b :
  length a = length b → 0 ≤ bytes_Compare a b ↔ SetBytes b ≤ SetBytes a.
Proof.
  intros H. rewrite (bytes_Compare_SetBytes a b H).
  destruct (Z.compare_spec (SetBytes a) (SetBytes b)); lia.
Qed.

Lemma bytes_Compare_refl a : bytes_Compare a a = 0.
Proof.
  induction a as [|x a IH]; [done|]. simpl.
  by rewrite Z.ltb_irrefl.
Qed.

Lemma SetBytes_be_bytes n z : SetBytes (be_bytes n z) = z mod 256 ^ Z.of_nat n.
Proof.
  unfold be_bytes. revert z. induction n as [|n IH]; intros z.
  - cbn. by rewrite Z.mod_1_r.
  - cbn [le_bytes rev]. rewrite SetBytes_snoc, IH.
    rewrite byte_val_of_Z by (apply Z.mod_pos_bound; lia).
    rewrite Nat2Z.inj_succ, Z.pow_succ_r by lia.
    rewrite (Z.rem_mul_r z 256 (256 ^ Z.of_nat n)) by lia. ring.
Qed.

Lemma be_bytes_SetBytes l : be_bytes (length l) (SetBytes l) = l.
Proof.
  unfold be_bytes. rewrite <- (rev_involutive l) at 3. f_equal.
  induction l as [|b l IH] using rev_ind; [done|].
  rewrite length_app, Nat.add_comm. cbn [length Nat.add le_bytes].
  rewrite SetBytes_snoc, rev_app_distr. cbn [rev app].
  pose proof (byte_val_range b).
  replace ((SetBytes l * 256 + byte_val b) mod 256) with (byte_val b)
    by (rewrite Z.add_comm, Z.mod_add by lia; by rewrite Z.mod_small).
  replace ((SetBytes l * 256 + byte_val b) / 256) with (SetBytes l)
    by (rewrite Z.add_comm, Z.div_add by lia;
        rewrite Z.div_small by lia; lia).
  by rewrite byte_of_Z_val, IH.
Qed.

Lemma SetBytes_Int_Bytes z : 0 ≤ z → SetBytes (Int_Bytes z) = z.
Proof.
  intros Hz. unfold Int_Bytes. rewrite Z.abs_eq by done.
  destruct (Z.eqb_spec z 0) as [->|Hne]; [done|].
  rewrite SetBytes_be_bytes. apply Z.mod_small. split; [done|].
  pose proof (Z.log2_nonneg z) as Hl.
  rewrite Z2Nat.id by (pose proof (Z.div_pos (Z.log2 z) 8); lia).
  change 256 with (2 ^ 8). rewrite <- Z.pow_mul_r by
    (pose proof (Z.div_pos (Z.log2 z) 8); lia).
  apply Z.log2_lt_pow2; [lia|].
  pose proof (Z.mod_pos_bound (Z.log2 z) 8).
  pose proof (Z.div_mod (Z.log2 z) 8). lia.
Qed.

Lemma id_below_ring id m :
  8 * Z.of_nat (length id) = m → 0 ≤ SetBytes id < 2 ^ m.
Proof.
  intros <-. pose proof (SetBytes_range id) as H.
  change 256 with (2 ^ 8) in H. by rewrite <- Z.pow_mul_r in H by lia.
Qed.

Lemma is_id_length m a b : is_id m a → is_id m b → length a = length b.
Proof. unfold is_id. lia. Qed.

(** ** Ring predicates *)

(** C5: on identifiers [a], [b] and a key [x] of [m] bits, read as
    big-endian unsigned numbers: when [a > b] the interval wraps, and
    [between a b x] holds iff [x > a] or [x < b], [betweenRightIncl a b x]
    iff [x > a] or [x <= b]; when [a < b], [between a b x] holds iff
    [a < x < b] and [betweenRightIncl a b x] iff [a < x <= b]. *)
Theorem between_ring_intervals (m : Z) (a b x : list byte) :
  is_id m a → is_id m b → is_id m x →
  (SetBytes a > SetBytes b →
     (between a b x = true
        ↔ SetBytes x > SetBytes a ∨ SetBytes x < SetBytes b) ∧
     (betweenRightIncl a b x = true
        ↔ SetBytes x > SetBytes a ∨ SetBytes x ≤ SetBytes b)) ∧
  (SetBytes a < SetBytes b →
     (between a b x = true
        ↔ SetBytes a < SetBytes x ∧ SetBytes x < SetBytes b) ∧
     (betweenRightIncl a b x = true
        ↔ SetBytes a < SetBytes x ∧ SetBytes x ≤ SetBytes b)).
Proof.
  intros Ha Hb Hx.
  pose proof (bytes_Compare_gt a b (is_id_length _ _ _ Ha Hb)) as Hab.
  pose proof (bytes_Compare_lt a x (is_id_length _ _ _ Ha Hx)) as Hax.
  pose proof (bytes_Compare_gt b x (is_id_length _ _ _ Hb Hx)) as Hbx.
  pose proof (bytes_Compare_ge b x (is_id_length _ _ _ Hb Hx)) as Hbx'.
  unfold between, betweenRightIncl.
  split; intros Hord.
  - assert (bytes_Compare a b = 1) as -> by (apply Hab; lia).
    change (1 =? 1) with true. cbv iota.
    rewrite !orb_true_iff, !Z.eqb_eq, Z.geb_le. split; lia.
  - assert (bytes_Compare a b ≠ 1) as Hne by (rewrite Hab; lia).
    apply Z.eqb_neq in Hne. rewrite Hne.
    rewrite !andb_true_iff, !Z.eqb_eq, Z.geb_le. split; lia.
Qed.

(** The wrapped interval from [0xf0] to [0x10] on an 8-bit ring, and the
    plain one from [0x10] to [0xf0]. *)
Lemma between_ring_intervals_witness :
  (between [xf0] [x10] [x05] = true
     ↔ SetBytes [x05] > SetBytes [xf0] ∨ SetBytes [x05] < SetBytes [x10])
  ∧ (betweenRightIncl [x10] [xf0] [xf0] = true
     ↔ SetBytes [x10] < SetBytes [xf0] ∧ SetBytes [xf0] ≤ SetBytes [xf0]).
Proof.
  split.
  - apply (between_ring_intervals 8 [xf0] [x10] [x05]);
      [reflexivity..|vm_compute; reflexivity].
  - apply (between_ring_intervals 8 [x10] [xf0] [xf0]);
      [reflexivity..|vm_compute; reflexivity].
Defined.

(** C9: with equal endpoints both predicates take the interval as empty:
    [between a a x] and [betweenRightIncl a a x] are false for every key
    [x], [x = a] included. *)
Theorem between_equal_endpoints_empty (a x : list byte) :
  between a a x = false ∧ betweenRightIncl a a x = false
  ∧ between a a a = false ∧ betweenRightIncl a a a = false.
Proof.
  assert (∀ y, between a a y = false ∧ betweenRightIncl a a y = false) as H.
  { intros y. unfold between, betweenRightIncl.
    rewrite bytes_Compare_refl. change (0 =? 1) with false. cbv iota.
    split; apply andb_false_iff.
    - destruct (Z.eqb_spec (bytes_Compare a y) (-1)) as [->|]; auto.
    - destruct (Z.eqb_spec (bytes_Compare a y) (-1)) as [->|]; auto. }
  destruct (H x), (H a). auto.
Qed.

(** ** powerOffset *)

(** C6: for an identifier [id] of [m/8] bytes and [0 <= k < m], the value
    of [powerOffset id k m] is [(id + 2^k) mod 2^m]; subtracting [2^k]
    modulo [2^m] from it gives back the value of [id], and that value
    written on [m/8] bytes is the slice [id] itself. *)
Theorem powerOffset_round_trip (id : list byte) (k m : Z) :
  is_id m id → 0 ≤ k < m →
  SetBytes (powerOffset id k m) = (SetBytes id + 2 ^ k) mod 2 ^ m
  ∧ (SetBytes (powerOffset id k m) - 2 ^ k) mod 2 ^ m = SetBytes id
  ∧ be_bytes (length id) ((SetBytes (powerOffset id k m) - 2 ^ k) mod 2 ^ m)
    = id.
Proof.
  intros Hid Hk. pose proof (id_below_ring id m Hid) as Hrange.
  assert (0 < 2 ^ m) as Hpos by (apply Z.pow_pos_nonneg; lia).
  assert (SetBytes (powerOffset id k m) = (SetBytes id + 2 ^ k) mod 2 ^ m)
    as Hval.
  { unfold powerOffset, Exp2.
    destruct (Z.leb_spec m 0); [lia|].
    rewrite SetBytes_Int_Bytes by (apply Z.mod_pos_bound; lia).
    destruct (Z.leb_spec k 0); [|done].
    by replace k with 0 by lia. }
  assert ((SetBytes (powerOffset id k m) - 2 ^ k) mod 2 ^ m = SetBytes id)
    as Hback.
  { rewrite Hval, Zminus_mod_idemp_l.
    replace (SetBytes id + 2 ^ k - 2 ^ k) with (SetBytes id) by ring.
    by apply Z.mod_small. }
  split_and!; [done..|].
  rewrite Hback. apply be_bytes_SetBytes.
Qed.

(** The top identifier of a 16-bit ring wraps to zero, which
    [big.Int.Bytes] writes as the empty slice. *)
Lemma powerOffset_round_trip_witness :
  SetBytes (powerOffset [xff; xff] 0 16) = (SetBytes [xff; xff] + 2 ^ 0) mod 2 ^ 16
  ∧ (SetBytes (powerOffset [xff; xff] 0 16) - 2 ^ 0) mod 2 ^ 16
    = SetBytes [xff; xff]
  ∧ be_bytes (length [xff; xff])
      ((SetBytes (powerOffset [xff; xff] 0 16) - 2 ^ 0) mod 2 ^ 16)
    = [xff; xff].
Proof.
  apply (powerOffset_round_trip [xff; xff] 0 16); [reflexivity | lia].
Defined.

Example powerOffset_wraps_to_empty : powerOffset [xff; xff] 0 16 = [].
Proof. reflexivity. Qed.

Example powerOffset_small : powerOffset [x00; x07] 3 16 = [x0f].
Proof. reflexivity. Qed.

(** ** The lock manager *)

Lemma uint_wrap_small z : 0 ≤ z < uint_modulus → uint_wrap z = z.
Proof. intros H. unfold uint_wrap. by apply Z.mod_small. Qed.

Lemma int_wrap_small z : - 2 ^ 63 ≤ z < 2 ^ 63 → int_wrap z = z.
Proof. intros H. unfold int_wrap. rewrite Z.mod_small; lia. Qed.

(** *** The timeout sweep *)

Section Sweep.
Variable t : Time.

Lemma sweepEntry_Ret acc kv wl' :
  sweepEntry t acc kv = Ret wl' →
  ∃ wl d, acc = Ret wl ∧ timeout kv.2 = Some d
          ∧ wl' = if d <=? t then delete kv.1 wl else wl.
Proof.
  unfold sweepEntry. destruct acc as [wl|]; simpl; [|done].
  destruct (timeout kv.2) as [d|]; [|done].
  replace ((d <? t) || (d =? t)) with (d <=? t) by
    (destruct (Z.ltb_spec d t), (Z.eqb_spec d t), (Z.leb_spec d t);
     simpl; lia).
  intros H. exists wl, d. split_and!; [done..|].
  destruct (d <=? t); congruence.
Qed.

Lemma sweep_fold_Ret l wl wl' :
  foldl (sweepEntry t) (Ret wl) l = Ret wl' →
  (∀ k w, (k, w) ∈ l → is_Some (timeout w))
  ∧ (∀ k w, (k, w) ∈ l → expired t w = true → wl' !! k = None)
  ∧ (∀ k, (∀ w, (k, w) ∈ l → expired t w = false) → wl' !! k = wl !! k).
Proof.
  revert wl'. induction l as [|kv l IH] using rev_ind; intros wl'.
  - simpl. intros [= <-]. split_and!; [|  |done];
      intros k w Hin; by apply elem_of_nil in Hin.
  - rewrite foldl_snoc. intros H.
    apply sweepEntry_Ret in H as (wl1 & d & Hacc & Hd & ->).
    destruct (IH _ Hacc) as (IH1 & IH2 & IH3). destruct kv as [k0 w0].
    simpl in *. split_and!.
    + intros k w [Hin|Hin]%elem_of_app; [by eapply IH1|].
      apply list_elem_of_singleton in Hin as [= -> ->]. by rewrite Hd.
    + intros k w [Hin|Hin]%elem_of_app Hexp.
      * specialize (IH2 _ _ Hin Hexp).
        destruct (d <=? t); [|done]. by apply lookup_delete_None; right.
      * apply list_elem_of_singleton in Hin as [= -> ->].
        unfold expired in Hexp. rewrite Hd in Hexp. rewrite Hexp.
        apply lookup_delete_eq.
    + intros k Hk.
      rewrite <- (IH3 k) by (intros w Hin; apply Hk, elem_of_app; auto).
      destruct (d <=? t) eqn:Hdt; [|done].
      apply lookup_delete_ne. intros <-.
      assert (expired t w0 = false) as Hf
        by (apply Hk, elem_of_app; right; by apply list_elem_of_singleton).
      unfold expired in Hf. rewrite Hd in Hf. congruence.
Qed.

Lemma sweep_fold_total l wl :
  (∀ k w, (k, w) ∈ l → is_Some (timeout w)) →
  ∃ wl', foldl (sweepEntry t) (Ret wl) l = Ret wl'.
Proof.
  induction l as [|[k0 w0] l IH] using rev_ind; intros Hl.
  - by exists wl.
  - destruct IH as [wl1 H1].
    { intros k w Hin. apply (Hl k w), elem_of_app. auto. }
    destruct (Hl k0 w0) as [d Hd].
    { apply elem_of_app. right. by apply list_elem_of_singleton. }
    rewrite foldl_snoc, H1. unfold sweepEntry. simpl. rewrite Hd.
    destruct ((d <? t) || (d =? t)); eauto.
Qed.

(** The sweep keeps exactly the locks whose deadline is after [t] and
    touches nothing else. *)
Lemma timeoutTick_Ret lm lm' :
  timeoutTick t lm = Ret lm' →
  lm' = set_WLocks lm (WLocks lm')
  ∧ ∀ k, WLocks lm' !! k =
      match WLocks lm !! k with
      | Some w => if expired t w then None else Some w
      | None => None
      end.
Proof.
  unfold timeoutTick.
  destruct (foldl _ _ _) as [wl|] eqn:Hf; simpl; [|done].
  intros [= <-]. split; [done|]. simpl.
  apply sweep_fold_Ret in Hf as (_ & H2 & H3). intros k.
  destruct (WLocks lm !! k) as [w|] eqn:Hk.
  - destruct (expired t w) eqn:He.
    + apply (H2 k w); [by apply elem_of_map_to_list|done].
    + rewrite H3, Hk; [done|].
      intros w' Hin%elem_of_map_to_list. congruence.
  - rewrite H3; [done|].
    intros w' Hin%elem_of_map_to_list. congruence.
Qed.

Lemma timeoutTick_total lm :
  lm_wf lm → ∃ lm', timeoutTick t lm = Ret lm'.
Proof.
  intros [Hw _]. unfold timeoutTick.
  destruct (sweep_fold_total (map_to_list (WLocks lm)) (WLocks lm))
    as [wl Hwl].
  { intros k w Hin%elem_of_map_to_list. eauto. }
  rewrite Hwl. simpl. eauto.
Qed.

End Sweep.

(** *** What each operation does to the log and to well-formedness *)

Lemma appendOp_log_step lm op k v tmo : log_step lm (appendOp lm op k v tmo).
Proof. right. eexists. by split_and!. Qed.

Lemma log_step_set_WLocks lm lm' wl :
  log_step lm lm' → log_step lm (set_WLocks lm' wl).
Proof. done. Qed.

Lemma log_step_ticker lm lm' :
  log_step (if TimeoutTicker lm then lm else scheduleTimeoutTicker lm) lm' →
  log_step lm lm'.
Proof. by destruct (TimeoutTicker lm). Qed.

Lemma createRLock_log lm key nodeId remoteAddr rnd :
  log_step lm (createRLock lm key nodeId remoteAddr rnd).1.
Proof.
  unfold createRLock. destruct (_ =? 0); [by left|].
  destruct (getLockID rnd) as [lockID [err|]]; by left.
Qed.

Lemma createWLock_log lm key v tmo nodeId now rnd :
  log_step lm (createWLock lm key v tmo nodeId now rnd).1.
Proof.
  unfold createWLock. apply log_step_ticker.
  set (lm1 := if TimeoutTicker lm then lm else scheduleTimeoutTicker lm).
  unfold checkWLock. destruct (WLocks lm1 !! key); [by left|].
  destruct (v <=? VersionMap_at lm1 key); [destruct (v =? 0)|];
    try (by left);
    (destruct (getLockID rnd) as [lockID [err|]]; [by left|];
     apply log_step_set_WLocks, appendOp_log_step).
Qed.

Lemma commitWLock_log lm key v nodeId r :
  commitWLock lm key v nodeId = Ret r → log_step lm r.1.1.
Proof.
  unfold commitWLock, checkWLock.
  destruct (WLocks lm !! key) as [w|]; [|by intros [= <-]; left].
  destruct (negb _); [by intros [= <-]; left|].
  set (lm2 := set_WLocks _ _).
  assert (log_step lm lm2) as Hstep.
  { right. eexists. by split_and!. }
  destruct (v =? 1); [by intros [= <-]|].
  destruct (RLocks lm2 !! key) as [rl|]; [|by intros [= <-]].
  destruct (invalidateAll _); [|done]. by intros [= <-].
Qed.

Lemma abortWLock_log lm key v nodeId :
  log_step lm (abortWLock lm key v nodeId).1.
Proof.
  unfold abortWLock, checkWLock.
  destruct (WLocks lm !! key) as [w|]; [|by left].
  destruct (negb _); [by left|].
  apply log_step_set_WLocks, appendOp_log_step.
Qed.

Lemma lmStep_log lm ev lm' : lmStep lm ev = Ret lm' → log_step lm lm'.
Proof.
  destruct ev; simpl.
  - intros [= <-]. apply createRLock_log.
  - intros [= <-]. apply createWLock_log.
  - destruct (commitWLock _ _ _ _) as [r|] eqn:E; simpl; [|done].
    intros [= <-]. by eapply commitWLock_log.
  - intros [= <-]. apply abortWLock_log.
  - intros H%timeoutTick_Ret. destruct H as [-> _]. by left.
Qed.

(** A step of the log keeps it sorted while the counter has room. *)
Lemma log_step_ok lm lm' :
  log_ok lm → log_step lm lm' → currOpNum lm + 1 < uint_modulus →
  log_ok lm' ∧ currOpNum lm ≤ currOpNum lm' ≤ currOpNum lm + 1.
Proof.
  intros (Hsorted & Hall & Hpos) Hstep Hroom.
  destruct Hstep as [[Hlog Hnum]|(e & Hlog & He & Hnum)].
  - unfold log_ok. rewrite Hlog, Hnum. split; [done|lia].
  - rewrite uint_wrap_small in He, Hnum by lia.
    unfold log_ok. rewrite Hlog, Hnum. split; [|lia]. split_and!; [| |lia].
    + apply StronglySorted_app_2; [|done|repeat constructor].
      intros x1 x2 Hx1 ->%list_elem_of_singleton.
      rewrite Forall_forall in Hall. specialize (Hall _ Hx1).
      unfold OpNum_lt. lia.
    + apply Forall_app. split.
      * eapply Forall_impl; [exact Hall|]. simpl. intros; lia.
      * repeat constructor. lia.
Qed.

Lemma invalidateAll_Ret holders calls :
  invalidateAll holders = Ret calls →
  calls = invalidationOf <$> holders
  ∧ Forall (λ kv, 2 ≤ length kv.2)%nat holders.
Proof.
  revert calls. induction holders as [|[k v] holders IH]; intros calls; simpl.
  - by intros [= <-].
  - unfold invalidateHolder. simpl.
    destruct (v !! 1%nat) as [host|] eqn:E1; [|done].
    destruct (v !! 0%nat) as [lockID|] eqn:E0; [|done]. simpl.
    destruct (invalidateAll holders) as [calls'|]; [|done]. simpl.
    intros [= <-]. destruct (IH _ eq_refl) as [-> Hall]. split.
    + unfold invalidationOf at 2. simpl. by rewrite E1, E0.
    + constructor; [|done]. simpl. apply lookup_lt_Some in E1. lia.
Qed.

Lemma invalidateAll_total holders :
  Forall (λ kv, length kv.2 = 2%nat) holders →
  invalidateAll holders = Ret (invalidationOf <$> holders).
Proof.
  induction 1 as [|[k v] holders Hlen _ IH]; [done|]. simpl in *.
  unfold invalidateHolder. simpl.
  destruct v as [|lockID [|host [|]]]; try discriminate. simpl.
  by rewrite IH.
Qed.

Lemma wf_holders lm key :
  lm_wf lm →
  Forall (λ kv, length kv.2 = 2%nat) (map_to_list (nodeSet_at lm key)).
Proof.
  intros [_ Hr]. apply Forall_forall. intros [n v] Hin%elem_of_map_to_list.
  unfold nodeSet_at in Hin. destruct (RLocks lm !! key) as [r|] eqn:E.
  - simpl. by eapply Hr.
  - by rewrite lookup_empty in Hin.
Qed.

Lemma lm_wf_ext lm lm' :
  (∀ k w, WLocks lm' !! k = Some w →
     WLocks lm !! k = Some w ∨ is_Some (timeout w)) →
  (∀ k r n v, RLocks lm' !! k = Some r → nodeSet r !! n = Some v →
     (∃ r0, RLocks lm !! k = Some r0 ∧ nodeSet r0 !! n = Some v)
     ∨ length v = 2%nat) →
  lm_wf lm → lm_wf lm'.
Proof.
  intros HW HR [Hw Hr]. split.
  - intros k w Hk. destruct (HW _ _ Hk); eauto.
  - intros k r n v Hk Hn. destruct (HR _ _ _ _ Hk Hn) as [(r0 & ? & ?)|];
      eauto.
Qed.

Lemma createRLock_wf lm key nodeId remoteAddr rnd :
  lm_wf lm → lm_wf (createRLock lm key nodeId remoteAddr rnd).1.
Proof.
  intros Hwf. unfold createRLock. destruct (_ =? 0); [done|].
  destruct (getLockID rnd) as [lockID [err|]]; [done|]. simpl.
  eapply lm_wf_ext; [| |exact Hwf]; simpl; [by left|].
  intros k r n v Hk Hn.
  destruct (decide (key = k)) as [<-|Hne].
  - rewrite lookup_insert_eq in Hk. injection Hk as <-. simpl in Hn.
    destruct (decide (nodeId = n)) as [<-|Hn'].
    + rewrite lookup_insert_eq in Hn. injection Hn as <-. by right.
    + rewrite lookup_insert_ne in Hn by done.
      destruct (RLocks lm !! key) as [r0|] eqn:E; simpl in Hn.
      * left. eauto.
      * by rewrite lookup_empty in Hn.
  - rewrite lookup_insert_ne in Hk by done. left. eauto.
Qed.

Lemma scheduleTimeoutTicker_wf lm :
  lm_wf lm → lm_wf (if TimeoutTicker lm then lm else scheduleTimeoutTicker lm).
Proof. by destruct (TimeoutTicker lm). Qed.

Lemma createWLock_wf lm key v tmo nodeId now rnd :
  lm_wf lm → lm_wf (createWLock lm key v tmo nodeId now rnd).1.
Proof.
  intros Hwf%scheduleTimeoutTicker_wf. unfold createWLock.
  set (lm1 := if TimeoutTicker lm then lm else scheduleTimeoutTicker lm) in *.
  unfold checkWLock. destruct (WLocks lm1 !! key); [done|].
  assert (∀ ver, lm_wf
    (match getLockID rnd with
     | (_, Some err) => (lm1, (EmptyString, 0, 0, Some err))
     | (lockID, None) =>
         (set_WLocks (appendOp lm1 "WRITE" key ver (Some (now + seconds tmo)))
            (<[key := {| nodeID := nodeId; LockID := lockID; version := ver;
                         timeout := Some (now + seconds tmo) |}]>
               (WLocks (appendOp lm1 "WRITE" key ver
                          (Some (now + seconds tmo))))),
          (lockID, ver, tmo, None))
     end).1) as Hgrant.
  { intros ver. destruct (getLockID rnd) as [lockID [err|]]; [done|]. simpl.
    eapply lm_wf_ext; [| |exact Hwf]; simpl; [|by left; eauto].
    intros k w Hk. destruct (decide (key = k)) as [<-|Hne].
    - rewrite lookup_insert_eq in Hk. injection Hk as <-. right. by eexists.
    - rewrite lookup_insert_ne in Hk by done. by left. }
  destruct (v <=? VersionMap_at lm1 key); [destruct (v =? 0)|];
    [apply Hgrant|done|apply Hgrant].
Qed.

Lemma delete_WLocks_wf lm lm' key :
  WLocks lm' = delete key (WLocks lm) → RLocks lm' = RLocks lm →
  lm_wf lm → lm_wf lm'.
Proof.
  intros HW HR. apply lm_wf_ext.
  - intros k w. rewrite HW. intros Hk%lookup_delete_Some. left. tauto.
  - intros k r n v. rewrite HR. left. eauto.
Qed.

Lemma abortWLock_wf lm key v nodeId :
  lm_wf lm → lm_wf (abortWLock lm key v nodeId).1.
Proof.
  intros Hwf. unfold abortWLock, checkWLock.
  destruct (WLocks lm !! key) as [w|]; [|done].
  destruct (negb _); [done|]. simpl.
  by eapply delete_WLocks_wf; [| |exact Hwf].
Qed.

Lemma timeoutTick_wf t lm lm' :
  timeoutTick t lm = Ret lm' → lm_wf lm → lm_wf lm'.
Proof.
  intros [Heq Hk]%timeoutTick_Ret. apply lm_wf_ext.
  - intros k w. rewrite Hk. destruct (WLocks lm !! k) as [w0|]; [|done].
    destruct (expired t w0); [done|]. by left.
  - intros k r n v. rewrite Heq. simpl. left. eauto.
Qed.

(** *** commitWLock *)

Lemma commitWLock_locked lm key v nodeId w :
  WLocks lm !! key = Some w → version w = v →
  commitWLock lm key v nodeId =
    let lm' :=
      set_WLocks
        (appendOp (set_VersionMap lm (<[key := v]> (VersionMap lm)))
           "COMMIT" key v None)
        (delete key (WLocks lm)) in
    if v =? 1 then Ret (lm', [], None)
    else calls ←! invalidateAll (map_to_list (nodeSet_at lm key));
         Ret (lm', calls, None).
Proof.
  intros Hw Hv. unfold commitWLock, checkWLock, nodeSet_at.
  rewrite Hw, Hv, Z.eqb_refl. simpl.
  destruct (v =? 1); [done|].
  destruct (RLocks lm !! key); [done|].
  by rewrite map_to_list_empty.
Qed.

Lemma commitWLock_Ret_inv lm key v nodeId lm' calls :
  commitWLock lm key v nodeId = Ret (lm', calls, None) →
  ∃ w, WLocks lm !! key = Some w ∧ version w = v.
Proof.
  unfold commitWLock, checkWLock.
  destruct (WLocks lm !! key) as [w|]; [|done].
  destruct (Z.eqb_spec (version w) v); [eauto|done].
Qed.

Lemma commitWLock_wf lm key v nodeId r :
  commitWLock lm key v nodeId = Ret r → lm_wf lm → lm_wf r.1.1.
Proof.
  unfold commitWLock, checkWLock. intros H Hwf.
  destruct (WLocks lm !! key) as [w|]; [|by injection H as <-].
  destruct (negb _); [by injection H as <-|].
  set (lm2 := set_WLocks _ _) in H.
  assert (lm_wf lm2) as Hwf2 by (by eapply delete_WLocks_wf; [| |exact Hwf]).
  destruct (v =? 1); [by injection H as <-|].
  destruct (RLocks lm2 !! key) as [rl|]; [|by injection H as <-].
  destruct (invalidateAll _); [|done]. by injection H as <-.
Qed.

Lemma commitWLock_total lm key v nodeId :
  lm_wf lm → ∃ r, commitWLock lm key v nodeId = Ret r.
Proof.
  intros Hwf.
  destruct (WLocks lm !! key) as [w|] eqn:Hw.
  - destruct (decide (version w = v)) as [Hv|Hv].
    + rewrite (commitWLock_locked _ _ _ _ _ Hw Hv). simpl.
      destruct (v =? 1); [eauto|].
      rewrite (invalidateAll_total _ (wf_holders lm key Hwf)). simpl. eauto.
    + unfold commitWLock, checkWLock. rewrite Hw.
      apply Z.eqb_neq in Hv. rewrite Hv. simpl. eauto.
  - unfold commitWLock, checkWLock. rewrite Hw. eauto.
Qed.

(** *** Runs *)

Lemma lmStep_wf lm ev lm' : lmStep lm ev = Ret lm' → lm_wf lm → lm_wf lm'.
Proof.
  destruct ev; simpl.
  - intros [= <-]. apply createRLock_wf.
  - intros [= <-]. apply createWLock_wf.
  - destruct (commitWLock _ _ _ _) as [r|] eqn:E; simpl; [|done].
    intros [= <-]. by eapply commitWLock_wf.
  - intros [= <-]. apply abortWLock_wf.
  - apply timeoutTick_wf.
Qed.

Lemma lmStep_total lm ev : lm_wf lm → ∃ lm', lmStep lm ev = Ret lm'.
Proof.
  intros Hwf. destruct ev; simpl; eauto.
  - destruct (commitWLock_total lm key reqVersion nodeId Hwf) as [r ->].
    simpl. eauto.
  - by apply timeoutTick_total.
Qed.

(** From a well-formed state no run panics, and the log stays in step with
    the counter for as long as the counter has room. *)
Lemma lmRun_log_ok evs : ∀ lm,
  lm_wf lm → log_ok lm →
  currOpNum lm + Z.of_nat (length evs) < uint_modulus →
  ∃ lm', lmRun lm evs = Ret lm' ∧ lm_wf lm' ∧ log_ok lm'
         ∧ currOpNum lm ≤ currOpNum lm'
                        ≤ currOpNum lm + Z.of_nat (length evs)
         ∧ ∃ new, OpsLog lm' = OpsLog lm ++ new.
Proof.
  induction evs as [|ev evs IH]; intros lm Hwf Hok Hroom.
  - exists lm. simpl. split_and!; [done..|lia|lia|].
    exists []. by rewrite app_nil_r.
  - rewrite length_cons, Nat2Z.inj_succ in Hroom.
    destruct (lmStep_total lm ev Hwf) as [lm1 Hstep].
    pose proof (lmStep_wf _ _ _ Hstep Hwf) as Hwf1.
    pose proof (lmStep_log _ _ _ Hstep) as Hlog.
    destruct (log_step_ok lm lm1 Hok Hlog) as [Hok1 Hnum1]; [lia|].
    destruct (IH lm1 Hwf1 Hok1) as (lm' & Hrun & Hwf' & Hok' & Hnum' & new & Hnew);
      [lia|].
    exists lm'. cbn [lmRun]. rewrite Hstep. cbn [obind].
    split_and!; [done..|lia| |].
    + rewrite length_cons, Nat2Z.inj_succ. lia.
    + destruct Hlog as [[Hl _]|(e & Hl & _)]; rewrite Hnew, Hl.
      * eauto.
      * exists (e :: new). by rewrite <- app_assoc.
Qed.

Lemma newLManager_wf : lm_wf newLManager.
Proof. split; intros *; simpl; by rewrite lookup_empty. Qed.

Lemma newLManager_log_ok : log_ok newLManager.
Proof. split_and!; simpl; [constructor|constructor|lia]. Qed.

(** Any state a fresh lock manager reaches is well-formed. *)
Lemma lmRun_wf evs lm lm' : lmRun lm evs = Ret lm' → lm_wf lm → lm_wf lm'.
Proof.
  revert lm. induction evs as [|ev evs IH]; intros lm; simpl.
  - by intros [= <-].
  - destruct (lmStep lm ev) as [lm1|] eqn:E; simpl; [|done].
    intros Hrun Hwf. eapply IH; [exact Hrun|]. by eapply lmStep_wf.
Qed.

(** ** The op-log *)

(** C7: within a term of a lock manager, the requests it serves (and the
    ticks of its sweeper) leave an op-log whose [OpNum]s are strictly
    increasing in append order: every operation either leaves the log alone
    or appends one entry numbered [currOpNum + 1], and a run from a state
    whose log is in step with the counter, shorter than what is left of the
    64-bit counter, returns with a strictly increasing log that extends the
    one it started from. *)
Theorem opsLog_OpNum_strictly_increasing (lm : LManager) (evs : list LMEvent) :
  lm_wf lm → log_ok lm →
  currOpNum lm + Z.of_nat (length evs) < uint_modulus →
  (∀ lm1 ev lm2, lmStep lm1 ev = Ret lm2 → log_step lm1 lm2)
  ∧ ∃ lm', lmRun lm evs = Ret lm'
           ∧ StronglySorted OpNum_lt (OpsLog lm')
           ∧ Forall (λ e, OpNum e ≤ currOpNum lm') (OpsLog lm')
           ∧ ∃ new, OpsLog lm' = OpsLog lm ++ new.
Proof.
  intros Hwf Hok Hroom. split; [apply lmStep_log|].
  destruct (lmRun_log_ok evs lm Hwf Hok Hroom)
    as (lm' & Hrun & _ & (Hsorted & Hall & _) & _ & Hnew).
  by exists lm'.
Qed.

Lemma opsLog_OpNum_strictly_increasing_witness :
  (∀ lm1 ev lm2, lmStep lm1 ev = Ret lm2 → log_step lm1 lm2)
  ∧ ∃ lm', lmRun newLManager scenarioVersionWrap = Ret lm'
           ∧ StronglySorted OpNum_lt (OpsLog lm')
           ∧ Forall (λ e, OpNum e ≤ currOpNum lm') (OpsLog lm')
           ∧ ∃ new, OpsLog lm' = OpsLog newLManager ++ new.
Proof.
  apply (opsLog_OpNum_strictly_increasing newLManager scenarioVersionWrap).
  - split; intros *; simpl; by rewrite lookup_empty.
  - split_and!; simpl; [constructor|constructor|lia].
  - vm_compute. reflexivity.
Defined.

Example scenarioVersionWrap_log :
  (λ lm, OpNum <$> OpsLog lm) <$> (match lmRun newLManager scenarioVersionWrap
                                   with Ret lm => Some lm | Panic _ => None end)
  = Some [1; 2; 3; 4; 5].
Proof. vm_compute. reflexivity. Qed.

(** ** The timeout sweep *)

(** C1, as the code has it: a sweep at instant [t] drops exactly the write
    locks whose deadline is at or before [t] and leaves the op-log, the
    operation counter, the version map and the read locks as they were; no
    record is appended for a dropped lock. *)
Theorem timeoutTick_drops_expired_only (t : Time) (lm : LManager) :
  lm_wf lm →
  ∃ lm', timeoutTick t lm = Ret lm'
    ∧ OpsLog lm' = OpsLog lm
    ∧ currOpNum lm' = currOpNum lm
    ∧ VersionMap lm' = VersionMap lm
    ∧ RLocks lm' = RLocks lm
    ∧ ∀ k, WLocks lm' !! k =
        match WLocks lm !! k with
        | Some w => if expired t w then None else Some w
        | None => None
        end.
Proof.
  intros Hwf. destruct (timeoutTick_total t lm Hwf) as [lm' Htick].
  exists lm'. split; [done|].
  apply timeoutTick_Ret in Htick as [-> Hk]. by split_and!.
Qed.

Lemma timeoutTick_drops_expired_only_witness :
  ∃ lm', timeoutTick 5000000000 heldLock = Ret lm'
    ∧ OpsLog lm' = OpsLog heldLock
    ∧ currOpNum lm' = currOpNum heldLock
    ∧ VersionMap lm' = VersionMap heldLock
    ∧ RLocks lm' = RLocks heldLock
    ∧ ∀ k, WLocks lm' !! k =
        match WLocks heldLock !! k with
        | Some w => if expired 5000000000 w then None else Some w
        | None => None
        end.
Proof.
  apply (timeoutTick_drops_expired_only 5000000000 heldLock).
  apply createWLock_wf.
  split; intros *; simpl; by rewrite lookup_empty.
Defined.

(** C1 as stated fails: N1's write lock on "a" at version 1, granted at
    instant 0 for 5 seconds, is dropped by the sweep at its deadline, and
    the op-log afterwards holds the WRITE record alone, no ABORT for "a" at
    version 1. *)
Lemma timeoutTick_appends_no_ABORT :
  ∃ w lm',
    WLocks heldLock !! "a" = Some w ∧ version w = 1
    ∧ expired 5000000000 w = true
    ∧ timeoutTick 5000000000 heldLock = Ret lm'
    ∧ WLocks lm' !! "a" = None
    ∧ ¬ ∃ e, e ∈ OpsLog lm' ∧ Op e = "ABORT" ∧ Key e = "a" ∧ Version e = 1.
Proof.
  eexists _, _.
  split; [vm_compute; reflexivity|].
  split; [reflexivity|].
  split; [reflexivity|].
  split; [vm_compute; reflexivity|].
  split; [vm_compute; reflexivity|].
  intros (e & Hin & Hop & _). vm_compute in Hin.
  apply list_elem_of_singleton in Hin. subst e. discriminate Hop.
Qed.

(** ** Committing a write lock *)

Lemma invalidationOf_pair n lockID addr :
  invalidationOf (n, [lockID; addr])
  = {| target := {| Id := String.list_byte_of_string n; Host := addr |};
       lockId := lockID |}.
Proof. reflexivity. Qed.

(** C2, as the code has it: [commitWLock] on a key that holds a write lock
    at exactly the version asked returns without error; it sets
    [VersionMap[key]] to that version, appends the COMMIT entry numbered
    [currOpNum + 1] for the key and version, deletes the write lock and
    leaves the read locks recorded.  When the version is 1 it makes no call
    on the transport; at every other version it calls [InvalidateRLock]
    once for each entry of [RLocks[key].nodeSet], on the vnode made of the
    entry's node ID and address, with the entry's LockID. *)
Theorem commitWLock_commits_and_invalidates
    (lm : LManager) (key : string) (v : Z) (nodeId : string) (w : WLockEntry) :
  lm_wf lm → WLocks lm !! key = Some w → version w = v →
  ∃ lm' calls,
    commitWLock lm key v nodeId = Ret (lm', calls, None)
    ∧ VersionMap lm' = <[key := v]> (VersionMap lm)
    ∧ currOpNum lm' = uint_wrap (currOpNum lm + 1)
    ∧ OpsLog lm' = OpsLog lm ++
        [{| OpNum := uint_wrap (currOpNum lm + 1); Op := "COMMIT";
            Key := key; Version := v; Timeout := None |}]
    ∧ WLocks lm' = delete key (WLocks lm)
    ∧ RLocks lm' = RLocks lm
    ∧ (v = 1 → calls = [])
    ∧ (v ≠ 1 → calls = invalidationOf <$> map_to_list (nodeSet_at lm key))
    ∧ (∀ n entry, nodeSet_at lm key !! n = Some entry →
         ∃ lockID addr, entry = [lockID; addr]
           ∧ invalidationOf (n, entry)
             = {| target := {| Id := String.list_byte_of_string n;
                               Host := addr |};
                  lockId := lockID |}).
Proof.
  intros Hwf Hw Hv.
  rewrite (commitWLock_locked _ _ _ nodeId _ Hw Hv). cbv zeta.
  set (lm' := set_WLocks _ _).
  assert (∀ n entry, nodeSet_at lm key !! n = Some entry →
            ∃ lockID addr, entry = [lockID; addr]
              ∧ invalidationOf (n, entry)
                = {| target := {| Id := String.list_byte_of_string n;
                                  Host := addr |};
                     lockId := lockID |}) as Hentries.
  { intros n entry Hn%elem_of_map_to_list.
    pose proof (wf_holders lm key Hwf) as Hall.
    rewrite Forall_forall in Hall. specialize (Hall _ Hn). simpl in Hall.
    destruct entry as [|lockID [|addr [|]]]; try discriminate. eauto. }
  destruct (Z.eqb_spec v 1) as [Hone|Hother].
  - exists lm', []. by split_and!.
  - rewrite (invalidateAll_total _ (wf_holders lm key Hwf)). simpl.
    eexists lm', _. by split_and!.
Qed.

(** The commit of scenario 3: version 2 of "a" while N2 holds a read
    lock. *)
Lemma commitWLock_commits_and_invalidates_witness :
  ∃ lm w, lmRun newLManager
            (scenarioWriteRead ++ [EvWLock "a" 0 5 "N3" 9 (rand20 x33)])
          = Ret lm
  ∧ WLocks lm !! "a" = Some w
  ∧ ∃ lm' calls,
    commitWLock lm "a" 2 "N3" = Ret (lm', calls, None)
    ∧ VersionMap lm' = <["a" := 2]> (VersionMap lm)
    ∧ currOpNum lm' = uint_wrap (currOpNum lm + 1)
    ∧ OpsLog lm' = OpsLog lm ++
        [{| OpNum := uint_wrap (currOpNum lm + 1); Op := "COMMIT";
            Key := "a"; Version := 2; Timeout := None |}]
    ∧ WLocks lm' = delete "a" (WLocks lm)
    ∧ RLocks lm' = RLocks lm
    ∧ (2 = 1 → calls = [])
    ∧ (2 ≠ 1 → calls = invalidationOf <$> map_to_list (nodeSet_at lm "a"))
    ∧ (∀ n entry, nodeSet_at lm "a" !! n = Some entry →
         ∃ lockID addr, entry = [lockID; addr]
           ∧ invalidationOf (n, entry)
             = {| target := {| Id := String.list_byte_of_string n;
                               Host := addr |};
                  lockId := lockID |}).
Proof.
  eexists _, _. split; [vm_compute; reflexivity|].
  split; [vm_compute; reflexivity|].
  eapply commitWLock_commits_and_invalidates.
  - apply (lmRun_wf
             (scenarioWriteRead ++ [EvWLock "a" 0 5 "N3" 9 (rand20 x33)])
             newLManager); [vm_compute; reflexivity|exact newLManager_wf].
  - vm_compute. reflexivity.
  - reflexivity.
Defined.

(** C2 as stated fails at version 0: after [scenarioVersionWrap] the key
    "a" holds a write lock at version 0, and committing it sends N2's
    invalidation although 0 is not above 1. *)
Lemma commitWLock_invalidates_at_version_0 :
  ∃ lm w lm' calls,
    lmRun newLManager scenarioVersionWrap = Ret lm
    ∧ WLocks lm !! "a" = Some w ∧ version w = 0
    ∧ commitWLock lm "a" 0 "N3" = Ret (lm', calls, None)
    ∧ calls = [ {| target := {| Id := String.list_byte_of_string "N2";
                                Host := "addr2" |};
                   lockId := hex_EncodeToString (replicate 20 x22) |} ]
    ∧ ¬ (0 > 1).
Proof.
  eexists _, _, _, _.
  split; [vm_compute; reflexivity|].
  split; [vm_compute; reflexivity|].
  split; [reflexivity|].
  split; [vm_compute; reflexivity|].
  split; [vm_compute; reflexivity|].
  lia.
Qed.

(** ** Granting a write lock *)

Lemma createWLock_free lm key v tmo nodeId now rnd :
  WLocks lm !! key = None →
  createWLock lm key v tmo nodeId now rnd =
    let lm1 := if TimeoutTicker lm then lm else scheduleTimeoutTicker lm in
    if (v <=? VersionMap_at lm key) && negb (v =? 0) then
      (lm1, (EmptyString, VersionMap_at lm key, 0,
             Some (Errorf
               "Committed version is higher than requested version" [])))
    else
      let ver := if v <=? VersionMap_at lm key
                 then uint_wrap (VersionMap_at lm key + 1) else v in
      match getLockID rnd with
      | (_, Some err) => (lm1, (EmptyString, 0, 0, Some err))
      | (lockID, None) =>
          (set_WLocks
             (appendOp lm1 "WRITE" key ver (Some (now + seconds tmo)))
             (<[key := {| nodeID := nodeId; LockID := lockID; version := ver;
                          timeout := Some (now + seconds tmo) |}]>
                (WLocks lm)),
           (lockID, ver, tmo, None))
      end.
Proof.
  intros Hfree. unfold createWLock, checkWLock, VersionMap_at.
  destruct (TimeoutTicker lm); cbv zeta; simpl; rewrite Hfree;
    destruct (Z.leb_spec v (default 0 (VersionMap lm !! key)));
    destruct (Z.eqb_spec v 0); simpl; try done;
    by destruct (getLockID rnd) as [lockID [err|]].
Qed.

(** C3, as the code has it: on a key with no write lock, a request with
    version 0 draws its lock ID from the random source.  When the
    source delivers, the request is granted at [VersionMap[key] + 1] as Go
    computes it on [uint]: the plain sum, and 0 when the committed version
    is the largest [uint]; the lock is installed with that version and the
    WRITE entry is logged.  When the source fails, the request fails with
    the error of [getLockID] and version 0, and nothing is granted.  A
    request with a non-zero version at or below [VersionMap[key]] fails
    with the committed version and the error "Committed version is higher
    than requested version", and neither the write locks nor the log
    change. *)
Theorem createWLock_version_rule
    (lm : LManager) (key : string) (tmo : Z) (nodeId : string) (now : Time) :
  WLocks lm !! key = None →
  0 ≤ VersionMap_at lm key < uint_modulus →
  (∀ lockBytes, ∃ lm' ver,
     ver = (if VersionMap_at lm key =? uint_modulus - 1 then 0
            else VersionMap_at lm key + 1)
     ∧ createWLock lm key 0 tmo nodeId now (inl lockBytes)
       = (lm', (hex_EncodeToString lockBytes, ver, tmo, None))
     ∧ WLocks lm'
       = <[key := {| nodeID := nodeId;
                     LockID := hex_EncodeToString lockBytes;
                     version := ver;
                     timeout := Some (now + seconds tmo) |}]> (WLocks lm)
     ∧ OpsLog lm' = OpsLog lm ++
         [{| OpNum := uint_wrap (currOpNum lm + 1); Op := "WRITE";
             Key := key; Version := ver;
             Timeout := Some (now + seconds tmo) |}]
     ∧ VersionMap lm' = VersionMap lm ∧ RLocks lm' = RLocks lm)
  ∧ (∀ err, ∃ lm',
       createWLock lm key 0 tmo nodeId now (inr err)
       = (lm', (EmptyString, 0, 0,
                Some (Errorf "Error while generating LockID : " [err])))
       ∧ WLocks lm' = WLocks lm ∧ OpsLog lm' = OpsLog lm
       ∧ currOpNum lm' = currOpNum lm ∧ VersionMap lm' = VersionMap lm
       ∧ RLocks lm' = RLocks lm)
  ∧ (∀ v rnd, v ≠ 0 → v ≤ VersionMap_at lm key → ∃ lm',
       createWLock lm key v tmo nodeId now rnd
       = (lm', (EmptyString, VersionMap_at lm key, 0,
                Some (Errorf
                  "Committed version is higher than requested version" [])))
       ∧ WLocks lm' = WLocks lm ∧ OpsLog lm' = OpsLog lm
       ∧ currOpNum lm' = currOpNum lm ∧ VersionMap lm' = VersionMap lm
       ∧ RLocks lm' = RLocks lm).
Proof.
  intros Hfree Hver.
  assert (uint_wrap (VersionMap_at lm key + 1)
          = (if VersionMap_at lm key =? uint_modulus - 1 then 0
             else VersionMap_at lm key + 1)) as Hnext.
  { destruct (Z.eqb_spec (VersionMap_at lm key) (uint_modulus - 1)) as [->|Hne].
    - reflexivity.
    - apply uint_wrap_small. lia. }
  split; [|split].
  - intros lockBytes. rewrite (createWLock_free _ _ _ _ _ _ _ Hfree).
    cbv zeta. change (0 =? 0) with true. rewrite andb_false_r.
    destruct (Z.leb_spec 0 (VersionMap_at lm key)); [|lia]. simpl.
    rewrite Hnext. eexists _, _. split; [reflexivity|].
    split; [reflexivity|]. by destruct (TimeoutTicker lm).
  - intros err. rewrite (createWLock_free _ _ _ _ _ _ _ Hfree).
    cbv zeta. change (0 =? 0) with true. rewrite andb_false_r. simpl.
    eexists. split; [reflexivity|]. by destruct (TimeoutTicker lm).
  - intros v rnd Hnz Hle. rewrite (createWLock_free _ _ _ _ _ _ _ Hfree).
    cbv zeta.
    apply Z.leb_le in Hle. apply Z.eqb_neq in Hnz. rewrite Hle, Hnz. simpl.
    eexists. split; [reflexivity|]. by destruct (TimeoutTicker lm).
Qed.

(** After scenario 1, where version 1 of "a" is committed: an update
    request is granted at version 2, a failing random source grants
    nothing, and N3's request for version 1 is a stale write. *)
Lemma createWLock_version_rule_witness :
  (∀ lockBytes, ∃ lm' ver,
     ver = 2
     ∧ createWLock afterWriteRead "a" 0 5 "N3" 7 (inl lockBytes)
       = (lm', (hex_EncodeToString lockBytes, ver, 5, None))
     ∧ WLocks lm' !! "a"
       = Some {| nodeID := "N3"; LockID := hex_EncodeToString lockBytes;
                 version := 2; timeout := Some (7 + seconds 5) |})
  ∧ (∃ lm', createWLock afterWriteRead "a" 0 5 "N3" 7 (inr "no entropy")
            = (lm', (EmptyString, 0, 0,
                     Some (Errorf "Error while generating LockID : "
                             ["no entropy"])))
            ∧ WLocks lm' = WLocks afterWriteRead)
  ∧ (∃ lm', createWLock afterWriteRead "a" 1 5 "N3" 7 (rand20 x33)
            = (lm', (EmptyString, 1, 0,
                     Some (Errorf
                       "Committed version is higher than requested version"
                       [])))
            ∧ WLocks lm' = WLocks afterWriteRead
            ∧ OpsLog lm' = OpsLog afterWriteRead).
Proof.
  assert (WLocks afterWriteRead !! "a" = None) as Hfree by reflexivity.
  assert (0 ≤ VersionMap_at afterWriteRead "a" < uint_modulus) as Hver
    by (vm_compute; split; [discriminate|reflexivity]).
  destruct (createWLock_version_rule afterWriteRead "a" 5 "N3" 7 Hfree Hver)
    as (Hgrant & Hrand & Hstale).
  split; [|split].
  - intros lockBytes.
    destruct (Hgrant lockBytes) as (lm' & ver & Hv & Hcall & Hw & _).
    exists lm', ver. split; [exact Hv|]. split; [exact Hcall|].
    rewrite Hw, lookup_insert_eq, Hv. reflexivity.
  - destruct (Hrand "no entropy") as (lm' & Hcall & Hw & _).
    exists lm'. by split.
  - destruct (Hstale 1 (rand20 x33)) as (lm' & Hcall & Hw & Hlog & _).
    + lia.
    + vm_compute. discriminate.
    + exists lm'. by split.
Defined.

(** C3 as stated fails twice.  After N1 has committed the largest [uint]
    as the version of "a", the key is free and an update request is
    granted at version 0, which is not [VersionMap["a"] + 1] and not above
    the committed version.  And on a fresh lock manager an update request
    whose random source fails does not succeed: it returns the error and
    no lock is installed. *)
Lemma createWLock_update_not_always_next :
  (∃ lm lm' lockID,
     lmRun newLManager
       [ EvWLock "a" (2 ^ 64 - 1) 5 "N1" 0 (rand20 x33);
         EvCommit "a" (2 ^ 64 - 1) "N1" ] = Ret lm
     ∧ WLocks lm !! "a" = None
     ∧ VersionMap_at lm "a" = 2 ^ 64 - 1
     ∧ createWLock lm "a" 0 5 "N3" 9 (rand20 x44) = (lm', (lockID, 0, 5, None))
     ∧ (version <$> WLocks lm' !! "a") = Some 0
     ∧ 0 ≠ VersionMap_at lm "a" + 1)
  ∧ (∃ lm' err,
       WLocks newLManager !! "a" = None
       ∧ createWLock newLManager "a" 0 5 "N1" 0 (inr "no entropy")
         = (lm', (EmptyString, 0, 0, Some err))
       ∧ WLocks lm' !! "a" = None).
Proof.
  split.
  - eexists _, _, _.
    split; [vm_compute; reflexivity|].
    split; [vm_compute; reflexivity|].
    split; [vm_compute; reflexivity|].
    split; [vm_compute; reflexivity|].
    split; [vm_compute; reflexivity|].
    vm_compute. discriminate.
  - eexists _, _.
    split; [reflexivity|].
    split; [vm_compute; reflexivity|].
    vm_compute. reflexivity.
Qed.

(** Scenario 2 of the specification: after N1's first write of "a" is
    committed, a request for version 1 is a stale write. *)
Example stale_write_rejected :
  ∃ lm, lmRun newLManager
          [EvWLock "a" 0 5 "N1" 0 (rand20 x11); EvCommit "a" 1 "N1"] = Ret lm
  ∧ VersionMap_at lm "a" = 1
  ∧ (createWLock lm "a" 1 5 "N3" 7 (rand20 x33)).2
    = (EmptyString, 1, 0,
       Some (Errorf "Committed version is higher than requested version" []))
  ∧ WLocks (createWLock lm "a" 1 5 "N3" 7 (rand20 x33)).1 !! "a" = None.
Proof.
  eexists. split; [vm_compute; reflexivity|].
  split_and!; vm_compute; reflexivity.
Qed.

(** ** Granting a read lock *)

Lemma filter_fst_absent {V} (l : list (string * V)) (k : string) :
  k ∉ l.*1 → filter (λ kv, kv.1 = k) l = [].
Proof.
  induction l as [|[k' v'] l IH]; [done|]. simpl.
  intros Hnot. apply not_elem_of_cons in Hnot as [Hne Hnot].
  rewrite filter_cons_False by (simpl; congruence). by apply IH.
Qed.

Lemma filter_fst_unique {V} (l : list (string * V)) (k : string) (v : V) :
  NoDup l.*1 → (k, v) ∈ l → filter (λ kv, kv.1 = k) l = [(k, v)].
Proof.
  induction l as [|[k' v'] l IH]; intros Hnd Hin.
  - by apply elem_of_nil in Hin.
  - simpl in Hnd. apply NoDup_cons in Hnd as [Hk' Hnd].
    apply elem_of_cons in Hin as [[= <- <-]|Hin].
    + rewrite filter_cons_True by done. f_equal. by apply filter_fst_absent.
    + assert (k' ≠ k) as Hne.
      { intros ->. apply Hk'. apply list_elem_of_fmap. by exists (k, v). }
      rewrite filter_cons_False by done. by apply IH.
Qed.

(** C10: a successful [createRLock] records, for the node, exactly one
    entry in [RLocks[key].nodeSet]: the LockID just generated and the
    caller's address, in place of whatever the node had there; the other
    nodes' entries and the other keys are untouched.  So the node set holds
    one read lock per node, and a LockID that was replaced is no longer
    recorded for that node. *)
Theorem createRLock_one_entry_per_node
    (lm : LManager) (key nodeId remoteAddr : string)
    (rnd : list byte + string) (lm' : LManager) (lockID : string) (ver : Z) :
  createRLock lm key nodeId remoteAddr rnd = (lm', (lockID, ver, None)) →
  (∃ lockBytes, rnd = inl lockBytes ∧ lockID = hex_EncodeToString lockBytes)
  ∧ ver = VersionMap_at lm key ∧ ver ≠ 0
  ∧ nodeSet_at lm' key
    = <[nodeId := [lockID; remoteAddr]]> (nodeSet_at lm key)
  ∧ filter (λ kv, kv.1 = nodeId) (map_to_list (nodeSet_at lm' key))
    = [(nodeId, [lockID; remoteAddr])]
  ∧ (∀ n, n ≠ nodeId → nodeSet_at lm' key !! n = nodeSet_at lm key !! n)
  ∧ (∀ old addr, old ≠ lockID →
       (nodeId, [old; addr]) ∉ map_to_list (nodeSet_at lm' key))
  ∧ (∀ k, k ≠ key → RLocks lm' !! k = RLocks lm !! k)
  ∧ lm' = set_RLocks lm (RLocks lm').
Proof.
  unfold createRLock.
  destruct (Z.eqb_spec (VersionMap_at lm key) 0) as [|Hver]; [done|].
  destruct rnd as [lockBytes|err]; [|done]. simpl.
  intros [= <- <- <-].
  assert (nodeSet_at
            (set_RLocks lm
               (<[key := {| nodeSet :=
                   <[nodeId := [hex_EncodeToString lockBytes; remoteAddr]]>
                     (nodeSet (default {| nodeSet := ∅ |} (RLocks lm !! key)))
                 |}]> (RLocks lm))) key
          = <[nodeId := [hex_EncodeToString lockBytes; remoteAddr]]>
              (nodeSet_at lm key)) as Hset.
  { unfold nodeSet_at. simpl. rewrite lookup_insert_eq.
    by destruct (RLocks lm !! key). }
  split_and!; try done.
  - eauto.
  - rewrite Hset. apply filter_fst_unique.
    + apply NoDup_fst_map_to_list.
    + apply elem_of_map_to_list, lookup_insert_eq.
  - intros n Hn. rewrite Hset. by apply lookup_insert_ne.
  - intros old addr Hold Hin%elem_of_map_to_list.
    rewrite Hset, lookup_insert_eq in Hin. congruence.
  - intros k Hk. simpl. by apply lookup_insert_ne.
Qed.

(** N2 takes a second read lock on "a": its first LockID is replaced. *)
Lemma createRLock_one_entry_per_node_witness :
  ∃ lm' lockID,
    createRLock afterWriteRead "a" "N2" "addr2" (rand20 x55)
    = (lm', (lockID, 1, None))
    ∧ nodeSet_at afterWriteRead "a" !! "N2"
      = Some [hex_EncodeToString (replicate 20 x22); "addr2"]
    ∧ lockID = hex_EncodeToString (replicate 20 x55)
    ∧ filter (λ kv, kv.1 = "N2") (map_to_list (nodeSet_at lm' "a"))
      = [("N2", [lockID; "addr2"])].
Proof.
  eexists _, _.
  split; [vm_compute; reflexivity|].
  split; [vm_compute; reflexivity|].
  split; [vm_compute; reflexivity|].
  refine (proj1 (proj2 (proj2 (proj2 (proj2
    (createRLock_one_entry_per_node afterWriteRead "a" "N2" "addr2"
       (rand20 x55) _ _ 1 _)))))).
  vm_compute. reflexivity.
Defined.

(** ** Routing *)

Lemma knownSuccessors_loop_bounds l : ∀ i acc,
  0 ≤ acc ≤ i →
  acc ≤ knownSuccessors_loop l i acc ≤ i + Z.of_nat (length l).
Proof.
  induction l as [|s l IH]; intros i acc Hacc; simpl knownSuccessors_loop.
  - simpl. lia.
  - rewrite length_cons, Nat2Z.inj_succ.
    destruct s as [s|].
    + specialize (IH (i + 1) (i + 1)). lia.
    + specialize (IH (i + 1) acc). lia.
Qed.

Lemma knownSuccessors_bounds vn :
  0 ≤ knownSuccessors vn ≤ Z.of_nat (length (successors vn)).
Proof.
  unfold knownSuccessors.
  pose proof (knownSuccessors_loop_bounds (successors vn) 0 0). lia.
Qed.

Lemma knownSuccessors_loop_snoc l x i acc :
  knownSuccessors_loop (l ++ [x]) i acc
  = match x with
    | Some _ => i + Z.of_nat (length l) + 1
    | None => knownSuccessors_loop l i acc
    end.
Proof.
  revert i acc. induction l as [|y l IH]; intros i acc; simpl.
  - destruct x; lia.
  - rewrite IH. destruct x; [|done]. lia.
Qed.

Lemma knownSuccessors_loop_spec l :
  let n := knownSuccessors_loop l 0 0 in
  0 ≤ n ≤ Z.of_nat (length l)
  ∧ (∀ i : nat, n ≤ Z.of_nat i → (i < length l)%nat → l !! i = Some None)
  ∧ (0 < n → ∃ v, l !! Z.to_nat (n - 1) = Some (Some v)).
Proof.
  induction l as [|x l IH] using rev_ind.
  - simpl. split; [lia|]. split; [|lia]. intros i _ Hi. simpl in Hi. lia.
  - cbv zeta in *. rewrite knownSuccessors_loop_snoc, length_app. simpl.
    destruct IH as (Hn & Hnil & Hlast). destruct x as [v|].
    + split; [lia|]. split.
      * intros i Hi Hlt. lia.
      * intros _. exists v.
        replace (Z.to_nat (0 + Z.of_nat (length l) + 1 - 1)) with (length l)
          by lia.
        by apply list_lookup_middle.
    + split; [lia|]. split.
      * intros i Hi Hlt. destruct (decide (i < length l)%nat) as [Hin|Hout].
        -- rewrite lookup_app_l by done. by apply Hnil.
        -- assert (i = length l) as -> by lia. by apply list_lookup_middle.
      * intros Hpos. destruct (Hlast Hpos) as [v Hv]. exists v.
        rewrite lookup_app_l; [done|]. by eapply lookup_lt_Some.
Qed.

Lemma knownSuccessors_first (vn : localVnode) (s0 : Vnode) :
  successors vn !! 0%nat = Some (Some s0) → 1 ≤ knownSuccessors vn.
Proof.
  intros Hs0. unfold knownSuccessors.
  destruct (knownSuccessors_loop_spec (successors vn)) as (_ & Hnil & _).
  destruct (Z.le_gt_cases 1 (knownSuccessors_loop (successors vn) 0 0))
    as [|Hzero]; [done|].
  rewrite (Hnil 0%nat) in Hs0; [done|lia|]. by eapply lookup_lt_Some.
Qed.

(** The entry at index [knownSuccessors] is nil or beyond the list. *)
Lemma knownSuccessors_next_nil (vn : localVnode) (s : Vnode) :
  successors vn !! Z.to_nat (knownSuccessors vn) ≠ Some (Some s).
Proof.
  unfold knownSuccessors.
  destruct (knownSuccessors_loop_spec (successors vn)) as (Hn & Hnil & _).
  intros Hs. rewrite (Hnil (Z.to_nat _)) in Hs; [done|lia|].
  by eapply lookup_lt_Some.
Qed.

(** What the fallback returns from index [i]: [remain] cut to [n]. *)
Lemma remain_cut (s : list (option Vnode)) (i : nat) (n : Z) :
  0 ≤ n →
  (remain ←! (if Z.of_nat (length (drop i s)) >? n
              then slice_to (drop i s) n else Ret (drop i s));
   Ret (copyOfVnodesList remain (Z.of_nat (length remain)), @None error))
  = Ret (take (Z.to_nat n) (drop i s), None).
Proof.
  intros Hn. unfold copyOfVnodesList, slice_to.
  destruct (Z.gtb_spec (Z.of_nat (length (drop i s))) n) as [Hgt|Hle].
  - destruct (Z.ltb_spec n 0); [lia|]. simpl.
    by rewrite Nat2Z.id, firstn_all.
  - simpl. rewrite Nat2Z.id, firstn_all. f_equal. f_equal.
    symmetry. apply take_ge. lia.
Qed.

Section RoutingFacts.

Variable transport_FindSuccessors :
  Vnode → Z → list byte → list (option Vnode) * option error.
Variable closestPreceeding : localVnode → list byte → list Vnode.

Lemma forwardToClosest_all_fail cands n key :
  (∀ c, c ∈ cands → is_Some (transport_FindSuccessors c n key).2) →
  forwardToClosest transport_FindSuccessors cands n key = None.
Proof.
  induction cands as [|c cands IH]; intros Hfail; [done|]. simpl.
  destruct (Hfail c) as [err Herr]; [by left|].
  destruct (transport_FindSuccessors c n key) as [res o]. simpl in Herr.
  subst o. apply IH. intros c' Hc'. apply Hfail. by right.
Qed.

Lemma scanSuccessors_miss vn n key : ∀ iters i,
  (∀ j, (i ≤ j < i + iters)%nat →
     ∃ sj, successors vn !! j = Some (Some sj)
           ∧ betweenRightIncl (Id (lv_Vnode vn)) (Id sj) key = false) →
  scanSuccessors vn n key i iters
  = Ret ([], Some (Errorf "Exhausted all preceeding nodes!" [])).
Proof.
  induction iters as [|iters IH]; intros i Hmiss; [done|]. simpl.
  destruct (Hmiss i) as (si & -> & ->); [lia|].
  apply IH. intros j Hj. apply Hmiss. lia.
Qed.

(** The scan passes over successors that do not cover the key. *)
Lemma scanSuccessors_skip vn n key : ∀ d iters i,
  (∀ j, (i ≤ j < i + d)%nat →
     ∃ sj, successors vn !! j = Some (Some sj)
           ∧ betweenRightIncl (Id (lv_Vnode vn)) (Id sj) key = false) →
  scanSuccessors vn n key i (d + iters)
  = scanSuccessors vn n key (i + d) iters.
Proof.
  induction d as [|d IH]; intros iters i Hmiss.
  - by rewrite Nat.add_0_r.
  - simpl. destruct (Hmiss i) as (s & -> & ->); [lia|].
    replace (i + S d)%nat with (S i + d)%nat by lia.
    apply IH. intros j Hj. apply Hmiss. lia.
Qed.

(** The scan ends in its error only after passing over every index. *)
Lemma scanSuccessors_error_inv vn n key res err : ∀ iters i,
  scanSuccessors vn n key i iters = Ret (res, Some err) →
  ∀ j, (i ≤ j < i + iters)%nat →
    ∃ sj, successors vn !! j = Some (Some sj)
          ∧ betweenRightIncl (Id (lv_Vnode vn)) (Id sj) key = false.
Proof.
  induction iters as [|iters IH]; intros i Hscan j Hj; [lia|].
  simpl in Hscan.
  destruct (successors vn !! i) as [[si|]|] eqn:Hsi; [|done..].
  destruct (betweenRightIncl (Id (lv_Vnode vn)) (Id si) key) eqn:Hcov.
  - exfalso. revert Hscan. unfold slice_to.
    destruct (Z.of_nat (length (drop i (successors vn))) >? n);
      [destruct (n <? 0)|]; simpl; congruence.
  - destruct (decide (j = i)) as [->|Hne]; [by exists si|].
    apply (IH (S i) Hscan). lia.
Qed.

(** Over vnodes only, and asked for no negative number, the scan returns. *)
Lemma scanSuccessors_total vn n key : 0 ≤ n → ∀ iters i,
  (∀ j, (i ≤ j < i + iters)%nat → ∃ sj, successors vn !! j = Some (Some sj)) →
  ∃ res, scanSuccessors vn n key i iters = Ret res.
Proof.
  intros Hn. induction iters as [|iters IH]; intros i Hsome.
  - by eexists.
  - simpl. destruct (Hsome i) as [si ->]; [lia|].
    destruct (betweenRightIncl (Id (lv_Vnode vn)) (Id si) key).
    + rewrite remain_cut by done. by eexists.
    + apply IH. intros j Hj. apply Hsome. lia.
Qed.

(** C4, as the code has it: when [successors[0]] does not cover the key
    and every forward fails, the fallback looks only at the indices [i]
    from 1 to [known - n], in increasing order, where [known] is the number
    of known successors and the difference is taken on Go's [int].  At the
    first of them whose successor covers the key it returns the [n]
    successors from [i] on (the slice expression panics when [n] is
    negative); when it first comes to a nil entry or to an index beyond
    the list it panics; and it fails with "Exhausted all preceeding
    nodes!" exactly when every index looked at holds a vnode that does not
    cover the key, whatever the successors at larger indices are.  So for
    [n >= 1] and no nil among the indices looked at the call returns the
    successors or the error, and for [n <= 0] it never ends in the error,
    because the index [known] is looked at. *)
Theorem FindSuccessors_fallback_scan
    (vn : localVnode) (n : Z) (key : list byte) (s0 : Vnode) :
  successors vn !! 0%nat = Some (Some s0) →
  betweenRightIncl (Id (lv_Vnode vn)) (Id s0) key = false →
  (∀ c, c ∈ closestPreceeding vn key →
     is_Some (transport_FindSuccessors c n key).2) →
  - 2 ^ 63 ≤ n < 2 ^ 63 → Z.of_nat (length (successors vn)) < 2 ^ 63 →
  (knownSuccessors vn - 2 ^ 63 < n →
   int_wrap (knownSuccessors vn - n) = knownSuccessors vn - n)
  ∧ (∀ i : nat,
       1 ≤ Z.of_nat i ≤ int_wrap (knownSuccessors vn - n) →
       (∀ j, (1 ≤ j < i)%nat →
          ∃ sj, successors vn !! j = Some (Some sj)
                ∧ betweenRightIncl (Id (lv_Vnode vn)) (Id sj) key = false) →
       (∀ si, successors vn !! i = Some (Some si) →
          betweenRightIncl (Id (lv_Vnode vn)) (Id si) key = true →
          (0 ≤ n →
             FindSuccessors transport_FindSuccessors closestPreceeding
               vn n key
             = Ret (take (Z.to_nat n) (drop i (successors vn)), None)
             ∧ length (take (Z.to_nat n) (drop i (successors vn)))
               = Z.to_nat n)
          ∧ (n < 0 →
             FindSuccessors transport_FindSuccessors closestPreceeding
               vn n key
             = Panic "slice bounds out of range"))
       ∧ (successors vn !! i = Some None →
          FindSuccessors transport_FindSuccessors closestPreceeding vn n key
          = Panic "nil pointer dereference")
       ∧ (successors vn !! i = None →
          FindSuccessors transport_FindSuccessors closestPreceeding vn n key
          = Panic "index out of range"))
  ∧ (FindSuccessors transport_FindSuccessors closestPreceeding vn n key
     = Ret ([], Some (Errorf "Exhausted all preceeding nodes!" []))
     ↔ ∀ j : nat, 1 ≤ Z.of_nat j ≤ int_wrap (knownSuccessors vn - n) →
         ∃ sj, successors vn !! j = Some (Some sj)
               ∧ betweenRightIncl (Id (lv_Vnode vn)) (Id sj) key = false)
  ∧ (1 ≤ n →
     (∀ j : nat, 1 ≤ Z.of_nat j ≤ knownSuccessors vn - n →
        ∃ sj, successors vn !! j = Some (Some sj)) →
     ∃ res,
       FindSuccessors transport_FindSuccessors closestPreceeding vn n key
       = Ret res)
  ∧ (n ≤ 0 → knownSuccessors vn - 2 ^ 63 < n →
     FindSuccessors transport_FindSuccessors closestPreceeding vn n key
     ≠ Ret ([], Some (Errorf "Exhausted all preceeding nodes!" []))).
Proof.
  intros Hs0 Hcover Hfail Hn Hlen.
  pose proof (knownSuccessors_bounds vn) as Hknown.
  pose proof (knownSuccessors_first vn s0 Hs0) as Hfirst.
  assert (FindSuccessors transport_FindSuccessors closestPreceeding vn n key
          = scanSuccessors vn n key 1
              (Z.to_nat (int_wrap (knownSuccessors vn - n)))) as ->.
  { unfold FindSuccessors.
    by rewrite Hs0, Hcover, (forwardToClosest_all_fail _ _ _ Hfail). }
  assert (knownSuccessors vn - 2 ^ 63 < n →
          int_wrap (knownSuccessors vn - n) = knownSuccessors vn - n)
    as Hsmall by (intros Hlow; apply int_wrap_small; lia).
  assert (scanSuccessors vn n key 1
            (Z.to_nat (int_wrap (knownSuccessors vn - n)))
          = Ret ([], Some (Errorf "Exhausted all preceeding nodes!" []))
          ↔ ∀ j : nat, 1 ≤ Z.of_nat j ≤ int_wrap (knownSuccessors vn - n) →
              ∃ sj, successors vn !! j = Some (Some sj)
                    ∧ betweenRightIncl (Id (lv_Vnode vn)) (Id sj) key = false)
    as Herr.
  { split.
    - intros Hscan j Hj.
      apply (scanSuccessors_error_inv _ _ _ _ _ _ _ Hscan). lia.
    - intros Hmiss. apply scanSuccessors_miss.
      intros j Hj. apply Hmiss. lia. }
  split; [done|]. split; [|split; [done|split]].
  - intros i Hi Hbefore.
    assert (scanSuccessors vn n key 1
              (Z.to_nat (int_wrap (knownSuccessors vn - n)))
            = scanSuccessors vn n key i
                (S (Z.to_nat (int_wrap (knownSuccessors vn - n)) - i)))
      as ->.
    { replace (Z.to_nat (int_wrap (knownSuccessors vn - n)))
        with ((i - 1)
              + S (Z.to_nat (int_wrap (knownSuccessors vn - n)) - i))%nat
        at 1 by lia.
      rewrite scanSuccessors_skip.
      - by replace (1 + (i - 1))%nat with i by lia.
      - intros j Hj. apply Hbefore. lia. }
    cbn [scanSuccessors]. split; [|split].
    + intros si -> ->. split.
      * intros Hn0. split; [by apply remain_cut|].
        rewrite Hsmall in Hi by lia.
        rewrite length_take, length_drop. lia.
      * intros Hneg. unfold slice_to.
        destruct (Z.gtb_spec (Z.of_nat (length (drop i (successors vn)))) n);
          [|lia].
        by destruct (Z.ltb_spec n 0); [|lia].
    + by intros ->.
    + by intros ->.
  - intros Hn1 Hsome. rewrite Hsmall by lia.
    apply scanSuccessors_total; [lia|].
    intros j Hj. apply Hsome. lia.
  - intros Hn0 Hlow Hscan. pose proof (proj1 Herr Hscan) as Hall.
    rewrite Hsmall in Hall by done.
    destruct (Hall (Z.to_nat (knownSuccessors vn))) as (sj & Hsj & _);
      [lia|].
    by apply knownSuccessors_next_nil in Hsj.
Qed.

End RoutingFacts.

(** Asked for one successor of [0x25] with the transport down, the vnode
    [0x10] finds it at index 1 of its three successors. *)
Lemma FindSuccessors_fallback_scan_witness :
  FindSuccessors transportDown closestFromSuccessors
    (localAt10 threeSuccessors) 1 [x25]
  = Ret ([Some (vnodeAt x30 "h3")], None).
Proof.
  destruct (FindSuccessors_fallback_scan transportDown closestFromSuccessors
              (localAt10 threeSuccessors) 1 [x25] (vnodeAt x20 "h2")
              eq_refl eq_refl) as (_ & Hscan & _).
  - intros c _. by eexists.
  - lia.
  - vm_compute. reflexivity.
  - destruct (Hscan 1%nat) as (Hhit & _).
    + vm_compute. split; discriminate.
    + intros j Hj. lia.
    + destruct (Hhit (vnodeAt x30 "h3") eq_refl eq_refl) as [Hret _].
      destruct Hret as [Hcall _]; [lia|]. exact Hcall.
Defined.

(** With the transport down, a nil entry at index 1 makes the vnode [0x10]
    panic before it reaches the successor [0x30] that covers [0x25]; and
    asked for no successor at all it looks at index 2 of a list of two and
    panics, where the key [0x50] is covered by no successor. *)
Example FindSuccessors_fallback_panics :
  FindSuccessors transportDown closestFromSuccessors
    (localAt10 [Some (vnodeAt x20 "h2"); None; Some (vnodeAt x30 "h3");
                Some (vnodeAt x40 "h4")]) 1 [x25]
  = Panic "nil pointer dereference"
  ∧ FindSuccessors transportDown closestFromSuccessors
      (localAt10 twoSuccessors) 0 [x50]
    = Panic "index out of range"
  ∧ FindSuccessors transportDown closestFromSuccessors
      (localAt10 twoSuccessors) 0 [x25]
    = Ret ([], None).
Proof. split_and!; vm_compute; reflexivity. Qed.

(** C4 as stated fails: asked for two successors of [0x25] with the
    transport down, the vnode [0x10] with the successors [0x20] and [0x30]
    fails although index 1 covers the key, because [known - n] is 0 and no
    index is looked at. *)
Lemma FindSuccessors_fallback_skips_a_match :
  successors (localAt10 twoSuccessors) !! 1%nat = Some (Some (vnodeAt x30 "h3"))
  ∧ betweenRightIncl (Id (lv_Vnode (localAt10 twoSuccessors)))
      (Id (vnodeAt x30 "h3")) [x25] = true
  ∧ betweenRightIncl (Id (lv_Vnode (localAt10 twoSuccessors)))
      (Id (vnodeAt x20 "h2")) [x25] = false
  ∧ (∀ c, c ∈ closestFromSuccessors (localAt10 twoSuccessors) [x25] →
       is_Some (transportDown c 2 [x25]).2)
  ∧ FindSuccessors transportDown closestFromSuccessors
      (localAt10 twoSuccessors) 2 [x25]
    = Ret ([], Some (Errorf "Exhausted all preceeding nodes!" [])).
Proof.
  split_and!; try reflexivity.
  intros c _. by eexists.
Qed.

(** ** Lookup *)

Lemma trimNil_snoc (s : list (option Vnode)) (x : option Vnode) :
  trimNil (length (s ++ [x])) (s ++ [x])
  = match x with
    | Some _ => Ret (s ++ [x])
    | None => trimNil (length s) s
    end.
Proof.
  rewrite length_app, Nat.add_1_r. cbn [trimNil].
  rewrite list_lookup_middle by done.
  destruct x; [done|]. by rewrite take_app_length.
Qed.

Lemma trimNil_all_nil (s : list (option Vnode)) :
  (∀ x, x ∈ s → x = None) →
  trimNil (length s) s = Panic "index out of range [-1]".
Proof.
  induction s as [|x s IH] using rev_ind; intros Hnil; [done|].
  rewrite trimNil_snoc.
  rewrite (Hnil x) by (apply elem_of_app; right; by left).
  apply IH. intros y Hy. apply Hnil, elem_of_app. by left.
Qed.

Lemma trimNil_some (s : list (option Vnode)) (v : Vnode) :
  Some v ∈ s →
  ∃ trimmed k v',
    trimNil (length s) s = Ret trimmed
    ∧ s = trimmed ++ replicate k None
    ∧ last trimmed = Some (Some v').
Proof.
  induction s as [|x s IH] using rev_ind; intros Hin.
  - by apply elem_of_nil in Hin.
  - rewrite trimNil_snoc. destruct x as [v'|].
    + exists (s ++ [Some v']), 0%nat, v'. simpl.
      by rewrite app_nil_r, last_snoc.
    + apply elem_of_app in Hin as [Hin|Hin].
      * destruct (IH Hin) as (trimmed & k & v' & Htrim & Hs & Hlast).
        exists trimmed, (S k), v'. split_and!; [done| |done].
        rewrite Hs at 1. rewrite <- app_assoc. f_equal.
        by rewrite replicate_S_end.
      * by apply list_elem_of_singleton in Hin.
Qed.

Section LookupFacts.

Variable transport_FindSuccessors :
  Vnode → Z → list byte → list (option Vnode) * option error.
Variable closestPreceeding : localVnode → list byte → list Vnode.

(** C8: [Ring.Lookup] is partial.  When [FindSuccessors] on the nearest
    vnode returns, without error, a list that is empty or all nil, the
    loop that trims the trailing nils reads [successors[-1]] and
    [Lookup] panics instead of returning an error; [Lookup] returns a
    list only when the result holds a non-nil vnode, and then it returns
    the result without its trailing nils. *)
Theorem Lookup_panics_without_a_vnode
    (r : Ring) (n : Z) (key : list byte)
    (nearest : localVnode) (succs : list (option Vnode)) :
  n ≤ NumSuccessors (config r) →
  nearestVnode r (HashFunc (config r) key) = Ret nearest →
  FindSuccessors transport_FindSuccessors closestPreceeding nearest n
    (HashFunc (config r) key) = Ret (succs, None) →
  ((∀ x, x ∈ succs → x = None) →
     Lookup transport_FindSuccessors closestPreceeding r n key
     = Panic "index out of range [-1]")
  ∧ (∀ res, Lookup transport_FindSuccessors closestPreceeding r n key
            = Ret res → ∃ v, Some v ∈ succs)
  ∧ (∀ v, Some v ∈ succs →
       ∃ trimmed k v',
         Lookup transport_FindSuccessors closestPreceeding r n key
         = Ret (trimmed, None)
         ∧ succs = trimmed ++ replicate k None
         ∧ last trimmed = Some (Some v')).
Proof.
  intros Hn Hnearest Hfind.
  assert (Lookup transport_FindSuccessors closestPreceeding r n key
          = (trimmed ←! trimNil (length succs) succs;
             Ret (trimmed, None))) as ->.
  { unfold Lookup. destruct (Z.gtb_spec n (NumSuccessors (config r))); [lia|].
    rewrite Hnearest. simpl. by rewrite Hfind. }
  split_and!.
  - intros Hnil. by rewrite (trimNil_all_nil _ Hnil).
  - intros res Hres.
    destruct (decide (Forall (λ x, x = None) succs)) as [Hall|Hsome].
    + rewrite Forall_forall in Hall.
      by rewrite (trimNil_all_nil _ Hall) in Hres.
    + apply not_Forall_Exists in Hsome; [|apply _].
      apply Exists_exists in Hsome as ([v|] & Hin & Hne);
        [eauto|exfalso; by apply Hne].
  - intros v Hin.
    destruct (trimNil_some _ _ Hin) as (trimmed & k & v' & -> & Hs & Hlast).
    exists trimmed, k, v'. by split_and!.
Qed.

End LookupFacts.

(** The remote vnodes answer the forwarded request with an empty list and
    no error: [Lookup] of [0x35] on the ring of the vnode [0x10] panics. *)
Lemma Lookup_panics_without_a_vnode_witness :
  FindSuccessors transportEmpty closestFromSuccessors
    (localAt10 twoSuccessors) 1 [x35] = Ret ([], None)
  ∧ Lookup transportEmpty closestFromSuccessors ringAt10 1 [x35]
    = Panic "index out of range [-1]".
Proof.
  split; [reflexivity|].
  refine (proj1
    (Lookup_panics_without_a_vnode transportEmpty closestFromSuccessors
       ringAt10 1 [x35] (localAt10 twoSuccessors) [] _ eq_refl eq_refl) _).
  - vm_compute. discriminate.
  - intros x Hx. by apply elem_of_nil in Hx.
Defined.

Example Lookup_trims_trailing_nils :
  Lookup transportDown closestFromSuccessors
    {| config := config ringAt10;
       vnodes := [localAt10 (twoSuccessors ++ [None; None])] |} 4 [x15]
  = Ret (twoSuccessors, None).
Proof. reflexivity. Qed.

Example Lookup_panics_on_all_nil :
  Lookup transportNils closestFromSuccessors ringAt10 1 [x35]
  = Panic "index out of range [-1]".
Proof. reflexivity. Qed.

(** * Further properties of the code *)

(** ** [bytes.Compare] as an order on slices of any length *)

Lemma byte_val_inj b c : byte_val b = byte_val c → b = c.
Proof.
  intros H. rewrite <- (byte_of_Z_val b), <- (byte_of_Z_val c). by rewrite H.
Qed.

Lemma bytes_Compare_cases a b :
  bytes_Compare a b = -1 ∨ bytes_Compare a b = 0 ∨ bytes_Compare a b = 1.
Proof.
  revert b. induction a as [|x a IH]; intros [|y b]; simpl; auto.
  destruct (byte_val x <? byte_val y); [auto|].
  destruct (byte_val y <? byte_val x); auto.
Qed.

Lemma bytes_Compare_antisym a b : bytes_Compare b a = - bytes_Compare a b.
Proof.
  revert b. induction a as [|x a IH]; intros [|y b]; simpl; try done.
  destruct (Z.ltb_spec (byte_val x) (byte_val y)),
           (Z.ltb_spec (byte_val y) (byte_val x)); try lia; auto.
Qed.

Lemma bytes_Compare_eq a b : bytes_Compare a b = 0 ↔ a = b.
Proof.
  split; [|intros ->; apply bytes_Compare_refl].
  revert b. induction a as [|x a IH]; intros [|y b]; simpl; try done.
  destruct (Z.ltb_spec (byte_val x) (byte_val y)); [done|].
  destruct (Z.ltb_spec (byte_val y) (byte_val x)); [done|].
  intros Hab. f_equal; [apply byte_val_inj; lia|by apply IH].
Qed.

Lemma bytes_Compare_trans a b c :
  bytes_Compare a b = -1 → bytes_Compare b c = -1 → bytes_Compare a c = -1.
Proof.
  revert b c. induction a as [|x a IH]; intros [|y b] [|z c]; simpl;
    try done.
  destruct (Z.ltb_spec (byte_val x) (byte_val y)),
           (Z.ltb_spec (byte_val y) (byte_val z)),
           (Z.ltb_spec (byte_val x) (byte_val z)); try done; try lia.
  all: destruct (Z.ltb_spec (byte_val y) (byte_val x)); try done; try lia.
  all: destruct (Z.ltb_spec (byte_val z) (byte_val y)); try done; try lia.
  all: destruct (Z.ltb_spec (byte_val z) (byte_val x)); try done; try lia.
  apply IH.
Qed.

Lemma bytes_Compare_gt_lt a b : bytes_Compare a b = 1 ↔ bytes_Compare b a = -1.
Proof. rewrite (bytes_Compare_antisym a b). lia. Qed.

(** ** The two ring predicates on arbitrary slices *)

(** X1: [betweenRightIncl] is [between] with the right end added: it holds
    of a key exactly when [between] does or the key is [id2] and [id2]
    differs from [id1]. *)
Theorem betweenRightIncl_adds_right_end (id1 id2 key : list byte) :
  betweenRightIncl id1 id2 key = true
  ↔ between id1 id2 key = true ∨ (key = id2 ∧ id1 ≠ id2).
Proof.
  unfold betweenRightIncl, between.
  pose proof (bytes_Compare_cases id1 id2) as Hab.
  pose proof (bytes_Compare_cases id2 key) as Hbx.
  pose proof (bytes_Compare_eq id2 key) as Hbx0.
  pose proof (bytes_Compare_eq id1 id2) as Hab0.
  destruct (Z.eqb_spec (bytes_Compare id1 id2) 1) as [Hwrap|Hplain].
  - rewrite !orb_true_iff, !Z.eqb_eq, Z.geb_le. split.
    + intros [?|?]; [tauto|].
      destruct (decide (bytes_Compare id2 key = 0)) as [H0|H0].
      * right. split; [symmetry; by apply Hbx0|]. intros E%Hab0. lia.
      * left. right. lia.
    + intros [[?|?]|[-> _]]; [tauto|lia|]. right.
      rewrite bytes_Compare_refl. lia.
  - rewrite !andb_true_iff, !Z.eqb_eq, Z.geb_le. split.
    + intros [Hax Hge].
      destruct (decide (bytes_Compare id2 key = 0)) as [H0|H0].
      * right. apply Hbx0 in H0. subst key. split; [done|].
        intros E%Hab0. lia.
      * left. split; [done|lia].
    + intros [[? ?]|[-> Hne]]; [lia|].
      rewrite bytes_Compare_refl. split; [|lia].
      destruct Hab as [?|[E%Hab0|?]]; [done|done|lia].
Qed.

(** X2: both ends are outside [between], and for two different
    identifiers every other key lies on exactly one of the two arcs:
    [between id1 id2 key] is the negation of [between id2 id1 key]. *)
Theorem between_arcs_partition (id1 id2 key : list byte) :
  between id1 id2 id1 = false
  ∧ between id1 id2 id2 = false
  ∧ (id1 ≠ id2 → key ≠ id1 → key ≠ id2 →
     between id1 id2 key = negb (between id2 id1 key)).
Proof.
  unfold between.
  pose proof (bytes_Compare_cases id1 id2) as Hab.
  pose proof (bytes_Compare_antisym id1 id2) as Hba.
  rewrite !bytes_Compare_refl. split_and!.
  - destruct (Z.eqb_spec (bytes_Compare id1 id2) 1) as [Hwrap|_]; [|done].
    simpl. apply Z.eqb_neq. lia.
  - rewrite andb_false_r.
    destruct (Z.eqb_spec (bytes_Compare id1 id2) 1) as [Hwrap|_]; [|done].
    simpl. rewrite orb_false_r. apply Z.eqb_neq. lia.
  - intros Hne Hx1 Hx2.
    pose proof (bytes_Compare_cases id1 key) as Hax.
    pose proof (bytes_Compare_cases id2 key) as Hbx.
    assert (bytes_Compare id1 id2 ≠ 0) by (by rewrite bytes_Compare_eq).
    assert (bytes_Compare id1 key ≠ 0) by (by rewrite bytes_Compare_eq).
    assert (bytes_Compare id2 key ≠ 0) by (by rewrite bytes_Compare_eq).
    destruct (Z.eqb_spec (bytes_Compare id1 id2) 1),
             (Z.eqb_spec (bytes_Compare id2 id1) 1),
             (Z.eqb_spec (bytes_Compare id1 key) (-1)),
             (Z.eqb_spec (bytes_Compare id1 key) 1),
             (Z.eqb_spec (bytes_Compare id2 key) (-1)),
             (Z.eqb_spec (bytes_Compare id2 key) 1); simpl; try done; lia.
Qed.

Lemma between_arcs_partition_witness :
  between [x10] [xf0] [x05] = negb (between [xf0] [x10] [x05]).
Proof.
  refine (proj2 (proj2 (between_arcs_partition [x10] [xf0] [x05])) _ _ _);
    discriminate.
Defined.

(** ** The length of an offset *)

Lemma length_le_bytes n z : length (le_bytes n z) = n.
Proof. revert z. induction n as [|n IH]; intros z; simpl; [done|]. by rewrite IH. Qed.

Lemma length_be_bytes n z : length (be_bytes n z) = n.
Proof. unfold be_bytes. by rewrite length_rev, length_le_bytes. Qed.

Lemma length_Int_Bytes z :
  0 < z → Z.of_nat (length (Int_Bytes z)) = Z.log2 z / 8 + 1.
Proof.
  intros Hz. unfold Int_Bytes. rewrite Z.abs_eq by lia.
  destruct (Z.eqb_spec z 0); [lia|].
  rewrite length_be_bytes.
  pose proof (Z.log2_nonneg z). pose proof (Z.div_pos (Z.log2 z) 8). lia.
Qed.

(** X3: the slice [powerOffset] returns is never longer than the
    identifier, and it is shorter exactly when the offset, as a number, is
    below [256^(m/8 - 1)]: [big.Int.Bytes] drops the leading zero bytes
    (all of them when the offset is 0). *)
Theorem powerOffset_length (id : list byte) (k m : Z) :
  is_id m id → 0 ≤ k < m →
  (length (powerOffset id k m) ≤ length id)%nat
  ∧ (length (powerOffset id k m) = length id
     ↔ 256 ^ (Z.of_nat (length id) - 1) ≤ (SetBytes id + 2 ^ k) mod 2 ^ m).
Proof.
  intros Hid Hk. unfold is_id in Hid.
  assert (0 < 2 ^ m) as Hpos by (apply Z.pow_pos_nonneg; lia).
  unfold powerOffset, Exp2.
  destruct (Z.leb_spec m 0); [lia|].
  replace (if k <=? 0 then 1 else 2 ^ k) with (2 ^ k)
    by (destruct (Z.leb_spec k 0); [by replace k with 0 by lia|done]).
  set (v := (SetBytes id + 2 ^ k) mod 2 ^ m).
  assert (0 ≤ v < 2 ^ m) as Hv by (apply Z.mod_pos_bound; lia).
  assert (0 < 256 ^ (Z.of_nat (length id) - 1)) as Hlow
    by (apply Z.pow_pos_nonneg; lia).
  destruct (decide (v = 0)) as [->|Hnz].
  - change (Int_Bytes 0) with (@nil byte). simpl. split; lia.
  - pose proof (length_Int_Bytes v ltac:(lia)) as Hlen.
    assert (Z.log2 v < m) as Hlog by (apply Z.log2_lt_pow2; lia).
    pose proof (Z.log2_nonneg v) as Hlog0.
    assert (Z.log2 v / 8 < Z.of_nat (length id)) as Hdiv
      by (apply Z.div_lt_upper_bound; lia).
    pose proof (Z.div_pos (Z.log2 v) 8 Hlog0 ltac:(lia)) as Hdiv0.
    split; [lia|].
    change 256 with (2 ^ 8). rewrite <- Z.pow_mul_r by lia.
    rewrite Z.log2_le_pow2 by lia.
    split.
    + intros Heq.
      assert (Z.log2 v / 8 = Z.of_nat (length id) - 1) as Hq by lia.
      pose proof (Z.mul_div_le (Z.log2 v) 8 ltac:(lia)). lia.
    + intros Hge.
      assert (Z.of_nat (length id) - 1 ≤ Z.log2 v / 8)
        by (apply Z.div_le_lower_bound; lia).
      lia.
Qed.

(** On a 16-bit ring the offset [0x0005 + 2^0] is the one-byte slice
    [[0x06]]. *)
Lemma powerOffset_length_witness :
  (length (powerOffset [x00; x05] 0 16) ≤ length [x00; x05])%nat
  ∧ (length (powerOffset [x00; x05] 0 16) = length [x00; x05]
     ↔ 256 ^ (Z.of_nat (length [x00; x05]) - 1)
       ≤ (SetBytes [x00; x05] + 2 ^ 0) mod 2 ^ 16).
Proof. apply (powerOffset_length [x00; x05] 0 16); [reflexivity|lia]. Defined.

(** A short offset no longer compares as a number against full-length
    identifiers: [0x0006] is below [0x0050], but its slice [[0x06]] is
    above [[0x00; 0x50]] for [bytes.Compare]. *)
Example short_offset_compares_by_prefix :
  powerOffset [x00; x05] 0 16 = [x06]
  ∧ SetBytes [x06] < SetBytes [x00; x50]
  ∧ bytes_Compare [x00; x50] [x06] = -1.
Proof. by split_and!. Qed.

(** ** Indexing and swapping *)

Lemma index_Ret {A} (s : list A) (i : Z) (x : A) :
  index s i = Ret x ↔ 0 ≤ i ∧ s !! Z.to_nat i = Some x.
Proof.
  unfold index. destruct (Z.ltb_spec i 0).
  - split; [done|lia].
  - destruct (s !! Z.to_nat i) as [y|]; split; try done.
    + intros [= ->]. done.
    + intros [_ [= ->]]. done.
    + by intros [_ ?].
Qed.

Lemma index_Panic {A} (s : list A) (i : Z) :
  (∃ why, index s i = Panic why) ↔ i < 0 ∨ Z.of_nat (length s) ≤ i.
Proof.
  unfold index. destruct (Z.ltb_spec i 0).
  - split; [lia|eauto].
  - destruct (s !! Z.to_nat i) as [y|] eqn:E.
    + apply lookup_lt_Some in E. split; [by intros [? ?]|lia].
    + apply lookup_ge_None in E. split; [lia|eauto].
Qed.

Lemma swap_at_Ret {A} (s : list A) (i j : Z) (x y : A) :
  index s i = Ret x → index s j = Ret y →
  swap_at s i j = Ret (<[Z.to_nat j := x]> (<[Z.to_nat i := y]> s)).
Proof. unfold swap_at. by intros -> ->. Qed.

Lemma swap_lookup {A} (s : list A) (a b : nat) (x y : A) :
  s !! a = Some x → s !! b = Some y →
  ∀ k, <[b := x]> (<[a := y]> s) !! k
       = if decide (k = b) then Some x
         else if decide (k = a) then Some y else s !! k.
Proof.
  intros Ha Hb k.
  pose proof (lookup_lt_Some _ _ _ Ha). pose proof (lookup_lt_Some _ _ _ Hb).
  destruct (decide (k = b)) as [->|Hkb].
  - by rewrite list_lookup_insert_eq by (by rewrite length_insert).
  - rewrite list_lookup_insert_ne by done.
    destruct (decide (k = a)) as [->|Hka].
    + by rewrite list_lookup_insert_eq.
    + by rewrite list_lookup_insert_ne.
Qed.

Lemma swap_Permutation {A} (s : list A) (a b : nat) (x y : A) :
  s !! a = Some x → s !! b = Some y →
  <[b := x]> (<[a := y]> s) ≡ₚ s.
Proof.
  intros Ha Hb.
  destruct (decide (a = b)) as [->|Hne].
  - assert (x = y) as -> by congruence.
    by rewrite list_insert_insert_eq, list_insert_id.
  - revert a b Ha Hb Hne.
    induction s as [|z s IH]; intros a b Ha Hb Hne; [done|].
    destruct a as [|a], b as [|b]; simpl in *; try done.
    + injection Ha as ->.
      rewrite (delete_Permutation s b y Hb) at 2.
      rewrite Permutation_swap. f_equiv.
      rewrite (delete_Permutation (<[b:=x]> s) b x)
        by (apply list_lookup_insert_eq; by eapply lookup_lt_Some).
      f_equiv. clear. revert b. induction s as [|w s IH]; intros [|b];
        simpl; try done. by rewrite IH.
    + injection Hb as ->.
      rewrite (delete_Permutation s a x Ha) at 2.
      rewrite Permutation_swap. f_equiv.
      rewrite (delete_Permutation (<[a:=y]> s) a y)
        by (apply list_lookup_insert_eq; by eapply lookup_lt_Some).
      f_equiv. clear. revert a. induction s as [|w s IH]; intros [|a];
        simpl; try done. by rewrite IH.
    + f_equiv. apply IH; [done|done|congruence].
Qed.

Lemma swap_at_spec {A} (s : list A) (i j : Z) (x y : A) :
  index s i = Ret x → index s j = Ret y →
  ∃ s', swap_at s i j = Ret s'
    ∧ s' ≡ₚ s ∧ length s' = length s
    ∧ index s' i = Ret y ∧ index s' j = Ret x
    ∧ (∀ k, k ≠ i → k ≠ j → index s' k = index s k)
    ∧ swap_at s' i j = Ret s.
Proof.
  intros Hi Hj. rewrite (swap_at_Ret _ _ _ _ _ Hi Hj). eexists. split; [done|].
  apply index_Ret in Hi as [Hi0 Hi]. apply index_Ret in Hj as [Hj0 Hj].
  pose proof (swap_lookup s _ _ x y Hi Hj) as Hlk.
  assert (index (<[Z.to_nat j:=x]> (<[Z.to_nat i:=y]> s)) i = Ret y) as Hi'.
  { apply index_Ret. split; [done|]. rewrite Hlk.
    destruct (decide (Z.to_nat i = Z.to_nat j)) as [E|_].
    - rewrite E in Hi. congruence.
    - by rewrite decide_True. }
  assert (index (<[Z.to_nat j:=x]> (<[Z.to_nat i:=y]> s)) j = Ret x) as Hj'.
  { apply index_Ret. split; [done|]. rewrite Hlk. by rewrite decide_True. }
  split_and!; [by apply swap_Permutation|by rewrite !length_insert|done..| |].
  - intros k Hki Hkj. unfold index. destruct (Z.ltb_spec k 0); [done|].
    rewrite Hlk.
    rewrite decide_False by lia. by rewrite decide_False by lia.
  - rewrite (swap_at_Ret _ _ _ _ _ Hi' Hj'). f_equal.
    apply list_eq. intros k.
    apply index_Ret in Hi' as [_ Hi'], Hj' as [_ Hj'].
    rewrite (swap_lookup _ _ _ y x Hi' Hj').
    destruct (decide (k = Z.to_nat j)) as [->|]; [done|].
    destruct (decide (k = Z.to_nat i)) as [->|]; [done|].
    rewrite Hlk. by rewrite !decide_False.
Qed.

(** ** IntHeap *)

(** X4: [Pop] undoes [Push]: it returns the element pushed last and leaves
    the heap as it was before the push; [Push] makes the heap one longer;
    and [Pop] returns exactly on a non-empty heap, an empty one makes it
    index [old[-1]] and panic. *)
Theorem IntHeap_Pop_undoes_Push (h : IntHeap) (x : Z) :
  IntHeap_Pop (IntHeap_Push h x) = Ret (x, h)
  ∧ IntHeap_Len (IntHeap_Push h x) = IntHeap_Len h + 1
  ∧ ((∃ r, IntHeap_Pop h = Ret r) ↔ h ≠ [])
  ∧ (∀ y h', IntHeap_Pop h = Ret (y, h') → h = IntHeap_Push h' y).
Proof.
  assert (∀ (g : IntHeap) y, IntHeap_Pop (g ++ [y]) = Ret (y, g)) as Hpop.
  { intros g y. unfold IntHeap_Pop, IntHeap_Len.
    rewrite length_app, Nat.add_1_r, Nat2Z.inj_succ.
    replace (Z.succ (Z.of_nat (length g)) - 1) with (Z.of_nat (length g))
      by lia.
    assert (index (g ++ [y]) (Z.of_nat (length g)) = Ret y) as ->.
    { apply index_Ret. split; [lia|].
      rewrite Nat2Z.id. by apply list_lookup_middle. }
    simpl. by rewrite Nat2Z.id, take_app_length. }
  split_and!.
  - apply Hpop.
  - unfold IntHeap_Push, IntHeap_Len. rewrite length_app. simpl. lia.
  - destruct h as [|z h] using rev_ind.
    + split; [|done]. intros [r Hr]. by vm_compute in Hr.
    + rewrite Hpop. split; [|eauto]. intros _. by destruct h.
  - intros y h' Hy. destruct h as [|z h _] using rev_ind.
    + by vm_compute in Hy.
    + rewrite Hpop in Hy. by injection Hy as -> ->.
Qed.

(** X5: on two indices inside the heap, [Swap] exchanges the two entries
    and leaves the others, so the heap keeps its length and its elements,
    [Less] on the two indices is reversed, and a second [Swap] restores the
    heap; an index outside the heap makes [Swap] panic. *)
Theorem IntHeap_Swap_exchanges (h : IntHeap) (i j x y : Z) :
  index h i = Ret x → index h j = Ret y →
  (∃ h', IntHeap_Swap h i j = Ret h'
     ∧ h' ≡ₚ h ∧ IntHeap_Len h' = IntHeap_Len h
     ∧ index h' i = Ret y ∧ index h' j = Ret x
     ∧ (∀ k, k ≠ i → k ≠ j → index h' k = index h k)
     ∧ IntHeap_Less h' i j = IntHeap_Less h j i
     ∧ IntHeap_Swap h' i j = Ret h)
  ∧ (∀ k, k < 0 ∨ IntHeap_Len h ≤ k →
       (∃ why, IntHeap_Swap h k j = Panic why)
       ∧ (∃ why, IntHeap_Swap h i k = Panic why)).
Proof.
  intros Hi Hj. split.
  - destruct (swap_at_spec h i j x y Hi Hj)
      as (h' & Hswap & Hperm & Hlen & Hi' & Hj' & Hrest & Hback).
    exists h'. unfold IntHeap_Swap, IntHeap_Len, IntHeap_Less.
    rewrite Hlen, Hi', Hj', Hi, Hj. by split_and!.
  - intros k Hk. apply index_Panic in Hk as [why Hk].
    unfold IntHeap_Swap, swap_at. rewrite Hk, Hi. simpl. eauto.
Qed.

Lemma IntHeap_Swap_exchanges_witness :
  (∃ h', IntHeap_Swap [5; 2; 9] 0 2 = Ret h'
     ∧ h' ≡ₚ [5; 2; 9] ∧ IntHeap_Len h' = IntHeap_Len [5; 2; 9]
     ∧ index h' 0 = Ret 9 ∧ index h' 2 = Ret 5
     ∧ (∀ k, k ≠ 0 → k ≠ 2 → index h' k = index [5; 2; 9] k)
     ∧ IntHeap_Less h' 0 2 = IntHeap_Less [5; 2; 9] 2 0
     ∧ IntHeap_Swap h' 0 2 = Ret [5; 2; 9])
  ∧ (∀ k, k < 0 ∨ IntHeap_Len [5; 2; 9] ≤ k →
       (∃ why, IntHeap_Swap [5; 2; 9] k 2 = Panic why)
       ∧ (∃ why, IntHeap_Swap [5; 2; 9] 0 k = Panic why)).
Proof. apply (IntHeap_Swap_exchanges [5; 2; 9] 0 2 5 9); reflexivity. Defined.

(** ** The ring as a sort.Interface *)

(** X6: on indices inside the ring, [Less] is a strict order on the
    vnodes' identifiers: no vnode is less than itself, two vnodes are never
    each less than the other, [Less] is transitive, and two vnodes neither
    of which is less than the other have the same identifier. *)
Theorem Ring_Less_strict_order (r : Ring) (i j k : Z) (vi vj vk : localVnode) :
  index (vnodes r) i = Ret vi → index (vnodes r) j = Ret vj →
  index (vnodes r) k = Ret vk →
  Ring_Less r i i = Ret false
  ∧ (Ring_Less r i j = Ret true → Ring_Less r j i = Ret false)
  ∧ (Ring_Less r i j = Ret true → Ring_Less r j k = Ret true →
     Ring_Less r i k = Ret true)
  ∧ (Ring_Less r i j = Ret false → Ring_Less r j i = Ret false →
     Id (lv_Vnode vi) = Id (lv_Vnode vj)).
Proof.
  intros Hi Hj Hk. unfold Ring_Less. rewrite Hi, Hj, Hk. simpl.
  pose proof (bytes_Compare_antisym (Id (lv_Vnode vi)) (Id (lv_Vnode vj)))
    as Hanti.
  pose proof (bytes_Compare_cases (Id (lv_Vnode vi)) (Id (lv_Vnode vj)))
    as Hcases.
  split_and!.
  - by rewrite bytes_Compare_refl.
  - intros [= H%Z.eqb_eq]. f_equal. apply Z.eqb_neq. lia.
  - intros [= H1%Z.eqb_eq] [= H2%Z.eqb_eq]. f_equal. apply Z.eqb_eq.
    by eapply bytes_Compare_trans.
  - intros [= H1%Z.eqb_neq] [= H2%Z.eqb_neq].
    apply bytes_Compare_eq. lia.
Qed.

Lemma Ring_Less_strict_order_witness :
  Ring_Less ringOfThree 0 0 = Ret false
  ∧ (Ring_Less ringOfThree 0 1 = Ret true → Ring_Less ringOfThree 1 0 = Ret false)
  ∧ (Ring_Less ringOfThree 0 1 = Ret true → Ring_Less ringOfThree 1 2 = Ret true →
     Ring_Less ringOfThree 0 2 = Ret true)
  ∧ (Ring_Less ringOfThree 0 1 = Ret false → Ring_Less ringOfThree 1 0 = Ret false →
     Id (lv_Vnode (localAt x10 [None; None]))
     = Id (lv_Vnode (localAt x20 [None; None]))).
Proof.
  eapply (Ring_Less_strict_order ringOfThree 0 1 2); reflexivity.
Defined.

(** X7: on two indices inside the ring, [Swap] exchanges the two vnodes
    and leaves the others and the configuration, so [Len] and the vnodes
    of the ring are kept; an index outside the ring makes it panic. *)
Theorem Ring_Swap_exchanges (r : Ring) (i j : Z) (vi vj : localVnode) :
  index (vnodes r) i = Ret vi → index (vnodes r) j = Ret vj →
  (∃ r', Ring_Swap r i j = Ret r'
     ∧ config r' = config r
     ∧ vnodes r' ≡ₚ vnodes r ∧ Ring_Len r' = Ring_Len r
     ∧ index (vnodes r') i = Ret vj ∧ index (vnodes r') j = Ret vi
     ∧ (∀ k, k ≠ i → k ≠ j → index (vnodes r') k = index (vnodes r) k))
  ∧ (∀ k, k < 0 ∨ Ring_Len r ≤ k →
       (∃ why, Ring_Swap r k j = Panic why)
       ∧ (∃ why, Ring_Swap r i k = Panic why)).
Proof.
  intros Hi Hj. split.
  - destruct (swap_at_spec (vnodes r) i j vi vj Hi Hj)
      as (vs & Hswap & Hperm & Hlen & Hi' & Hj' & Hrest & _).
    unfold Ring_Swap, Ring_Len. rewrite Hswap. simpl.
    eexists. split; [done|]. simpl. rewrite Hlen. by split_and!.
  - intros k Hk. apply index_Panic in Hk as [why Hk].
    unfold Ring_Swap, swap_at. rewrite Hk, Hi. simpl. eauto.
Qed.

Lemma Ring_Swap_exchanges_witness :
  (∃ r', Ring_Swap ringOfThree 0 2 = Ret r'
     ∧ config r' = config ringOfThree
     ∧ vnodes r' ≡ₚ vnodes ringOfThree ∧ Ring_Len r' = Ring_Len ringOfThree
     ∧ index (vnodes r') 0 = Ret (localAt x30 [None; None])
     ∧ index (vnodes r') 2 = Ret (localAt x10 [None; None])
     ∧ (∀ k, k ≠ 0 → k ≠ 2 →
          index (vnodes r') k = index (vnodes ringOfThree) k))
  ∧ (∀ k, k < 0 ∨ Ring_Len ringOfThree ≤ k →
       (∃ why, Ring_Swap ringOfThree k 2 = Panic why)
       ∧ (∃ why, Ring_Swap ringOfThree 0 k = Panic why)).
Proof. apply (Ring_Swap_exchanges ringOfThree 0 2); reflexivity. Defined.

(** ** The nearest vnode *)

Lemma find_rev_spec {A} (P : A → bool) (l : list A) :
  match find P (rev l) with
  | Some x => ∃ l1 l2, l = l1 ++ x :: l2 ∧ P x = true
                       ∧ Forall (λ y, P y = false) l2
  | None => Forall (λ y, P y = false) l
  end.
Proof.
  induction l as [|x l IH] using rev_ind; [by constructor|].
  rewrite rev_unit. simpl. destruct (P x) eqn:Hx.
  - exists l, []. by split_and!.
  - destruct (find P (rev l)) as [y|].
    + destruct IH as (l1 & l2 & -> & Hy & Hl2).
      exists l1, (l2 ++ [x]). rewrite <- app_assoc. split_and!; [done..|].
      apply Forall_app. split; [done|]. by repeat constructor.
    + apply Forall_app. split; [done|]. by repeat constructor.
Qed.

(** X8: [nearestVnode] panics on a ring without vnodes; otherwise it
    returns the last vnode of the list whose identifier is below the key,
    and the last vnode of all when no identifier is below the key.  On a
    sorted ring the vnode returned in the first case has the greatest
    identifier below the key. *)
Theorem nearestVnode_last_below (r : Ring) (key : list byte) :
  (vnodes r = [] → nearestVnode r key = Panic "index out of range [-1]")
  ∧ (vnodes r ≠ [] →
     ∃ vn, nearestVnode r key = Ret vn ∧ vn ∈ vnodes r
       ∧ ((bytes_Compare (Id (lv_Vnode vn)) key = -1
           ∧ (∃ l1 l2, vnodes r = l1 ++ vn :: l2
                ∧ Forall (λ v, bytes_Compare (Id (lv_Vnode v)) key ≠ -1) l2)
           ∧ (StronglySorted vnode_le (vnodes r) →
              ∀ v, v ∈ vnodes r →
                bytes_Compare (Id (lv_Vnode v)) key = -1 → vnode_le v vn))
          ∨ (Forall (λ v, bytes_Compare (Id (lv_Vnode v)) key ≠ -1) (vnodes r)
             ∧ last (vnodes r) = Some vn))).
Proof.
  unfold nearestVnode. split.
  - by intros ->.
  - intros Hne.
    pose proof (find_rev_spec
      (λ vn, bytes_Compare (Id (lv_Vnode vn)) key =? -1) (vnodes r)) as Hfind.
    destruct (find _ (rev (vnodes r))) as [vn|].
    + destruct Hfind as (l1 & l2 & Hl & Hvn%Z.eqb_eq & Hl2).
      assert (Forall (λ v, bytes_Compare (Id (lv_Vnode v)) key ≠ -1) l2)
        as Hl2'.
      { eapply Forall_impl; [exact Hl2|]. by intros v Hv%Z.eqb_neq. }
      exists vn. split; [done|]. split.
      { rewrite Hl. apply elem_of_app. right. by left. }
      left. split; [done|]. split; [by exists l1, l2|].
      intros Hsorted v Hv Hbelow. rewrite Hl in Hv, Hsorted.
      apply elem_of_app in Hv as [Hv|Hv].
      * eapply StronglySorted_app_1_elem_of; [exact Hsorted|done|by left].
      * apply elem_of_cons in Hv as [->|Hv].
        -- unfold vnode_le. by rewrite bytes_Compare_refl.
        -- rewrite Forall_forall in Hl2'. by destruct (Hl2' v Hv).
    + destruct (last (vnodes r)) as [vn|] eqn:Hlast.
      * exists vn. split; [done|]. split.
        { apply last_Some in Hlast as [l' ->]. apply elem_of_app. right.
          by left. }
        right. split; [|done].
        eapply Forall_impl; [exact Hfind|]. by intros v Hv%Z.eqb_neq.
      * by apply last_None in Hlast.
Qed.

Lemma nearestVnodeToKey_loop_spec (key : list byte) (l : list (option Vnode)) :
  Forall is_Some l →
  match nearestVnodeToKey_loop (rev l) key with
  | Ret (Some vn) =>
      bytes_Compare (Id vn) key = -1
      ∧ ∃ l1 l2, l = l1 ++ Some vn :: l2 ∧ none_below key l2
  | Ret None => none_below key l
  | Panic _ => False
  end.
Proof.
  induction l as [|x l IH] using rev_ind; intros Hall; [by constructor|].
  apply Forall_app in Hall as [Hl Hx]. apply Forall_singleton in Hx as [v ->].
  rewrite rev_unit. simpl.
  destruct (Z.eqb_spec (bytes_Compare (Id v) key) (-1)) as [Hv|Hv].
  - split; [done|]. exists l, []. split; [done|]. constructor.
  - specialize (IH Hl).
    assert (none_below key [Some v]) as Hone.
    { repeat constructor. by intros w [= <-]. }
    destruct (nearestVnodeToKey_loop (rev l) key) as [[vn|]|]; [| |done].
    + destruct IH as (Hvn & l1 & l2 & -> & Hl2). split; [done|].
      exists l1, (l2 ++ [Some v]). rewrite <- app_assoc. split; [done|].
      by apply Forall_app.
    + by apply Forall_app.
Qed.

(** X9: on a non-empty list without nil entries [nearestVnodeToKey]
    returns a vnode of the list: the last one whose identifier is below
    the key, or the last of all when none is below.  On the empty list it
    panics. *)
Theorem nearestVnodeToKey_last_below
    (vnodes_ : list (option Vnode)) (key : list byte) :
  Forall is_Some vnodes_ → vnodes_ ≠ [] →
  nearestVnodeToKey [] key = Panic "index out of range [-1]"
  ∧ ∃ vn, nearestVnodeToKey vnodes_ key = Ret (Some vn)
      ∧ Some vn ∈ vnodes_
      ∧ ((bytes_Compare (Id vn) key = -1
          ∧ ∃ l1 l2, vnodes_ = l1 ++ Some vn :: l2 ∧ none_below key l2)
         ∨ (none_below key vnodes_ ∧ last vnodes_ = Some (Some vn))).
Proof.
  intros Hall Hne. split; [done|]. unfold nearestVnodeToKey.
  pose proof (nearestVnodeToKey_loop_spec key vnodes_ Hall) as Hloop.
  destruct (nearestVnodeToKey_loop (rev vnodes_) key) as [[vn|]|]; [| |done];
    simpl.
  - destruct Hloop as (Hvn & l1 & l2 & Hl & Hl2).
    exists vn. split; [done|]. split.
    { rewrite Hl. apply elem_of_app. right. by left. }
    left. split; [done|]. by exists l1, l2.
  - destruct (last vnodes_) as [x|] eqn:Hlast; [|by apply last_None in Hlast].
    pose proof Hlast as Hlast'.
    apply last_Some in Hlast' as [l' ->].
    apply Forall_app in Hall as [_ Hx].
    apply Forall_singleton in Hx as [vn ->].
    exists vn. split; [done|]. split.
    { apply elem_of_app. right. by left. }
    right. by split.
Qed.

Lemma nearestVnodeToKey_last_below_witness :
  nearestVnodeToKey [] [x25] = Panic "index out of range [-1]"
  ∧ ∃ vn, nearestVnodeToKey threeSuccessors [x35] = Ret (Some vn)
      ∧ Some vn ∈ threeSuccessors
      ∧ ((bytes_Compare (Id vn) [x35] = -1
          ∧ ∃ l1 l2, threeSuccessors = l1 ++ Some vn :: l2
                     ∧ none_below [x35] l2)
         ∨ (none_below [x35] threeSuccessors
            ∧ last threeSuccessors = Some (Some vn))).
Proof.
  apply (nearestVnodeToKey_last_below threeSuccessors [x35]).
  - repeat constructor; by eexists.
  - discriminate.
Defined.

Example nearestVnodeToKey_picks_0x30 :
  nearestVnodeToKey threeSuccessors [x35] = Ret (Some (vnodeAt x30 "h3")).
Proof. reflexivity. Qed.

(** ** The lock manager: refusals *)

Lemma createWLock_held lm key v tmo nodeId now rnd w :
  WLocks lm !! key = Some w →
  createWLock lm key v tmo nodeId now rnd
  = (if TimeoutTicker lm then lm else scheduleTimeoutTicker lm,
     (EmptyString, version w, 0,
      Some (Errorf "WriteLock not possible. Key is currently being updated"
              []))).
Proof.
  intros Hw. unfold createWLock, checkWLock, WLocks_version.
  by destruct (TimeoutTicker lm); simpl; rewrite Hw.
Qed.

(** X10: a key holds at most one write lock: [createWLock] on a key whose
    write lock is held fails with the version that is locked, whatever
    version is asked, and leaves the lock, the version map, the read locks
    and the log as they are. *)
Theorem createWLock_refused_while_held
    (lm : LManager) (key : string) (v tmo : Z) (nodeId : string) (now : Time)
    (rnd : list byte + string) (w : WLockEntry) :
  WLocks lm !! key = Some w →
  ∃ lm', createWLock lm key v tmo nodeId now rnd
         = (lm', (EmptyString, version w, 0,
                  Some (Errorf
                    "WriteLock not possible. Key is currently being updated"
                    [])))
    ∧ WLocks lm' = WLocks lm ∧ VersionMap lm' = VersionMap lm
    ∧ RLocks lm' = RLocks lm ∧ OpsLog lm' = OpsLog lm
    ∧ currOpNum lm' = currOpNum lm.
Proof.
  intros Hw. rewrite (createWLock_held _ _ _ _ _ _ _ _ Hw).
  eexists. split; [done|]. by destruct (TimeoutTicker lm).
Qed.

Lemma createWLock_refused_while_held_witness :
  ∃ lm', createWLock heldLock "a" 7 5 "N2" 1 (rand20 x22)
         = (lm', (EmptyString, 1, 0,
                  Some (Errorf
                    "WriteLock not possible. Key is currently being updated"
                    [])))
    ∧ WLocks lm' = WLocks heldLock ∧ VersionMap lm' = VersionMap heldLock
    ∧ RLocks lm' = RLocks heldLock ∧ OpsLog lm' = OpsLog heldLock
    ∧ currOpNum lm' = currOpNum heldLock.
Proof.
  refine (createWLock_refused_while_held heldLock "a" 7 5 "N2" 1 (rand20 x22)
            {| nodeID := "N1"; LockID := hex_EncodeToString (replicate 20 x11);
               version := 1; timeout := Some (0 + seconds 5) |} _).
  vm_compute. reflexivity.
Defined.

(** X11: [createRLock] fails on a key that was never committed
    ([VersionMap[key]] is 0 or absent) and when the random source fails; a
    failing call returns the empty LockID and version 0 and changes
    nothing, and no call, failing or not, touches the version map, the
    write locks or the log. *)
Theorem createRLock_refusals
    (lm : LManager) (key nodeId remoteAddr : string) :
  (VersionMap_at lm key = 0 → ∀ rnd,
     createRLock lm key nodeId remoteAddr rnd
     = (lm, (EmptyString, 0,
             Some (Errorf "ReadLock not possible. Key not present in LM" []))))
  ∧ (∀ rnd lm' lockID ver err,
       createRLock lm key nodeId remoteAddr rnd = (lm', (lockID, ver, Some err))
       → lm' = lm ∧ lockID = EmptyString ∧ ver = 0
         ∧ (VersionMap_at lm key = 0 ∨ ∃ e, rnd = inr e))
  ∧ (∀ rnd, VersionMap (createRLock lm key nodeId remoteAddr rnd).1
            = VersionMap lm
          ∧ WLocks (createRLock lm key nodeId remoteAddr rnd).1 = WLocks lm
          ∧ OpsLog (createRLock lm key nodeId remoteAddr rnd).1 = OpsLog lm
          ∧ currOpNum (createRLock lm key nodeId remoteAddr rnd).1
            = currOpNum lm).
Proof.
  unfold createRLock. split_and!.
  - intros -> rnd. done.
  - intros rnd lm' lockID ver err.
    destruct (Z.eqb_spec (VersionMap_at lm key) 0) as [Hz|Hnz].
    + intros [= <- <- <- _]. auto.
    + destruct rnd as [bs|e]; simpl; [done|].
      intros [= <- <- <- _]. split_and!; eauto.
  - intros rnd. destruct (VersionMap_at lm key =? 0); [done|].
    by destruct rnd.
Qed.

(** X12: [commitWLock] and [abortWLock] refuse a key without a write lock
    and a version other than the one locked: each returns its error, makes
    no call on the transport and changes nothing. *)
Theorem commit_and_abort_refusals
    (lm : LManager) (key : string) (v : Z) (nodeId : string) :
  (WLocks lm !! key = None →
     commitWLock lm key v nodeId
     = Ret (lm, [], Some (Errorf "Lock not available. Cannot commit" []))
     ∧ abortWLock lm key v nodeId
       = (lm, Some (Errorf "Lock not available. Nothing to abort" [])))
  ∧ (∀ w, WLocks lm !! key = Some w → version w ≠ v →
     commitWLock lm key v nodeId
     = Ret (lm, [], Some (Errorf
         "Requested version doesn't match with the version locked. Cannot commit"
         []))
     ∧ abortWLock lm key v nodeId
       = (lm, Some (Errorf
           "Requested version doesn't match with the version locked. Cannot abort"
           []))).
Proof.
  unfold commitWLock, abortWLock, checkWLock. split.
  - by intros ->.
  - intros w -> Hv%Z.eqb_neq. by rewrite Hv.
Qed.

Lemma abortWLock_locked lm key v nodeId w :
  WLocks lm !! key = Some w → version w = v →
  abortWLock lm key v nodeId
  = (set_WLocks (appendOp lm "ABORT" key v None) (delete key (WLocks lm)),
     None).
Proof.
  intros Hw Hv. unfold abortWLock, checkWLock.
  by rewrite Hw, Hv, Z.eqb_refl.
Qed.

(** X13: [abortWLock] on a key that holds a write lock at exactly the
    version asked returns without error, deletes the lock and appends the
    ABORT entry numbered [currOpNum + 1] for the key and version; the
    version map and the read locks stay as they are, so the committed
    version of the key is the one from before the write lock. *)
Theorem abortWLock_releases
    (lm : LManager) (key : string) (v : Z) (nodeId : string) (w : WLockEntry) :
  WLocks lm !! key = Some w → version w = v →
  ∃ lm', abortWLock lm key v nodeId = (lm', None)
    ∧ WLocks lm' = delete key (WLocks lm)
    ∧ checkWLock lm' key = (false, 0, None)
    ∧ VersionMap lm' = VersionMap lm
    ∧ RLocks lm' = RLocks lm
    ∧ currOpNum lm' = uint_wrap (currOpNum lm + 1)
    ∧ OpsLog lm' = OpsLog lm ++
        [{| OpNum := uint_wrap (currOpNum lm + 1); Op := "ABORT";
            Key := key; Version := v; Timeout := None |}].
Proof.
  intros Hw Hv. rewrite (abortWLock_locked _ _ _ _ _ Hw Hv).
  eexists. split; [done|]. split_and!; try done.
  unfold checkWLock. simpl. by rewrite lookup_delete_eq.
Qed.

Lemma abortWLock_releases_witness :
  ∃ lm', abortWLock heldLock "a" 1 "N1" = (lm', None)
    ∧ WLocks lm' = delete "a" (WLocks heldLock)
    ∧ checkWLock lm' "a" = (false, 0, None)
    ∧ VersionMap lm' = VersionMap heldLock
    ∧ RLocks lm' = RLocks heldLock
    ∧ currOpNum lm' = uint_wrap (currOpNum heldLock + 1)
    ∧ OpsLog lm' = OpsLog heldLock ++
        [{| OpNum := uint_wrap (currOpNum heldLock + 1); Op := "ABORT";
            Key := "a"; Version := 1; Timeout := None |}].
Proof.
  refine (abortWLock_releases heldLock "a" 1 "N1"
            {| nodeID := "N1"; LockID := hex_EncodeToString (replicate 20 x11);
               version := 1; timeout := Some (0 + seconds 5) |} _ _).
  - vm_compute. reflexivity.
  - reflexivity.
Defined.

(** ** The lock manager: how the operations compose *)

(** What a granted write lock says about the call that granted it. *)
Lemma createWLock_granted lm key v tmo nodeId now rnd lm1 lockID ver tmo' :
  createWLock lm key v tmo nodeId now rnd = (lm1, (lockID, ver, tmo', None)) →
  WLocks lm !! key = None
  ∧ (∃ lockBytes, rnd = inl lockBytes
                  ∧ lockID = hex_EncodeToString lockBytes)
  ∧ tmo' = tmo
  ∧ ver = (if v <=? VersionMap_at lm key
           then uint_wrap (VersionMap_at lm key + 1) else v)
  ∧ (v ≤ VersionMap_at lm key → v = 0)
  ∧ lm1 = set_WLocks
            (appendOp (if TimeoutTicker lm then lm
                       else scheduleTimeoutTicker lm)
               "WRITE" key ver (Some (now + seconds tmo)))
            (<[key := {| nodeID := nodeId; LockID := lockID; version := ver;
                         timeout := Some (now + seconds tmo) |}]>
               (WLocks lm)).
Proof.
  destruct (WLocks lm !! key) as [w|] eqn:Hw.
  { by rewrite (createWLock_held _ _ _ _ _ _ _ _ Hw). }
  rewrite (createWLock_free _ _ _ _ _ _ _ Hw). cbv zeta.
  destruct (Z.leb_spec v (VersionMap_at lm key)) as [Hle|Hgt];
    destruct (Z.eqb_spec v 0) as [Hz|Hnz]; simpl; try done;
    (destruct rnd as [bs|e]; simpl; [|done]);
    intros [= <- <- <- <-]; split_and!; eauto; lia.
Qed.

(** X14: a write cycle raises the committed version.  On a key without
    write lock whose committed version is below the largest [uint],
    [createWLock] with version 0 or with a version above the committed one
    grants a lock at a version strictly above [VersionMap[key]];
    [checkWLock] then reports that version; [commitWLock] at that version
    succeeds, makes it the committed version and frees the key; the log has
    gained the WRITE and the COMMIT entry; and a read lock taken afterwards
    reports the new version. *)
Theorem write_cycle_raises_version
    (lm : LManager) (key : string) (v tmo : Z) (nodeId : string) (now : Time)
    (lockBytes : list byte) :
  lm_wf lm → WLocks lm !! key = None →
  0 ≤ VersionMap_at lm key < uint_modulus - 1 →
  v = 0 ∨ VersionMap_at lm key < v →
  ∃ lm1 ver lm2 calls,
    createWLock lm key v tmo nodeId now (inl lockBytes)
    = (lm1, (hex_EncodeToString lockBytes, ver, tmo, None))
    ∧ VersionMap_at lm key < ver
    ∧ ver = (if v =? 0 then VersionMap_at lm key + 1 else v)
    ∧ checkWLock lm1 key = (true, ver, None)
    ∧ commitWLock lm1 key ver nodeId = Ret (lm2, calls, None)
    ∧ VersionMap_at lm2 key = ver
    ∧ checkWLock lm2 key = (false, 0, None)
    ∧ OpsLog lm2 = OpsLog lm ++
        [{| OpNum := uint_wrap (currOpNum lm + 1); Op := "WRITE";
            Key := key; Version := ver;
            Timeout := Some (now + seconds tmo) |};
         {| OpNum := uint_wrap (uint_wrap (currOpNum lm + 1) + 1);
            Op := "COMMIT"; Key := key; Version := ver; Timeout := None |}]
    ∧ ∀ reader addr readBytes,
        (createRLock lm2 key reader addr (inl readBytes)).2
        = (hex_EncodeToString readBytes, ver, None).
Proof.
  intros Hwf Hfree Hvm Hv.
  set (ver := if v =? 0 then VersionMap_at lm key + 1 else v).
  assert (VersionMap_at lm key < ver) as Hup.
  { unfold ver. destruct (Z.eqb_spec v 0); lia. }
  assert ((v <=? VersionMap_at lm key) && negb (v =? 0) = false) as Hok.
  { destruct (Z.leb_spec v (VersionMap_at lm key)), (Z.eqb_spec v 0);
      simpl; try done; lia. }
  assert ((if v <=? VersionMap_at lm key
           then uint_wrap (VersionMap_at lm key + 1) else v) = ver) as Hver.
  { unfold ver. destruct (Z.leb_spec v (VersionMap_at lm key)),
      (Z.eqb_spec v 0); try lia.
    apply uint_wrap_small. lia. }
  pose proof (createWLock_wf lm key v tmo nodeId now (inl lockBytes) Hwf)
    as Hwf1.
  rewrite (createWLock_free _ _ _ _ _ _ _ Hfree) in Hwf1 |- *.
  cbv zeta in Hwf1 |- *. rewrite Hok, Hver in Hwf1 |- *.
  simpl getLockID in Hwf1 |- *. cbv iota beta in Hwf1 |- *.
  set (lm0 := if TimeoutTicker lm then lm else scheduleTimeoutTicker lm)
    in *.
  set (w := {| nodeID := nodeId; LockID := hex_EncodeToString lockBytes;
               version := ver; timeout := Some (now + seconds tmo) |}) in *.
  set (lm1 := set_WLocks _ _) in *. simpl in Hwf1.
  assert (WLocks lm1 !! key = Some w) as Hheld
    by (simpl; apply lookup_insert_eq).
  assert (OpsLog lm0 = OpsLog lm ∧ currOpNum lm0 = currOpNum lm
          ∧ VersionMap lm0 = VersionMap lm) as (Hlog0 & Hnum0 & Hvm0)
    by (unfold lm0; by destruct (TimeoutTicker lm)).
  set (lm2 := set_WLocks
                (appendOp (set_VersionMap lm1 (<[key := ver]> (VersionMap lm1)))
                   "COMMIT" key ver None)
                (delete key (WLocks lm1))).
  assert (∃ calls, commitWLock lm1 key ver nodeId = Ret (lm2, calls, None))
    as [calls Hcommit].
  { rewrite (commitWLock_locked lm1 key ver nodeId w Hheld eq_refl).
    cbv zeta. fold lm2. destruct (ver =? 1); [by eexists|].
    rewrite (invalidateAll_total _ (wf_holders lm1 key Hwf1)). by eexists. }
  assert (VersionMap_at lm2 key = ver) as Hnew
    by (unfold VersionMap_at; simpl; by rewrite lookup_insert_eq).
  exists lm1, ver, lm2, calls. split_and!; try done.
  - unfold checkWLock. by rewrite Hheld.
  - unfold checkWLock. simpl. by rewrite lookup_delete_eq.
  - simpl. rewrite Hlog0, Hnum0, <- app_assoc. done.
  - intros reader addr readBytes. unfold createRLock.
    rewrite Hnew. destruct (Z.eqb_spec ver 0); [lia|]. simpl.
    f_equal. f_equal. unfold VersionMap_at. simpl.
    by rewrite lookup_insert_eq.
Qed.

Lemma write_cycle_raises_version_witness :
  ∃ lm1 ver lm2 calls,
    createWLock afterWriteRead "a" 0 5 "N3" 9 (inl (replicate 20 x33))
    = (lm1, (hex_EncodeToString (replicate 20 x33), ver, 5, None))
    ∧ VersionMap_at afterWriteRead "a" < ver
    ∧ ver = (if 0 =? 0 then VersionMap_at afterWriteRead "a" + 1 else 0)
    ∧ checkWLock lm1 "a" = (true, ver, None)
    ∧ commitWLock lm1 "a" ver "N3" = Ret (lm2, calls, None)
    ∧ VersionMap_at lm2 "a" = ver
    ∧ checkWLock lm2 "a" = (false, 0, None)
    ∧ OpsLog lm2 = OpsLog afterWriteRead ++
        [{| OpNum := uint_wrap (currOpNum afterWriteRead + 1); Op := "WRITE";
            Key := "a"; Version := ver;
            Timeout := Some (9 + seconds 5) |};
         {| OpNum := uint_wrap (uint_wrap (currOpNum afterWriteRead + 1) + 1);
            Op := "COMMIT"; Key := "a"; Version := ver; Timeout := None |}]
    ∧ ∀ reader addr readBytes,
        (createRLock lm2 "a" reader addr (inl readBytes)).2
        = (hex_EncodeToString readBytes, ver, None).
Proof.
  apply (write_cycle_raises_version afterWriteRead "a" 0 5 "N3" 9
           (replicate 20 x33)).
  - apply (lmRun_wf scenarioWriteRead newLManager);
      [vm_compute; reflexivity|exact newLManager_wf].
  - vm_compute. reflexivity.
  - vm_compute. split; [discriminate|reflexivity].
  - by left.
Defined.

(** X15: aborting a write lock that was just granted gives back the state
    from before the grant, the log apart: the write locks, the version map
    and the read locks are as they were, and the log has gained the WRITE
    and the ABORT entry for the version that was locked. *)
Theorem write_then_abort_restores
    (lm : LManager) (key : string) (v tmo : Z) (nodeId : string) (now : Time)
    (rnd : list byte + string) (lm1 : LManager) (lockID : string)
    (ver tmo' : Z) :
  createWLock lm key v tmo nodeId now rnd = (lm1, (lockID, ver, tmo', None)) →
  ∃ lm2, abortWLock lm1 key ver nodeId = (lm2, None)
    ∧ WLocks lm2 = WLocks lm
    ∧ VersionMap lm2 = VersionMap lm
    ∧ RLocks lm2 = RLocks lm
    ∧ OpsLog lm2 = OpsLog lm ++
        [{| OpNum := uint_wrap (currOpNum lm + 1); Op := "WRITE";
            Key := key; Version := ver;
            Timeout := Some (now + seconds tmo) |};
         {| OpNum := uint_wrap (uint_wrap (currOpNum lm + 1) + 1);
            Op := "ABORT"; Key := key; Version := ver; Timeout := None |}].
Proof.
  intros (Hfree & _ & _ & _ & _ & ->)%createWLock_granted.
  erewrite abortWLock_locked; [|simpl; apply lookup_insert_eq|done].
  eexists. split; [done|]. simpl.
  rewrite (delete_insert_id _ _ _ Hfree), <- app_assoc.
  by destruct (TimeoutTicker lm).
Qed.

Lemma write_then_abort_restores_witness :
  ∃ lm2, abortWLock heldLock "a" 1 "N1" = (lm2, None)
    ∧ WLocks lm2 = WLocks newLManager
    ∧ VersionMap lm2 = VersionMap newLManager
    ∧ RLocks lm2 = RLocks newLManager
    ∧ OpsLog lm2 = OpsLog newLManager ++
        [{| OpNum := uint_wrap (currOpNum newLManager + 1); Op := "WRITE";
            Key := "a"; Version := 1;
            Timeout := Some (0 + seconds 5) |};
         {| OpNum := uint_wrap (uint_wrap (currOpNum newLManager + 1) + 1);
            Op := "ABORT"; Key := "a"; Version := 1; Timeout := None |}].
Proof.
  refine (write_then_abort_restores newLManager "a" 0 5 "N1" 0 (rand20 x11)
            heldLock (hex_EncodeToString (replicate 20 x11)) 1 5 _).
  vm_compute. reflexivity.
Defined.

(** ** The lock manager: deadlines *)

Lemma seconds_in_range tmo :
  0 ≤ tmo ≤ 9223372036 → seconds tmo = tmo * 1000000000.
Proof.
  intros H. unfold seconds. rewrite (int_wrap_small tmo) by lia.
  apply int_wrap_small. lia.
Qed.

Lemma seconds_overflow tmo :
  9223372037 ≤ tmo ≤ 18446744073 →
  seconds tmo = tmo * 1000000000 - 2 ^ 64 ∧ seconds tmo < 0.
Proof.
  intros H. unfold seconds. rewrite (int_wrap_small tmo) by lia.
  unfold int_wrap.
  replace (tmo * 1000000000 + 2 ^ 63)
    with (tmo * 1000000000 - 2 ^ 63 + 1 * 2 ^ 64) by lia.
  rewrite Z.mod_add by lia. rewrite Z.mod_small by lia. lia.
Qed.

Lemma granted_lock_tick lm key v tmo nodeId now rnd lm1 lockID ver tmo' t :
  lm_wf lm →
  createWLock lm key v tmo nodeId now rnd = (lm1, (lockID, ver, tmo', None)) →
  ∃ w lm2, WLocks lm1 !! key = Some w
    ∧ timeout w = Some (now + seconds tmo)
    ∧ timeoutTick t lm1 = Ret lm2
    ∧ WLocks lm2 !! key = (if now + seconds tmo <=? t then None else Some w).
Proof.
  intros Hwf Hgrant.
  pose proof (createWLock_wf lm key v tmo nodeId now rnd Hwf) as Hwf1.
  rewrite Hgrant in Hwf1. simpl in Hwf1.
  apply createWLock_granted in Hgrant as (_ & _ & _ & _ & _ & Hlm1).
  destruct (timeoutTick_total t lm1 Hwf1) as [lm2 Htick].
  pose proof (timeoutTick_Ret t lm1 lm2 Htick) as [_ Hk].
  specialize (Hk key). rewrite Hlm1 in Hk. simpl in Hk.
  rewrite lookup_insert_eq in Hk. unfold expired in Hk. simpl in Hk.
  eexists _, lm2. split; [rewrite Hlm1; simpl; apply lookup_insert_eq|].
  by split_and!.
Qed.

(** X16: a write lock granted at instant [now] for [tmo] seconds, with
    [tmo] up to 9223372036, has the deadline [now + tmo * 10^9]
    nanoseconds: a tick of the sweeper before the deadline keeps it, a tick
    at or after the deadline drops it. *)
Theorem granted_lock_lives_until_deadline
    (lm : LManager) (key : string) (v tmo : Z) (nodeId : string) (now : Time)
    (rnd : list byte + string) (lm1 : LManager) (lockID : string)
    (ver tmo' : Z) (t : Time) :
  lm_wf lm →
  createWLock lm key v tmo nodeId now rnd = (lm1, (lockID, ver, tmo', None)) →
  0 ≤ tmo ≤ 9223372036 →
  ∃ w lm2, WLocks lm1 !! key = Some w
    ∧ timeout w = Some (now + tmo * 1000000000)
    ∧ timeoutTick t lm1 = Ret lm2
    ∧ (t < now + tmo * 1000000000 → WLocks lm2 !! key = Some w)
    ∧ (now + tmo * 1000000000 ≤ t → WLocks lm2 !! key = None).
Proof.
  intros Hwf Hgrant Htmo.
  destruct (granted_lock_tick _ _ _ _ _ _ _ _ _ _ _ t Hwf Hgrant)
    as (w & lm2 & Hw & Hd & Htick & Hk).
  rewrite (seconds_in_range tmo Htmo) in Hd, Hk.
  exists w, lm2. split_and!; [done..| |].
  - intros Hlt. rewrite Hk. by destruct (Z.leb_spec (now + tmo * 1000000000) t);
      [lia|].
  - intros Hge. rewrite Hk. by destruct (Z.leb_spec (now + tmo * 1000000000) t);
      [|lia].
Qed.

Lemma granted_lock_lives_until_deadline_witness :
  ∃ w lm2, WLocks heldLock !! "a" = Some w
    ∧ timeout w = Some (0 + 5 * 1000000000)
    ∧ timeoutTick 4999999999 heldLock = Ret lm2
    ∧ (4999999999 < 0 + 5 * 1000000000 → WLocks lm2 !! "a" = Some w)
    ∧ (0 + 5 * 1000000000 ≤ 4999999999 → WLocks lm2 !! "a" = None).
Proof.
  refine (granted_lock_lives_until_deadline newLManager "a" 0 5 "N1" 0
            (rand20 x11) heldLock (hex_EncodeToString (replicate 20 x11))
            1 5 4999999999 _ _ _).
  - split; intros *; simpl; by rewrite lookup_empty.
  - vm_compute. reflexivity.
  - lia.
Defined.

(** X17: a timeout of 9223372037 seconds or more (up to 18446744073)
    overflows [time.Duration(timeout) * time.Second]: the product wraps to
    a negative [int64], the deadline falls before the instant of the grant,
    and the first tick of the sweeper after the grant drops the lock. *)
Theorem long_timeout_expires_at_once
    (lm : LManager) (key : string) (v tmo : Z) (nodeId : string) (now : Time)
    (rnd : list byte + string) (lm1 : LManager) (lockID : string)
    (ver tmo' : Z) (t : Time) :
  lm_wf lm →
  createWLock lm key v tmo nodeId now rnd = (lm1, (lockID, ver, tmo', None)) →
  9223372037 ≤ tmo ≤ 18446744073 → now ≤ t →
  ∃ w lm2, WLocks lm1 !! key = Some w
    ∧ timeout w = Some (now + tmo * 1000000000 - 2 ^ 64)
    ∧ now + tmo * 1000000000 - 2 ^ 64 < now
    ∧ timeoutTick t lm1 = Ret lm2
    ∧ WLocks lm2 !! key = None.
Proof.
  intros Hwf Hgrant Htmo Hnow.
  destruct (granted_lock_tick _ _ _ _ _ _ _ _ _ _ _ t Hwf Hgrant)
    as (w & lm2 & Hw & Hd & Htick & Hk).
  destruct (seconds_overflow tmo Htmo) as [Hsec Hneg].
  exists w, lm2. split_and!; [done| |lia|done|].
  - rewrite Hd. f_equal. lia.
  - rewrite Hk. by destruct (Z.leb_spec (now + seconds tmo) t); [|lia].
Qed.

Lemma long_timeout_expires_at_once_witness :
  ∃ w lm2,
    WLocks (createWLock newLManager "a" 0 9223372037 "N1" 100
              (rand20 x11)).1 !! "a" = Some w
    ∧ timeout w = Some (100 + 9223372037 * 1000000000 - 2 ^ 64)
    ∧ 100 + 9223372037 * 1000000000 - 2 ^ 64 < 100
    ∧ timeoutTick 100 (createWLock newLManager "a" 0 9223372037 "N1" 100
                         (rand20 x11)).1 = Ret lm2
    ∧ WLocks lm2 !! "a" = None.
Proof.
  refine (long_timeout_expires_at_once newLManager "a" 0 9223372037 "N1" 100
            (rand20 x11) _ (hex_EncodeToString (replicate 20 x11))
            1 9223372037 100 _ _ _ _).
  - split; intros *; simpl; by rewrite lookup_empty.
  - vm_compute. reflexivity.
  - lia.
  - lia.
Defined.

(** X18: [timeoutTick] at [t1] followed by [timeoutTick] at a later or
    equal [t2] leaves the state that [timeoutTick] at [t2] alone leaves: a
    tick drops nothing that a later tick would keep, and a second tick at
    the same instant changes nothing. *)
Theorem timeoutTick_composes (lm lm1 : LManager) (t1 t2 : Time) :
  lm_wf lm → t1 ≤ t2 → timeoutTick t1 lm = Ret lm1 →
  ∃ lm2, timeoutTick t2 lm1 = Ret lm2 ∧ timeoutTick t2 lm = Ret lm2
    ∧ (t1 = t2 → lm2 = lm1).
Proof.
  intros Hwf Hle Htick1.
  pose proof (timeoutTick_wf _ _ _ Htick1 Hwf) as Hwf1.
  destruct (timeoutTick_total t2 lm1 Hwf1) as [lm2 Htick2].
  destruct (timeoutTick_total t2 lm Hwf) as [lm2' Htick2'].
  pose proof (timeoutTick_Ret _ _ _ Htick1) as [E1 K1].
  pose proof (timeoutTick_Ret _ _ _ Htick2) as [E2 K2].
  pose proof (timeoutTick_Ret _ _ _ Htick2') as [E2' K2'].
  assert (∀ w, expired t1 w = true → expired t2 w = true) as Hmono.
  { intros w. unfold expired. destruct (timeout w) as [d|]; [|done].
    intros H1%Z.leb_le. apply Z.leb_le. lia. }
  assert (WLocks lm2 = WLocks lm2') as HW.
  { apply map_eq. intros k. rewrite K2, K2', K1.
    destruct (WLocks lm !! k) as [w|]; [|done].
    destruct (expired t1 w) eqn:He1; [by rewrite (Hmono w He1)|done]. }
  assert (lm2 = lm2') as <-.
  { rewrite E2, E2', HW, E1. done. }
  exists lm2. split_and!; [done..|].
  intros <-. rewrite E2, E1. simpl. f_equal.
  apply map_eq. intros k. rewrite K2, K1.
  destruct (WLocks lm !! k) as [w|]; [|done].
  destruct (expired t1 w) eqn:He1; [done|by rewrite He1].
Qed.

Lemma timeoutTick_composes_witness :
  ∃ lm2, timeoutTick 5000000000 heldLock = Ret lm2
    ∧ timeoutTick 5000000000 heldLock = Ret lm2
    ∧ (4999999999 = 5000000000 → lm2 = heldLock).
Proof.
  refine (timeoutTick_composes heldLock heldLock 4999999999 5000000000 _ _ _).
  - apply createWLock_wf. split; intros *; simpl; by rewrite lookup_empty.
  - lia.
  - vm_compute. reflexivity.
Defined.

(** ** Lock IDs *)

Lemma nibble_cases n :
  0 ≤ n < 16 →
  n = 0 ∨ n = 1 ∨ n = 2 ∨ n = 3 ∨ n = 4 ∨ n = 5 ∨ n = 6 ∨ n = 7 ∨ n = 8
  ∨ n = 9 ∨ n = 10 ∨ n = 11 ∨ n = 12 ∨ n = 13 ∨ n = 14 ∨ n = 15.
Proof. lia. Qed.

Lemma hexdigit_char n :
  0 ≤ n < 16 → ∃ c, hexdigit n = String c EmptyString.
Proof.
  intros Hn%nibble_cases. destruct_or!; subst n; by eexists.
Qed.

Lemma hexdigit_inj n m :
  0 ≤ n < 16 → 0 ≤ m < 16 → hexdigit n = hexdigit m → n = m.
Proof.
  intros Hn%nibble_cases Hm%nibble_cases.
  destruct_or!; subst n m; vm_compute; intros H; first [done|discriminate H].
Qed.

Lemma hex_EncodeToString_cons b src :
  ∃ c1 c2, hexdigit (byte_val b / 16) = String c1 EmptyString
    ∧ hexdigit (byte_val b mod 16) = String c2 EmptyString
    ∧ hex_EncodeToString (b :: src)
      = String c1 (String c2 (hex_EncodeToString src)).
Proof.
  pose proof (byte_val_range b) as Hb.
  destruct (hexdigit_char (byte_val b / 16)) as [c1 H1].
  { split; [apply Z.div_pos; lia|apply Z.div_lt_upper_bound; lia]. }
  destruct (hexdigit_char (byte_val b mod 16)) as [c2 H2].
  { apply Z.mod_pos_bound. lia. }
  exists c1, c2. simpl. by rewrite H1, H2.
Qed.

Lemma hex_EncodeToString_length src :
  String.length (hex_EncodeToString src) = (2 * length src)%nat.
Proof.
  induction src as [|b src IH]; [done|].
  destruct (hex_EncodeToString_cons b src) as (c1 & c2 & _ & _ & ->).
  simpl String.length. rewrite IH. simpl. lia.
Qed.

Lemma hex_EncodeToString_inj src src' :
  hex_EncodeToString src = hex_EncodeToString src' → src = src'.
Proof.
  revert src'. induction src as [|b src IH]; intros [|b' src'] Heq.
  - done.
  - destruct (hex_EncodeToString_cons b' src') as (? & ? & _ & _ & E).
    rewrite E in Heq. discriminate.
  - destruct (hex_EncodeToString_cons b src) as (? & ? & _ & _ & E).
    rewrite E in Heq. discriminate.
  - destruct (hex_EncodeToString_cons b src) as (c1 & c2 & H1 & H2 & E).
    destruct (hex_EncodeToString_cons b' src') as (d1 & d2 & K1 & K2 & E').
    rewrite E, E' in Heq. injection Heq as <- <- Hrest.
    pose proof (byte_val_range b). pose proof (byte_val_range b').
    assert (byte_val b = byte_val b') as Hb.
    { rewrite (Z.div_mod (byte_val b) 16), (Z.div_mod (byte_val b') 16)
        by lia.
      f_equal; [f_equal|].
      - apply hexdigit_inj; [| |congruence];
          (split; [apply Z.div_pos; lia|apply Z.div_lt_upper_bound; lia]).
      - apply hexdigit_inj; [| |congruence]; apply Z.mod_pos_bound; lia. }
    apply byte_val_inj in Hb as ->. f_equal. by apply IH.
Qed.

(** X20: [hex.EncodeToString] writes two characters per byte and is
    injective, so [getLockID] turns the 20 bytes of the random source into
    a LockID of 40 characters, different draws give different LockIDs, and
    a failure of the random source gives the empty LockID with an error. *)
Theorem getLockID_hex (lockBytes : list byte) :
  getLockID (inl lockBytes) = (hex_EncodeToString lockBytes, None)
  ∧ String.length (hex_EncodeToString lockBytes)
    = (2 * length lockBytes)%nat
  ∧ (length lockBytes = 20%nat →
     String.length (getLockID (inl lockBytes)).1 = 40%nat)
  ∧ (∀ other, getLockID (inl other) = getLockID (inl lockBytes) →
              other = lockBytes)
  ∧ (∀ err, ∃ e, getLockID (inr err) = (EmptyString, Some e)).
Proof.
  split_and!; [done|apply hex_EncodeToString_length| | |by eexists].
  - intros H20. simpl. by rewrite hex_EncodeToString_length, H20.
  - intros other. simpl. intros [= Heq]. by apply hex_EncodeToString_inj.
Qed.

Lemma Vnode_String_eqb a b :
  String.eqb (Vnode_String a) (Vnode_String b) = true ↔ Id a = Id b.
Proof.
  rewrite String.eqb_eq. unfold Vnode_String. split.
  - apply hex_EncodeToString_inj.
  - by intros ->.
Qed.

(** ** Known successors *)

Lemma knownSuccessors_loop_packed vs k :
  knownSuccessors_loop (packed vs k) 0 0 = Z.of_nat (length vs).
Proof.
  unfold packed. induction k as [|k IH].
  - simpl. rewrite app_nil_r.
    induction vs as [|v vs IHvs] using rev_ind; [done|].
    rewrite fmap_app. simpl. rewrite knownSuccessors_loop_snoc.
    rewrite length_fmap, length_app. simpl. lia.
  - rewrite replicate_S_end, app_assoc, knownSuccessors_loop_snoc. done.
Qed.

(** X21: [knownSuccessors] is one more than the index of the last non-nil
    successor, and 0 when all are nil: it lies between 0 and the length of
    the list, every entry from it on is nil, and when it is positive the
    entry just before it is a vnode.  On a list without holes it is the
    number of vnodes. *)
Theorem knownSuccessors_last_vnode (vn : localVnode) :
  0 ≤ knownSuccessors vn ≤ Z.of_nat (length (successors vn))
  ∧ (∀ i : nat, knownSuccessors vn ≤ Z.of_nat i →
       (i < length (successors vn))%nat → successors vn !! i = Some None)
  ∧ (0 < knownSuccessors vn →
     ∃ v, successors vn !! Z.to_nat (knownSuccessors vn - 1) = Some (Some v))
  ∧ (∀ vs k, successors vn = packed vs k →
       knownSuccessors vn = Z.of_nat (length vs)).
Proof.
  unfold knownSuccessors.
  destruct (knownSuccessors_loop_spec (successors vn)) as (H1 & H2 & H3).
  split; [done|]. split; [done|]. split; [done|].
  intros vs k ->. apply knownSuccessors_loop_packed.
Qed.

(** ** SkipSuccessor *)

Lemma copy_down_cons {A} (x : A) (l : list A) :
  copy_down (x :: l) = l ++ [default x (last l)].
Proof.
  unfold copy_down. destruct l as [|y l _] using rev_ind; [done|].
  assert (last (x :: l ++ [y]) = Some y) as ->
    by (change (x :: l ++ [y]) with ((x :: l) ++ [y]); apply last_snoc).
  rewrite last_snoc. simpl. by rewrite drop_0.
Qed.

Lemma skip_packed (old : Vnode) (vs : list Vnode) (k : nat) :
  <[length vs := None]> (copy_down (packed (old :: vs) k))
  = packed vs (S k).
Proof.
  unfold packed. rewrite fmap_cons. simpl. rewrite copy_down_cons.
  destruct k as [|k].
  - simpl. rewrite app_nil_r.
    replace (length vs) with (length (Some <$> vs) + 0)%nat
      by (rewrite length_fmap; lia).
    by rewrite insert_app_r.
  - assert (last ((Some <$> vs) ++ replicate (S k) (@None Vnode))
            = Some None) as ->
      by (rewrite replicate_S_end, app_assoc; apply last_snoc).
    simpl default. rewrite <- app_assoc.
    replace (length vs) with (length (Some <$> vs) + 0)%nat
      by (rewrite length_fmap; lia).
    rewrite insert_app_r. simpl. do 2 f_equal.
    by rewrite <- replicate_S_end.
Qed.

(** X22: on a successor list without holes, [SkipSuccessor] of the vnode
    that is the first successor (the same identifier) removes it: the
    other successors move down by one, a nil fills the end, the list keeps
    its length, one successor fewer is known, and the delegate is told of
    the successor that leaves.  For any other vnode nothing changes and the
    delegate is not called. *)
Theorem SkipSuccessor_drops_first
    (vn : localVnode) (old s : Vnode) (vs : list Vnode) (k : nat) :
  successors vn = packed (old :: vs) k →
  (Id s = Id old →
     SkipSuccessor vn (Some s)
     = Ret (set_successors vn (packed vs (S k)),
            Some (SuccessorLeaving (lv_Vnode vn) old))
     ∧ length (packed vs (S k)) = length (successors vn)
     ∧ knownSuccessors (set_successors vn (packed vs (S k)))
       = knownSuccessors vn - 1)
  ∧ (Id s ≠ Id old → SkipSuccessor vn (Some s) = Ret (vn, None)).
Proof.
  intros Hs.
  assert (knownSuccessors vn = Z.of_nat (length vs) + 1) as Hknown.
  { unfold knownSuccessors. rewrite Hs, knownSuccessors_loop_packed.
    simpl length. lia. }
  assert (successors vn !! 0%nat = Some (Some old)) as Hhead
    by (by rewrite Hs).
  unfold SkipSuccessor. rewrite Hhead. split.
  - intros Hid.
    assert (String.eqb (Vnode_String old) (Vnode_String s) = true) as ->
      by (by apply Vnode_String_eqb).
    cbv zeta. rewrite Hknown.
    replace (Z.of_nat (length vs) + 1 - 1) with (Z.of_nat (length vs)) by lia.
    rewrite Nat2Z.id, Hs, skip_packed.
    assert (∃ x, index (copy_down (packed (old :: vs) k))
                   (Z.of_nat (length vs)) = Ret x) as [x ->].
    { unfold index. destruct (Z.ltb_spec (Z.of_nat (length vs)) 0); [lia|].
      rewrite Nat2Z.id.
      destruct (copy_down (packed (old :: vs) k) !! length vs) as [x|] eqn:E;
        [eauto|].
      apply lookup_ge_None in E. unfold packed in E.
      rewrite fmap_cons in E. simpl in E. rewrite copy_down_cons in E.
      rewrite !length_app, length_fmap in E. simpl in E. lia. }
    simpl. split_and!; [done| |].
    + unfold packed. rewrite !length_app, !length_fmap, !length_replicate.
      simpl. lia.
    + unfold knownSuccessors at 1. simpl.
      rewrite knownSuccessors_loop_packed. lia.
  - intros Hid.
    destruct (String.eqb (Vnode_String old) (Vnode_String s)) eqn:E; [|done].
    apply Vnode_String_eqb in E. congruence.
Qed.

Lemma SkipSuccessor_drops_first_witness :
  SkipSuccessor (localAt10 threeSuccessors) (Some (vnodeAt x20 "elsewhere"))
  = Ret (set_successors (localAt10 threeSuccessors)
           (packed [vnodeAt x30 "h3"; vnodeAt x40 "h4"] 1),
         Some (SuccessorLeaving (vnodeAt x10 "local") (vnodeAt x20 "h2"))).
Proof.
  refine (proj1 (proj1 (SkipSuccessor_drops_first (localAt10 threeSuccessors)
            (vnodeAt x20 "h2") (vnodeAt x20 "elsewhere")
            [vnodeAt x30 "h3"; vnodeAt x40 "h4"] 0 _) _)); reflexivity.
Defined.

(** ** GetPredecessorList *)

Lemma GetPredecessorList_loop_spec preds : ∀ iters i ret,
  (i + iters ≤ length preds)%nat →
  GetPredecessorList_loop preds i iters ret
  = Ret (ret ++ (Some <$> omap id (take iters (drop i preds)))).
Proof.
  induction iters as [|iters IH]; intros i ret Hlen; simpl.
  - by rewrite app_nil_r.
  - destruct (preds !! i) as [x|] eqn:Hx;
      [|apply lookup_ge_None in Hx; lia].
    rewrite (drop_S _ _ _ Hx). simpl.
    destruct x as [p|]; simpl; rewrite IH by lia; [|done].
    by rewrite <- app_assoc.
Qed.

Lemma GetPredecessorList_loop_short preds : ∀ iters i ret,
  (length preds < i + iters)%nat → (i ≤ length preds)%nat →
  ∃ why, GetPredecessorList_loop preds i iters ret = Panic why.
Proof.
  induction iters as [|iters IH]; intros i ret Hlen Hi; [lia|]. simpl.
  destruct (preds !! i) as [x|] eqn:Hx.
  - apply lookup_lt_Some in Hx.
    destruct x; apply IH; lia.
  - eauto.
Qed.

Lemma omap_length_le {A B} (f : A → option B) (l : list A) :
  (length (omap f l) ≤ length l)%nat.
Proof.
  induction l as [|x l IH]; simpl; [done|].
  change (list_omap A B f l) with (omap f l).
  destruct (f x); simpl; lia.
Qed.

(** X23: with room for [NumSuccessors + 1] predecessors
    [GetPredecessorList] returns, without error, the non-nil entries among
    the first [NumSuccessors + 1], in their order: the list it returns
    holds no nil and at most [NumSuccessors + 1] vnodes.  On a shorter
    predecessor list it panics. *)
Theorem GetPredecessorList_non_nil (conf : Config) (vn : localVnode) :
  0 ≤ NumSuccessors conf + 1 →
  (NumSuccessors conf + 1 ≤ Z.of_nat (length (predecessors vn)) →
     ∃ ps : list Vnode,
       GetPredecessorList conf vn = Ret (Some <$> ps, None)
       ∧ ps = omap id (take (Z.to_nat (NumSuccessors conf + 1))
                         (predecessors vn))
       ∧ Z.of_nat (length ps) ≤ NumSuccessors conf + 1
       ∧ (∀ p, p ∈ ps ↔
               ∃ i : nat, Z.of_nat i < NumSuccessors conf + 1
                          ∧ predecessors vn !! i = Some (Some p)))
  ∧ (Z.of_nat (length (predecessors vn)) < NumSuccessors conf + 1 →
     ∃ why, GetPredecessorList conf vn = Panic why).
Proof.
  intros Hcap. unfold GetPredecessorList.
  destruct (Z.ltb_spec (NumSuccessors conf + 1) 0); [lia|]. split.
  - intros Hlen. eexists. rewrite GetPredecessorList_loop_spec by lia.
    simpl. rewrite drop_0. split; [done|]. split_and!; [done| |].
    + pose proof (omap_length_le (@id (option Vnode))
        (take (Z.to_nat (NumSuccessors conf + 1)) (predecessors vn))) as H1.
      rewrite length_take in H1. lia.
    + intros p. rewrite list_elem_of_omap. split.
      * intros (x & Hx & Hp). simpl in Hp. subst x.
        apply list_elem_of_lookup in Hx as [i Hi].
        apply lookup_take_Some in Hi as [Hi Hlt]. exists i. split; [lia|done].
      * intros (i & Hi & Hp). exists (Some p). split; [|done].
        apply list_elem_of_lookup. exists i.
        apply lookup_take_Some. split; [done|lia].
  - intros Hshort.
    destruct (GetPredecessorList_loop_short (predecessors vn)
                (Z.to_nat (NumSuccessors conf + 1)) 0 []) as [why ->];
      [lia|lia|]. simpl. eauto.
Qed.

Lemma GetPredecessorList_non_nil_witness :
  ∃ ps : list Vnode,
    GetPredecessorList (config ringOfThree)
      (set_predecessors (localAt x10 [])
         [Some (vnodeAt x30 "h3"); None; Some (vnodeAt x20 "h2")])
    = Ret (Some <$> ps, None)
    ∧ ps = [vnodeAt x30 "h3"; vnodeAt x20 "h2"].
Proof.
  destruct (proj1 (GetPredecessorList_non_nil (config ringOfThree)
              (set_predecessors (localAt x10 [])
                 [Some (vnodeAt x30 "h3"); None; Some (vnodeAt x20 "h2")])
              ltac:(vm_compute; discriminate))
            ltac:(vm_compute; discriminate))
    as (ps & Hret & Hps & _).
  exists ps. split; [exact Hret|exact Hps].
Defined.

(** ** FindSuccessors: the local answer and the forwarded one *)

Section ForwardingFacts.

Variable transport_FindSuccessors :
  Vnode → Z → list byte → list (option Vnode) * option error.
Variable closestPreceeding : localVnode → list byte → list Vnode.

Lemma forwardToClosest_first_answer fails c rest n key res :
  (∀ f, f ∈ fails → is_Some (transport_FindSuccessors f n key).2) →
  transport_FindSuccessors c n key = (res, None) →
  forwardToClosest transport_FindSuccessors (fails ++ c :: rest) n key
  = Some res.
Proof.
  intros Hfails Hc. induction fails as [|f fails IH]; simpl.
  - by rewrite Hc.
  - destruct (Hfails f) as [err Herr]; [by left|].
    destruct (transport_FindSuccessors f n key) as [r o]. simpl in Herr.
    subst o. apply IH. intros g Hg. apply Hfails. by right.
Qed.

(** X24: when the first successor covers the key, [FindSuccessors]
    answers from the local list, whatever the transport and the iterator
    would give; when it does not, the answer is the reply of the first
    closest preceding vnode whose forward returns no error: the vnodes the
    iterator yields before it have all failed, and the ones after it are
    not asked. *)
Theorem FindSuccessors_local_or_first_forward
    (vn : localVnode) (n : Z) (key : list byte) (s0 : Vnode) :
  successors vn !! 0%nat = Some (Some s0) →
  (betweenRightIncl (Id (lv_Vnode vn)) (Id s0) key = true →
     FindSuccessors transport_FindSuccessors closestPreceeding vn n key
     = Ret (copyOfVnodesList (successors vn) n, None))
  ∧ (betweenRightIncl (Id (lv_Vnode vn)) (Id s0) key = false →
     ∀ fails c rest res,
       closestPreceeding vn key = fails ++ c :: rest →
       (∀ f, f ∈ fails → is_Some (transport_FindSuccessors f n key).2) →
       transport_FindSuccessors c n key = (res, None) →
       FindSuccessors transport_FindSuccessors closestPreceeding vn n key
       = Ret (res, None)).
Proof.
  intros Hs0. unfold FindSuccessors. rewrite Hs0. split.
  - by intros ->.
  - intros -> fails c rest res -> Hfails Hc.
    by rewrite (forwardToClosest_first_answer _ _ _ _ _ _ Hfails Hc).
Qed.

End ForwardingFacts.

(** The vnode [0x30] is down and [0x20] answers. *)
Lemma FindSuccessors_local_or_first_forward_witness :
  FindSuccessors
    (λ c n key, if bytes_Compare (Id c) [x30] =? 0
                then ([], Some (Errorf "i/o timeout" []))
                else ([Some (vnodeAt x40 "h4")], None))
    closestFromSuccessors (localAt10 twoSuccessors) 1 [x35]
  = Ret ([Some (vnodeAt x40 "h4")], None).
Proof.
  refine (proj2 (FindSuccessors_local_or_first_forward _ closestFromSuccessors
            (localAt10 twoSuccessors) 1 [x35] (vnodeAt x20 "h2") eq_refl)
            eq_refl [vnodeAt x30 "h3"] (vnodeAt x20 "h2") [] _ eq_refl _
            eq_refl).
  intros f ->%list_elem_of_singleton. by eexists.
Defined.

(** ** notifySuccessor *)

Lemma notifySuccessor_loop_spec (self : Vnode) : ∀ l succs idx,
  (idx + length l < length succs)%nat →
  ∃ p : list Vnode,
    notifySuccessor_loop self succs idx l
    = Ret (take (S idx) succs ++ (Some <$> p)
             ++ drop (S idx + length p) succs)
    ∧ (Some <$> p) `prefix_of` l
    ∧ Forall (λ s, Id s ≠ Id self) p
    ∧ (∀ x, l !! length p = Some x →
            x = None ∨ ∃ s, x = Some s ∧ Id s = Id self).
Proof.
  induction l as [|x l IH]; intros succs idx Hroom.
  - exists []. simpl. rewrite Nat.add_0_r, take_drop.
    split_and!; [done|done|constructor|done].
  - destruct x as [s|]; simpl.
    + destruct (String.eqb (Vnode_String s) (Vnode_String self)) eqn:E.
      * exists []. simpl. rewrite Nat.add_0_r, take_drop.
        split_and!; [done|apply prefix_nil|constructor|].
        intros x [= <-]. right. exists s. split; [done|].
        by apply Vnode_String_eqb.
      * simpl in Hroom. destruct (decide (S idx < length succs)%nat); [|lia].
        destruct (IH (<[S idx := Some s]> succs) (S idx)) as
          (p & Hret & Hpre & Hall & Hstop);
          [rewrite length_insert; lia|].
        exists (s :: p). rewrite Hret. split_and!.
        -- f_equal.
           rewrite (take_S_r _ (S idx) (Some s))
             by (by apply list_lookup_insert_eq).
           rewrite take_insert_ge by done.
           rewrite drop_insert_lt by lia.
           rewrite <- !app_assoc. simpl.
           by replace (S (idx + S (length p))) with (S (S (idx + length p)))
             by lia.
        -- simpl. by apply prefix_cons.
        -- constructor; [|done]. intros Hid.
           apply Vnode_String_eqb in Hid. congruence.
        -- done.
    + exists []. simpl. rewrite Nat.add_0_r, take_drop.
      split_and!; [done|apply prefix_nil|constructor|].
      intros x [= <-]. by left.
Qed.

(** X25: on a vnode with room for [NumSuccessors] successors,
    [notifySuccessor] with the successor's reply keeps the first successor
    and the length of the list and installs, from index 1 on, the entries
    of the reply (cut to [NumSuccessors - 1]) up to the first nil or the
    first vnode with the vnode's own identifier: it never installs nil or
    itself, and leaves the entries after the installed ones as they were.
    A reply with an error changes nothing. *)
Theorem notifySuccessor_installs_prefix
    (conf : Config) (vn : localVnode) (succ_list : list (option Vnode)) :
  1 ≤ NumSuccessors conf →
  Z.of_nat (length (successors vn)) = NumSuccessors conf →
  (∃ p : list Vnode,
     notifySuccessor conf vn (succ_list, None)
     = Ret (set_successors vn
              (take 1 (successors vn) ++ (Some <$> p)
                 ++ drop (1 + length p) (successors vn)), None)
     ∧ (Some <$> p) `prefix_of`
         take (Z.to_nat (NumSuccessors conf - 1)) succ_list
     ∧ Forall (λ s, Id s ≠ Id (lv_Vnode vn)) p
     ∧ (∀ x, take (Z.to_nat (NumSuccessors conf - 1)) succ_list !! length p
             = Some x →
             x = None ∨ ∃ s, x = Some s ∧ Id s = Id (lv_Vnode vn))
     ∧ length (take 1 (successors vn) ++ (Some <$> p)
                 ++ drop (1 + length p) (successors vn))
       = length (successors vn))
  ∧ (∀ reply err, notifySuccessor conf vn (reply, Some err)
                  = Ret (vn, Some err)).
Proof.
  intros Hn Hlen. unfold notifySuccessor.
  destruct (successors vn !! 0%nat) as [s0|] eqn:Hs0;
    [|apply lookup_ge_None in Hs0; lia].
  split; [|done].
  assert ((if Z.of_nat (length succ_list) >? NumSuccessors conf - 1
           then slice_to succ_list (NumSuccessors conf - 1)
           else Ret succ_list)
          = Ret (take (Z.to_nat (NumSuccessors conf - 1)) succ_list)) as ->.
  { unfold slice_to.
    destruct (Z.gtb_spec (Z.of_nat (length succ_list))
                (NumSuccessors conf - 1)).
    - by destruct (Z.ltb_spec (NumSuccessors conf - 1) 0); [lia|].
    - f_equal. symmetry. apply take_ge. lia. }
  simpl.
  destruct (notifySuccessor_loop_spec (lv_Vnode vn)
              (take (Z.to_nat (NumSuccessors conf - 1)) succ_list)
              (successors vn) 0) as (p & Hret & Hpre & Hall & Hstop).
  { rewrite length_take. lia. }
  exists p. rewrite Hret. simpl. split_and!; [done..|].
  pose proof (prefix_length _ _ Hpre) as Hp.
  rewrite length_fmap, length_take in Hp.
  rewrite !length_app, length_fmap, length_take, length_drop. lia.
Qed.

(** With room for two successors the reply is cut to its first entry,
    which is installed at index 1. *)
Lemma notifySuccessor_installs_prefix_witness :
  ∃ p : list Vnode,
    notifySuccessor (config ringOfThree)
      (localAt x10 [Some (vnodeAt x20 "h2"); None])
      ([Some (vnodeAt x30 "h3"); Some (vnodeAt x10 "local")], None)
    = Ret (set_successors (localAt x10 [Some (vnodeAt x20 "h2"); None])
             (take 1 [Some (vnodeAt x20 "h2"); None] ++ (Some <$> p)
                ++ drop (1 + length p) [Some (vnodeAt x20 "h2"); None]), None)
    ∧ (Some <$> p) `prefix_of`
        take (Z.to_nat (NumSuccessors (config ringOfThree) - 1))
          [Some (vnodeAt x30 "h3"); Some (vnodeAt x10 "local")]
    ∧ Forall (λ s, Id s ≠ Id (vnodeAt x10 "local")) p.
Proof.
  destruct (proj1 (notifySuccessor_installs_prefix (config ringOfThree)
              (localAt x10 [Some (vnodeAt x20 "h2"); None])
              [Some (vnodeAt x30 "h3"); Some (vnodeAt x10 "local")]
              ltac:(vm_compute; discriminate) eq_refl))
    as (p & H1 & H2 & H3 & _).
  exists p. split; [exact H1|]. split; [exact H2|exact H3].
Defined.

Example notifySuccessor_skips_itself :
  notifySuccessor (config ringOfThree)
    (localAt x10 [Some (vnodeAt x20 "h2"); None])
    ([Some (vnodeAt x10 "local"); Some (vnodeAt x30 "h3")], None)
  = Ret (localAt x10 [Some (vnodeAt x20 "h2"); None], None).
Proof. reflexivity. Qed.

(** ** The local successors and predecessors of a new ring *)

Lemma range_vnodes_spec (f : Z → localVnode → outcome localVnode) :
  ∀ vs idx,
    (∀ (k : nat) v, vs !! k = Some v → ∃ v', f (idx + Z.of_nat k) v = Ret v') →
    ∃ vs', range_vnodes f idx vs = Ret vs'
      ∧ length vs' = length vs
      ∧ ∀ (k : nat) v, vs !! k = Some v →
          ∃ v', f (idx + Z.of_nat k) v = Ret v' ∧ vs' !! k = Some v'.
Proof.
  induction vs as [|v vs IH]; intros idx Hf.
  - exists []. by split_and!.
  - destruct (Hf 0%nat v eq_refl) as [v' Hv'].
    rewrite Z.add_0_r in Hv'.
    destruct (IH (idx + 1)) as (vs' & Hret & Hlen & Hk).
    { intros k w Hw. destruct (Hf (S k) w Hw) as [w' Hw'].
      exists w'. rewrite <- Hw'. f_equal. lia. }
    exists (v' :: vs'). simpl. rewrite Hv'. simpl. rewrite Hret. simpl.
    split_and!; [done|by rewrite Hlen|].
    intros [|k] w Hw; simpl in *.
    + injection Hw as <-. exists v'. by rewrite Z.add_0_r.
    + destruct (Hk k w Hw) as (w' & Hw' & Hlk). exists w'. split; [|done].
      rewrite <- Hw'. f_equal. lia.
Qed.

Lemma setLocalSuccessors_loop_spec (vs : list localVnode) (idx : Z) :
  0 ≤ idx → vs ≠ [] →
  ∀ iters (i : nat) succs,
    (i + iters ≤ length succs)%nat →
    ∃ succs',
      setLocalSuccessors_loop vs idx succs (Z.of_nat i) iters = Ret succs'
      ∧ length succs' = length succs
      ∧ ∀ j : nat,
          ((i ≤ j < i + iters)%nat →
             ∃ w, vs !! Z.to_nat ((idx + Z.of_nat j + 1)
                                    `mod` Z.of_nat (length vs)) = Some w
                  ∧ succs' !! j = Some (Some (lv_Vnode w)))
          ∧ (¬ (i ≤ j < i + iters)%nat → succs' !! j = succs !! j).
Proof.
  intros Hidx Hvs.
  assert (0 < Z.of_nat (length vs)) as HnumV by (destruct vs; [done|simpl; lia]).
  induction iters as [|iters IH]; intros i succs Hroom.
  - exists succs. simpl. split_and!; [done..|]. intros j. split; [lia|done].
  - simpl.
    rewrite Z.rem_mod_nonneg by lia.
    pose proof (Z.mod_pos_bound (idx + Z.of_nat i + 1) (Z.of_nat (length vs))
                  HnumV) as Hmod.
    destruct (vs !! Z.to_nat ((idx + Z.of_nat i + 1) `mod`
                              Z.of_nat (length vs))) as [w|] eqn:Hw;
      [|apply lookup_ge_None in Hw; lia].
    assert (index vs ((idx + Z.of_nat i + 1) `mod` Z.of_nat (length vs))
            = Ret w) as -> by (apply index_Ret; split; [lia|done]).
    simpl.
    destruct (succs !! i) as [x|] eqn:Hx; [|apply lookup_ge_None in Hx; lia].
    assert (index succs (Z.of_nat i) = Ret x) as ->
      by (apply index_Ret; rewrite Nat2Z.id; split; [lia|done]).
    simpl. rewrite Nat2Z.id.
    replace (Z.of_nat i + 1) with (Z.of_nat (S i)) by lia.
    destruct (IH (S i) (<[i := Some (lv_Vnode w)]> succs))
      as (succs' & Hret & Hlen & Hj); [rewrite length_insert; lia|].
    exists succs'. rewrite length_insert in Hlen.
    split_and!; [done..|]. intros j. destruct (Hj j) as [Hin Hout]. split.
    + intros Hrange. destruct (decide (j = i)) as [->|Hne].
      * exists w. split; [done|]. rewrite Hout by lia.
        apply list_lookup_insert_eq. by eapply lookup_lt_Some.
      * apply Hin. lia.
    + intros Hrange. rewrite Hout by lia.
      apply list_lookup_insert_ne. lia.
Qed.

Lemma setLocalSuccessors_spec (r : Ring) :
  (∀ v, v ∈ vnodes r →
        min (NumSuccessors (config r)) (Z.of_nat (length (vnodes r)) - 1)
        ≤ Z.of_nat (length (successors v))) →
  ∃ r', setLocalSuccessors r = Ret r'
    ∧ config r' = config r
    ∧ length (vnodes r') = length (vnodes r)
    ∧ ∀ (idx : nat) v, vnodes r !! idx = Some v →
        ∃ v', vnodes r' !! idx = Some v'
          ∧ lv_Vnode v' = lv_Vnode v
          ∧ predecessors v' = predecessors v
          ∧ length (successors v') = length (successors v)
          ∧ ∀ i : nat,
              (Z.of_nat i < min (NumSuccessors (config r))
                                (Z.of_nat (length (vnodes r)) - 1) →
                 ∃ w, vnodes r !! ((idx + i + 1) `mod` length (vnodes r))%nat
                      = Some w
                      ∧ successors v' !! i = Some (Some (lv_Vnode w))
                      ∧ ((idx + i + 1) `mod` length (vnodes r))%nat ≠ idx)
              ∧ (min (NumSuccessors (config r))
                     (Z.of_nat (length (vnodes r)) - 1) ≤ Z.of_nat i →
                 successors v' !! i = successors v !! i).
Proof.
  intros Hroom. unfold setLocalSuccessors. cbv zeta.
  set (numSuc := min (NumSuccessors (config r))
                     (Z.of_nat (length (vnodes r)) - 1)) in *.
  assert (numSuc ≤ Z.of_nat (length (vnodes r)) - 1) as HnumSuc.
  { unfold numSuc, min. destruct (Z.leb_spec (NumSuccessors (config r))
      (Z.of_nat (length (vnodes r)) - 1)); lia. }
  set (f := λ idx vnode,
         succs ←! setLocalSuccessors_loop (vnodes r) idx
                    (successors vnode) 0 (Z.to_nat numSuc);
         Ret (set_successors vnode succs)).
  assert (∀ (k : nat) v, vnodes r !! k = Some v →
    ∃ succs', f (0 + Z.of_nat k) v = Ret (set_successors v succs')
      ∧ length succs' = length (successors v)
      ∧ ∀ j : nat,
          ((0 ≤ j < 0 + Z.to_nat numSuc)%nat →
             ∃ w, vnodes r !! Z.to_nat ((0 + Z.of_nat k + Z.of_nat j + 1)
                      `mod` Z.of_nat (length (vnodes r))) = Some w
                  ∧ succs' !! j = Some (Some (lv_Vnode w)))
          ∧ (¬ (0 ≤ j < 0 + Z.to_nat numSuc)%nat →
             succs' !! j = successors v !! j)) as Hf.
  { intros k v Hv.
    assert (vnodes r ≠ []) as Hne by (intros E; by rewrite E in Hv).
    destruct (setLocalSuccessors_loop_spec (vnodes r) (0 + Z.of_nat k)
                ltac:(lia) Hne (Z.to_nat numSuc) 0%nat (successors v))
      as (succs' & Hret & Hlen & Hj).
    { specialize (Hroom v (list_elem_of_lookup_2 _ _ _ Hv)). lia. }
    exists succs'. unfold f. change (Z.of_nat 0) with 0 in Hret.
    rewrite Hret. by split_and!. }
  destruct (range_vnodes_spec f (vnodes r) 0) as (vs' & Hret & Hlen & Hk).
  { intros k v Hv. destruct (Hf k v Hv) as (succs' & -> & _). eauto. }
  rewrite Hret. simpl. eexists. split; [done|]. simpl.
  split_and!; [done..|].
  intros idx v Hv. destruct (Hk idx v Hv) as (v' & Hv' & Hlk).
  destruct (Hf idx v Hv) as (succs' & Hfv & Hlen' & Hj).
  rewrite Hfv in Hv'. injection Hv' as <-.
  exists (set_successors v succs'). split_and!; [done..|].
  intros i. destruct (Hj i) as [Hin Hout].
  pose proof (lookup_lt_Some _ _ _ Hv) as Hidx. split.
  - intros Hi. destruct Hin as (w & Hw & Hsi); [lia|].
    exists w.
    assert (Z.to_nat ((0 + Z.of_nat idx + Z.of_nat i + 1)
                        `mod` Z.of_nat (length (vnodes r)))
            = ((idx + i + 1) `mod` length (vnodes r))%nat) as Hconv.
    { replace (0 + Z.of_nat idx + Z.of_nat i + 1)
        with (Z.of_nat (idx + i + 1)) by lia.
      by rewrite <- Nat2Z.inj_mod, Nat2Z.id. }
    rewrite Hconv in Hw. split_and!; [done..|].
    intros Heq.
    assert (Z.of_nat (idx + i + 1) `mod` Z.of_nat (length (vnodes r))
            = Z.of_nat idx) as Hz by (rewrite <- Nat2Z.inj_mod; lia).
    destruct (decide (idx + i + 1 < length (vnodes r))%nat) as [Hs|Hs].
    + rewrite Z.mod_small in Hz by lia. lia.
    + replace (Z.of_nat (idx + i + 1))
        with (Z.of_nat (idx + i + 1) - Z.of_nat (length (vnodes r))
              + 1 * Z.of_nat (length (vnodes r))) in Hz by lia.
      rewrite Z.mod_add in Hz by lia. rewrite Z.mod_small in Hz by lia. lia.
  - intros Hi. simpl. apply Hout. lia.
Qed.

(** X26: on a ring whose vnodes have room for the successors to set,
    [setLocalSuccessors] gives the vnode at index [idx], for every [i]
    below [min(NumSuccessors, numV - 1)], the vnode at index
    [(idx + i + 1) mod numV] as successor [i], which is never the vnode
    itself; the entries from [min(NumSuccessors, numV - 1)] on, the
    identifiers, the predecessors and the configuration stay as they
    are. *)
Theorem setLocalSuccessors_cyclic (r : Ring) :
  (∀ v, v ∈ vnodes r →
        min (NumSuccessors (config r)) (Z.of_nat (length (vnodes r)) - 1)
        ≤ Z.of_nat (length (successors v))) →
  ∃ r', setLocalSuccessors r = Ret r'
    ∧ config r' = config r
    ∧ length (vnodes r') = length (vnodes r)
    ∧ ∀ (idx : nat) v, vnodes r !! idx = Some v →
        ∃ v', vnodes r' !! idx = Some v'
          ∧ lv_Vnode v' = lv_Vnode v
          ∧ predecessors v' = predecessors v
          ∧ length (successors v') = length (successors v)
          ∧ ∀ i : nat,
              (Z.of_nat i < min (NumSuccessors (config r))
                                (Z.of_nat (length (vnodes r)) - 1) →
                 ∃ w, vnodes r !! ((idx + i + 1) `mod` length (vnodes r))%nat
                      = Some w
                      ∧ successors v' !! i = Some (Some (lv_Vnode w))
                      ∧ ((idx + i + 1) `mod` length (vnodes r))%nat ≠ idx)
              ∧ (min (NumSuccessors (config r))
                     (Z.of_nat (length (vnodes r)) - 1) ≤ Z.of_nat i →
                 successors v' !! i = successors v !! i).
Proof. exact (setLocalSuccessors_spec r). Qed.

Lemma setLocalSuccessors_cyclic_witness :
  ∃ r', setLocalSuccessors ringOfThree = Ret r'
    ∧ (successors <$> vnodes r')
      = [ [Some (vnodeAt x20 "local"); Some (vnodeAt x30 "local")];
          [Some (vnodeAt x30 "local"); Some (vnodeAt x10 "local")];
          [Some (vnodeAt x10 "local"); Some (vnodeAt x20 "local")] ].
Proof.
  destruct (setLocalSuccessors_cyclic ringOfThree) as (r' & Hret & _).
  - intros v Hv. vm_compute in Hv.
    repeat (apply elem_of_cons in Hv as [->|Hv]; [vm_compute; discriminate|]).
    by apply elem_of_nil in Hv.
  - exists r'. split; [exact Hret|].
    vm_compute in Hret. injection Hret as <-. reflexivity.
Defined.

Lemma setLocalPredecessors_loop_spec (vs : list localVnode) (idx : nat) :
  (idx < length vs)%nat →
  ∀ iters (i : nat) preds,
    (i + iters ≤ length preds)%nat → (i + iters ≤ length vs - 1)%nat →
    ∃ preds',
      setLocalPredecessors_loop vs (Z.of_nat idx) preds (Z.of_nat i) iters
      = Ret preds'
      ∧ length preds' = length preds
      ∧ ∀ j : nat,
          ((i ≤ j < i + iters)%nat →
             ∃ w, vs !! (if decide (j < idx)%nat then idx - j - 1
                         else length vs - j - 1)%nat = Some w
                  ∧ preds' !! j = Some (Some (lv_Vnode w)))
          ∧ (¬ (i ≤ j < i + iters)%nat → preds' !! j = preds !! j).
Proof.
  intros Hidx.
  induction iters as [|iters IH]; intros i preds Hroom Hnum.
  - exists preds. simpl. split_and!; [done..|]. intros j. split; [lia|done].
  - simpl.
    set (src := (if decide (i < idx)%nat then idx - i - 1
                 else length vs - i - 1)%nat).
    destruct (vs !! src) as [w|] eqn:Hw;
      [|apply lookup_ge_None in Hw; unfold src in Hw;
        destruct (decide (i < idx)%nat); lia].
    assert ((if Z.of_nat idx - Z.of_nat i - 1 <? 0
             then index vs (Z.of_nat (length vs) - Z.of_nat i - 1)
             else index vs (Z.of_nat idx - Z.of_nat i - 1)) = Ret w) as ->.
    { unfold src in Hw.
      destruct (Z.ltb_spec (Z.of_nat idx - Z.of_nat i - 1) 0),
               (decide (i < idx)%nat); try lia;
        apply index_Ret; (split; [lia|]); rewrite <- Hw; f_equal; lia. }
    simpl.
    destruct (preds !! i) as [x|] eqn:Hx; [|apply lookup_ge_None in Hx; lia].
    assert (index preds (Z.of_nat i) = Ret x) as ->
      by (apply index_Ret; rewrite Nat2Z.id; split; [lia|done]).
    simpl. rewrite Nat2Z.id.
    replace (Z.of_nat i + 1) with (Z.of_nat (S i)) by lia.
    destruct (IH (S i) (<[i := Some (lv_Vnode w)]> preds))
      as (preds' & Hret & Hlen & Hj); [rewrite length_insert; lia|lia|].
    exists preds'. rewrite length_insert in Hlen.
    split_and!; [done..|]. intros j. destruct (Hj j) as [Hin Hout]. split.
    + intros Hrange. destruct (decide (j = i)) as [->|Hne].
      * exists w. split; [done|]. rewrite Hout by lia.
        apply list_lookup_insert_eq. by eapply lookup_lt_Some.
      * apply Hin. lia.
    + intros Hrange. rewrite Hout by lia.
      apply list_lookup_insert_ne. lia.
Qed.

Lemma setLocalPredecessors_spec (r : Ring) :
  (∀ v, v ∈ vnodes r →
        min (NumSuccessors (config r) + 1) (Z.of_nat (length (vnodes r)) - 1)
        ≤ Z.of_nat (length (predecessors v))) →
  ∃ r', setLocalPredecessors r = Ret r'
    ∧ config r' = config r
    ∧ length (vnodes r') = length (vnodes r)
    ∧ ∀ (idx : nat) v, vnodes r !! idx = Some v →
        ∃ v', vnodes r' !! idx = Some v'
          ∧ lv_Vnode v' = lv_Vnode v
          ∧ successors v' = successors v
          ∧ length (predecessors v') = length (predecessors v)
          ∧ ∀ i : nat,
              (Z.of_nat i < min (NumSuccessors (config r) + 1)
                                (Z.of_nat (length (vnodes r)) - 1) →
                 ∃ w, vnodes r !! (if decide (i < idx)%nat then idx - i - 1
                                   else length (vnodes r) - i - 1)%nat
                      = Some w
                      ∧ predecessors v' !! i = Some (Some (lv_Vnode w)))
              ∧ (min (NumSuccessors (config r) + 1)
                     (Z.of_nat (length (vnodes r)) - 1) ≤ Z.of_nat i →
                 predecessors v' !! i = predecessors v !! i).
Proof.
  intros Hroom. unfold setLocalPredecessors. cbv zeta.
  set (numPred := min (NumSuccessors (config r) + 1)
                      (Z.of_nat (length (vnodes r)) - 1)) in *.
  assert (numPred ≤ Z.of_nat (length (vnodes r)) - 1) as HnumPred.
  { unfold numPred, min. destruct (Z.leb_spec (NumSuccessors (config r) + 1)
      (Z.of_nat (length (vnodes r)) - 1)); lia. }
  set (f := λ idx vnode,
         preds ←! setLocalPredecessors_loop (vnodes r) idx
                    (predecessors vnode) 0 (Z.to_nat numPred);
         Ret (set_predecessors vnode preds)).
  assert (∀ (k : nat) v, vnodes r !! k = Some v →
    ∃ preds', f (0 + Z.of_nat k) v = Ret (set_predecessors v preds')
      ∧ length preds' = length (predecessors v)
      ∧ ∀ j : nat,
          ((0 ≤ j < 0 + Z.to_nat numPred)%nat →
             ∃ w, vnodes r !! (if decide (j < k)%nat then k - j - 1
                               else length (vnodes r) - j - 1)%nat = Some w
                  ∧ preds' !! j = Some (Some (lv_Vnode w)))
          ∧ (¬ (0 ≤ j < 0 + Z.to_nat numPred)%nat →
             preds' !! j = predecessors v !! j)) as Hf.
  { intros k v Hv.
    destruct (setLocalPredecessors_loop_spec (vnodes r) k
                (lookup_lt_Some _ _ _ Hv) (Z.to_nat numPred) 0%nat
                (predecessors v))
      as (preds' & Hret & Hlen & Hj).
    { specialize (Hroom v (list_elem_of_lookup_2 _ _ _ Hv)). lia. }
    { lia. }
    exists preds'. unfold f. change (Z.of_nat 0) with 0 in Hret.
    rewrite Z.add_0_l, Hret. by split_and!. }
  destruct (range_vnodes_spec f (vnodes r) 0) as (vs' & Hret & Hlen & Hk).
  { intros k v Hv. destruct (Hf k v Hv) as (preds' & -> & _). eauto. }
  rewrite Hret. simpl. eexists. split; [done|]. simpl.
  split_and!; [done..|].
  intros idx v Hv. destruct (Hk idx v Hv) as (v' & Hv' & Hlk).
  destruct (Hf idx v Hv) as (preds' & Hfv & Hlen' & Hj).
  rewrite Hfv in Hv'. injection Hv' as <-.
  exists (set_predecessors v preds'). split_and!; [done..|].
  intros i. destruct (Hj i) as [Hin Hout]. split.
  - intros Hi. apply Hin. lia.
  - intros Hi. simpl. apply Hout. lia.
Qed.

(** X27: on a ring whose vnodes have room for the predecessors to set,
    [setLocalPredecessors] gives the vnode at index [idx], for every [i]
    below [min(NumSuccessors + 1, numV - 1)], as predecessor [i] the vnode
    at index [idx - i - 1] when that is not negative and the vnode at
    index [numV - i - 1] otherwise; the identifiers, the successors and the
    configuration stay as they are. *)
Theorem setLocalPredecessors_indices (r : Ring) :
  (∀ v, v ∈ vnodes r →
        min (NumSuccessors (config r) + 1) (Z.of_nat (length (vnodes r)) - 1)
        ≤ Z.of_nat (length (predecessors v))) →
  ∃ r', setLocalPredecessors r = Ret r'
    ∧ config r' = config r
    ∧ length (vnodes r') = length (vnodes r)
    ∧ ∀ (idx : nat) v, vnodes r !! idx = Some v →
        ∃ v', vnodes r' !! idx = Some v'
          ∧ lv_Vnode v' = lv_Vnode v
          ∧ successors v' = successors v
          ∧ length (predecessors v') = length (predecessors v)
          ∧ ∀ i : nat,
              (Z.of_nat i < min (NumSuccessors (config r) + 1)
                                (Z.of_nat (length (vnodes r)) - 1) →
                 ∃ w, vnodes r !! (if decide (i < idx)%nat then idx - i - 1
                                   else length (vnodes r) - i - 1)%nat
                      = Some w
                      ∧ predecessors v' !! i = Some (Some (lv_Vnode w)))
              ∧ (min (NumSuccessors (config r) + 1)
                     (Z.of_nat (length (vnodes r)) - 1) ≤ Z.of_nat i →
                 predecessors v' !! i = predecessors v !! i).
Proof. exact (setLocalPredecessors_spec r). Qed.

Lemma setLocalPredecessors_indices_witness :
  ∃ r', setLocalPredecessors ringNew = Ret r'
    ∧ (predecessors <$> vnodes r')
      = [ [Some (vnodeAt x30 "local"); Some (vnodeAt x20 "local"); None];
          [Some (vnodeAt x10 "local"); Some (vnodeAt x20 "local"); None];
          [Some (vnodeAt x20 "local"); Some (vnodeAt x10 "local"); None] ].
Proof.
  destruct (setLocalPredecessors_indices ringNew) as (r' & Hret & _).
  - intros v Hv. vm_compute in Hv.
    repeat (apply elem_of_cons in Hv as [->|Hv]; [vm_compute; discriminate|]).
    by apply elem_of_nil in Hv.
  - exists r'. split; [exact Hret|].
    vm_compute in Hret. injection Hret as <-. reflexivity.
Defined.

(** X28: after the two calls of [Create] on a ring of at least two vnodes
    with room for one successor and one predecessor each, every vnode has
    the next vnode of the ring (cyclically, and never itself) as its first
    successor, and is the first predecessor of that vnode. *)
Theorem Create_links_neighbours (r : Ring) :
  (2 ≤ length (vnodes r))%nat → 1 ≤ NumSuccessors (config r) →
  (∀ v, v ∈ vnodes r →
        min (NumSuccessors (config r)) (Z.of_nat (length (vnodes r)) - 1)
        ≤ Z.of_nat (length (successors v))
        ∧ min (NumSuccessors (config r) + 1)
              (Z.of_nat (length (vnodes r)) - 1)
          ≤ Z.of_nat (length (predecessors v))) →
  ∃ r', Create_setLocal r = Ret r'
    ∧ length (vnodes r') = length (vnodes r)
    ∧ ∀ (idx : nat) v, vnodes r' !! idx = Some v →
        ∃ next, vnodes r' !! ((idx + 1) `mod` length (vnodes r))%nat
                = Some next
          ∧ ((idx + 1) `mod` length (vnodes r))%nat ≠ idx
          ∧ successors v !! 0%nat = Some (Some (lv_Vnode next))
          ∧ predecessors next !! 0%nat = Some (Some (lv_Vnode v)).
Proof.
  intros HnumV HN Hroom. unfold Create_setLocal.
  destruct (setLocalSuccessors_spec r) as (r1 & -> & Hc1 & Hl1 & H1).
  { intros v Hv. by apply Hroom. }
  simpl.
  assert (0 < min (NumSuccessors (config r))
                  (Z.of_nat (length (vnodes r)) - 1)) as Hs0.
  { unfold min. destruct (Z.leb_spec (NumSuccessors (config r))
      (Z.of_nat (length (vnodes r)) - 1)); lia. }
  assert (0 < min (NumSuccessors (config r) + 1)
                  (Z.of_nat (length (vnodes r)) - 1)) as Hp0.
  { unfold min. destruct (Z.leb_spec (NumSuccessors (config r) + 1)
      (Z.of_nat (length (vnodes r)) - 1)); lia. }
  destruct (setLocalPredecessors_spec r1) as (r2 & -> & Hc2 & Hl2 & H2).
  { intros v1 Hv1. apply list_elem_of_lookup in Hv1 as [k Hk].
    pose proof (lookup_lt_Some _ _ _ Hk) as Hlt. rewrite Hl1 in Hlt.
    destruct (lookup_lt_is_Some_2 (vnodes r) k Hlt) as [v0 Hv0].
    destruct (H1 k v0 Hv0) as (v' & Hv' & _ & Hpred & _).
    assert (v' = v1) as -> by congruence.
    rewrite Hc1, Hl1, Hpred.
    by apply Hroom, list_elem_of_lookup_2 with k. }
  exists r2. split; [done|]. split; [congruence|].
  rewrite Hc1, Hl1 in H2.
  assert (∀ k (v2 : localVnode), vnodes r2 !! k = Some v2 →
            ∃ v0 v1, vnodes r !! k = Some v0 ∧ vnodes r1 !! k = Some v1
              ∧ lv_Vnode v2 = lv_Vnode v0
              ∧ successors v2 = successors v1) as Hback.
  { intros k v2 Hk. pose proof (lookup_lt_Some _ _ _ Hk) as Hlt.
    rewrite Hl2, Hl1 in Hlt.
    destruct (lookup_lt_is_Some_2 (vnodes r) k Hlt) as [v0 Hv0].
    destruct (H1 k v0 Hv0) as (v1 & Hv1 & Hid1 & _).
    destruct (H2 k v1 Hv1) as (v2' & Hv2' & Hid2 & Hsucc & _).
    assert (v2' = v2) as -> by congruence.
    exists v0, v1. split_and!; [done..|congruence|done]. }
  intros idx v Hv.
  destruct (Hback idx v Hv) as (v0 & v1 & Hv0 & Hv1 & Hid & Hsucc).
  destruct (H1 idx v0 Hv0) as (v1' & Hv1' & _ & _ & _ & Hs).
  assert (v1' = v1) as -> by congruence.
  destruct (proj1 (Hs 0%nat) ltac:(lia)) as (w & Hw & Hsw & Hne).
  rewrite Nat.add_0_r in Hw, Hne.
  set (nidx := ((idx + 1) `mod` length (vnodes r))%nat) in *.
  destruct (H1 nidx w Hw) as (w1 & Hw1 & Hidw1 & _).
  destruct (H2 nidx w1 Hw1) as (w2 & Hw2 & Hidw2 & _ & _ & Hp).
  exists w2. split_and!; [done|done| |].
  - rewrite Hsucc, Hsw. do 2 f_equal. congruence.
  - destruct (proj1 (Hp 0%nat) ltac:(lia)) as (u & Hu & Hpu).
    rewrite Hpu. do 2 f_equal.
    assert ((if decide (0 < nidx)%nat then nidx - 0 - 1
             else length (vnodes r) - 0 - 1)%nat = idx) as Hsrc.
    { pose proof (lookup_lt_Some _ _ _ Hv0) as Hlt. unfold nidx.
      destruct (decide (idx + 1 < length (vnodes r))%nat) as [Hs'|Hs'].
      - rewrite Nat.mod_small by lia.
        destruct (decide (0 < idx + 1)%nat); lia.
      - assert (idx + 1 = length (vnodes r))%nat as -> by lia.
        rewrite Nat.Div0.mod_same.
        destruct (decide (0 < 0)%nat); lia. }
    rewrite Hsrc in Hu. assert (u = v1) as -> by congruence.
    destruct (H1 idx v0 Hv0) as (v1'' & Hv1'' & Hid1 & _).
    assert (v1'' = v1) as -> by congruence. congruence.
Qed.

Lemma Create_links_neighbours_witness :
  ∃ r', Create_setLocal ringNew = Ret r'
    ∧ length (vnodes r') = length (vnodes ringNew)
    ∧ ∀ (idx : nat) v, vnodes r' !! idx = Some v →
        ∃ next, vnodes r' !! ((idx + 1) `mod` length (vnodes ringNew))%nat
                = Some next
          ∧ ((idx + 1) `mod` length (vnodes ringNew))%nat ≠ idx
          ∧ successors v !! 0%nat = Some (Some (lv_Vnode next))
          ∧ predecessors next !! 0%nat = Some (Some (lv_Vnode v)).
Proof.
  apply (Create_links_neighbours ringNew).
  - simpl. lia.
  - vm_compute. discriminate.
  - intros v Hv. vm_compute in Hv.
    repeat (apply elem_of_cons in Hv as [->|Hv];
            [split; vm_compute; discriminate|]).
    by apply elem_of_nil in Hv.
Defined.

(** ** The lock manager: a commit that comes too late *)

(** X29: a commit that arrives after the sweeper has dropped the write
    lock is refused.  When a tick at or after the deadline follows the
    grant, [commitWLock] and [abortWLock] at the granted version fail with
    "Lock not available", the committed version of the key stays what it
    was before the grant, and the key is free for a new write lock. *)
Theorem commit_after_timeout_refused
    (lm : LManager) (key : string) (v tmo : Z) (nodeId : string) (now : Time)
    (rnd : list byte + string) (lm1 : LManager) (lockID : string)
    (ver tmo' : Z) (t : Time) :
  lm_wf lm →
  createWLock lm key v tmo nodeId now rnd = (lm1, (lockID, ver, tmo', None)) →
  now + seconds tmo ≤ t →
  ∃ lm2, timeoutTick t lm1 = Ret lm2
    ∧ commitWLock lm2 key ver nodeId
      = Ret (lm2, [], Some (Errorf "Lock not available. Cannot commit" []))
    ∧ abortWLock lm2 key ver nodeId
      = (lm2, Some (Errorf "Lock not available. Nothing to abort" []))
    ∧ VersionMap lm2 = VersionMap lm
    ∧ checkWLock lm2 key = (false, 0, None).
Proof.
  intros Hwf Hgrant Ht.
  destruct (granted_lock_tick _ _ _ _ _ _ _ _ _ _ _ t Hwf Hgrant)
    as (w & lm2 & Hw & Hd & Htick & Hk).
  apply Z.leb_le in Ht. rewrite Ht in Hk.
  exists lm2. split; [done|].
  unfold commitWLock, abortWLock, checkWLock. rewrite Hk.
  split_and!; [done..| |done].
  apply timeoutTick_Ret in Htick as [-> _]. simpl.
  apply createWLock_granted in Hgrant as (_ & _ & _ & _ & _ & ->). simpl.
  by destruct (TimeoutTicker lm).
Qed.

Lemma commit_after_timeout_refused_witness :
  ∃ lm2, timeoutTick 5000000000 heldLock = Ret lm2
    ∧ commitWLock lm2 "a" 1 "N1"
      = Ret (lm2, [], Some (Errorf "Lock not available. Cannot commit" []))
    ∧ abortWLock lm2 "a" 1 "N1"
      = (lm2, Some (Errorf "Lock not available. Nothing to abort" []))
    ∧ VersionMap lm2 = VersionMap newLManager
    ∧ checkWLock lm2 "a" = (false, 0, None).
Proof.
  refine (commit_after_timeout_refused newLManager "a" 0 5 "N1" 0
            (rand20 x11) heldLock (hex_EncodeToString (replicate 20 x11))
            1 5 5000000000 _ _ _).
  - split; intros *; simpl; by rewrite lookup_empty.
  - vm_compute. reflexivity.
  - vm_compute. discriminate.
Defined.

(** ** The finger table *)

Lemma fixFingerTable_loop_spec (id : list byte) (nd : Vnode) (hb : Z) :
  hb < 2 ^ 63 →
  ∀ left (last : nat) fingers,
    left = Z.to_nat (hb - 1 - Z.of_nat last) →
    Z.of_nat last < hb → Z.of_nat (length fingers) = hb →
    ∃ (m : nat) fingers',
      fixFingerTable_loop id (Some nd) hb fingers (Z.of_nat last) left
      = Ret (fingers', Z.of_nat (last + m))
      ∧ Z.of_nat (last + m) < hb
      ∧ length fingers' = length fingers
      ∧ (∀ j : nat, fingers' !! j
           = if decide (last < j ≤ last + m)%nat then Some (Some nd)
             else fingers !! j)
      ∧ (∀ k : nat, (last < k ≤ last + m)%nat →
           betweenRightIncl id (Id nd) (powerOffset id (Z.of_nat k) hb)
           = true)
      ∧ (Z.of_nat (last + m) + 1 < hb →
         betweenRightIncl id (Id nd)
           (powerOffset id (Z.of_nat (last + m) + 1) hb) = false).
Proof.
  intros Hhb.
  induction left as [|left IH]; intros last fingers Hleft Hlast Hlen.
  - exists 0%nat, fingers. rewrite Nat.add_0_r. simpl.
    split_and!; [done..| | |lia].
    + intros j. by rewrite decide_False by lia.
    + intros k Hk. lia.
  - simpl. rewrite int_wrap_small by lia.
    destruct (Z.geb_spec (Z.of_nat last + 1) hb); [lia|].
    destruct (betweenRightIncl id (Id nd)
                (powerOffset id (Z.of_nat last + 1) hb)) eqn:Hcov.
    + assert (∃ x, index fingers (Z.of_nat last + 1) = Ret x) as [x ->].
      { unfold index. destruct (Z.ltb_spec (Z.of_nat last + 1) 0); [lia|].
        destruct (fingers !! Z.to_nat (Z.of_nat last + 1)) eqn:E; [eauto|].
        apply lookup_ge_None in E. lia. }
      simpl. replace (Z.of_nat last + 1) with (Z.of_nat (S last)) in * by lia.
      rewrite Nat2Z.id.
      destruct (IH (S last) (<[S last := Some nd]> fingers))
        as (m & fingers' & Hret & Hin & Hlen' & Hlk & Hcovs & Hstop);
        [lia|lia|rewrite length_insert; lia|].
      exists (S m), fingers'.
      replace (last + S m)%nat with (S last + m)%nat by lia.
      rewrite length_insert in Hlen'.
      split_and!; [done..| | |done].
      * intros j. rewrite Hlk.
        destruct (decide (S last < j ≤ S last + m)%nat).
        -- by rewrite decide_True by lia.
        -- destruct (decide (j = S last)) as [->|Hne].
           ++ rewrite decide_True by lia.
              apply list_lookup_insert_eq. lia.
           ++ rewrite decide_False by lia.
              by apply list_lookup_insert_ne.
      * intros k Hk. destruct (decide (k = S last)) as [->|Hne]; [done|].
        apply Hcovs. lia.
    + exists 0%nat, fingers. rewrite Nat.add_0_r.
      split_and!; [done..| | |done].
      * intros j. by rewrite decide_False by lia.
      * intros k Hk. lia.
Qed.

Section FingerFacts.

Variable transport_FindSuccessors :
  Vnode → Z → list byte → list (option Vnode) * option error.
Variable closestPreceeding : localVnode → list byte → list Vnode.

(** X30: with [last_finger] inside a finger table of [hashBits] entries,
    [fixFingerTable] leaves [last_finger] inside the table and the table
    at its length.  When the lookup of the offset returns a vnode, the
    entries from the old [last_finger] up to some index [last + m] are set
    to that vnode, every offset skipped lies between the vnode's own
    identifier and that vnode, the other entries are untouched, and
    [last_finger] moves to [last + m + 1], or to 0 from the last index.
    When the lookup fails or returns no vnode, nothing changes. *)
Theorem fixFingerTable_keeps_last_finger_in_range
    (conf : Config) (vn : localVnode) (last : nat) :
  hashBits conf < 2 ^ 63 →
  last_finger vn = Z.of_nat last → Z.of_nat last < hashBits conf →
  Z.of_nat (length (finger vn)) = hashBits conf →
  (∀ nd rest,
     FindSuccessors transport_FindSuccessors closestPreceeding vn 1
       (powerOffset (Id (lv_Vnode vn)) (last_finger vn) (hashBits conf))
     = Ret (Some nd :: rest, None) →
     ∃ (m : nat) vn',
       fixFingerTable transport_FindSuccessors closestPreceeding conf vn
       = Ret (vn', None)
       ∧ 0 ≤ last_finger vn' < hashBits conf
       ∧ last_finger vn'
         = (if Z.of_nat (last + m) + 1 =? hashBits conf then 0
            else Z.of_nat (last + m) + 1)
       ∧ length (finger vn') = length (finger vn)
       ∧ (∀ j : nat, finger vn' !! j
            = if decide (last ≤ j ≤ last + m)%nat then Some (Some nd)
              else finger vn !! j)
       ∧ (∀ k : nat, (last < k ≤ last + m)%nat →
            betweenRightIncl (Id (lv_Vnode vn)) (Id nd)
              (powerOffset (Id (lv_Vnode vn)) (Z.of_nat k) (hashBits conf))
            = true)
       ∧ lv_Vnode vn' = lv_Vnode vn ∧ successors vn' = successors vn
       ∧ predecessors vn' = predecessors vn)
  ∧ (∀ err res,
       FindSuccessors transport_FindSuccessors closestPreceeding vn 1
         (powerOffset (Id (lv_Vnode vn)) (last_finger vn) (hashBits conf))
       = Ret (res, Some err) →
       fixFingerTable transport_FindSuccessors closestPreceeding conf vn
       = Ret (vn, Some err))
  ∧ (FindSuccessors transport_FindSuccessors closestPreceeding vn 1
       (powerOffset (Id (lv_Vnode vn)) (last_finger vn) (hashBits conf))
     = Ret ([], None) →
     fixFingerTable transport_FindSuccessors closestPreceeding conf vn
     = Ret (vn, None)).
Proof.
  intros Hhb Hlast Hin Hlen. unfold fixFingerTable. cbv zeta. split_and!.
  - intros nd rest ->. simpl.
    assert (∃ x, index (finger vn) (last_finger vn) = Ret x) as [x ->].
    { rewrite Hlast. unfold index.
      destruct (Z.ltb_spec (Z.of_nat last) 0); [lia|]. rewrite Nat2Z.id.
      destruct (finger vn !! last) eqn:E; [eauto|].
      apply lookup_ge_None in E. lia. }
    simpl. rewrite Hlast, Nat2Z.id.
    destruct (fixFingerTable_loop_spec (Id (lv_Vnode vn)) nd (hashBits conf)
                Hhb (Z.to_nat (hashBits conf - 1 - Z.of_nat last)) last
                (<[last := Some nd]> (finger vn)) eq_refl Hin)
      as (m & fingers' & -> & Hm & Hlen' & Hlk & Hcov & _);
      [rewrite length_insert; lia|].
    simpl. rewrite int_wrap_small by lia.
    exists m. eexists. split; [done|]. simpl.
    rewrite length_insert in Hlen'.
    split_and!; try done.
    + destruct (Z.eqb_spec (Z.of_nat (last + m) + 1) (hashBits conf)); lia.
    + destruct (Z.eqb_spec (Z.of_nat (last + m) + 1) (hashBits conf)); lia.
    + intros j. rewrite Hlk.
      destruct (decide (last < j ≤ last + m)%nat).
      * by rewrite decide_True by lia.
      * destruct (decide (j = last)) as [->|Hne].
        -- rewrite decide_True by lia. apply list_lookup_insert_eq. lia.
        -- rewrite decide_False by lia. by apply list_lookup_insert_ne.
  - intros err res ->. simpl. by destruct res.
  - by intros ->.
Qed.

End FingerFacts.

(** On an 8-bit ring the vnode [0x10] with the one successor [0x30] fills
    the fingers 0 to 5 (offsets [0x11] to [0x30]) in one call and goes on
    from finger 6 (offset [0x50]) the next. *)
Lemma fixFingerTable_keeps_last_finger_in_range_witness :
  ∃ (m : nat) vn',
    fixFingerTable transportDown closestFromSuccessors (config ringAt10)
      (set_finger (localAt10 [Some (vnodeAt x30 "h3")]) (replicate 8 None) 0)
    = Ret (vn', None)
    ∧ 0 ≤ last_finger vn' < hashBits (config ringAt10)
    ∧ last_finger vn'
      = (if Z.of_nat (0 + m) + 1 =? hashBits (config ringAt10) then 0
         else Z.of_nat (0 + m) + 1).
Proof.
  destruct (proj1 (fixFingerTable_keeps_last_finger_in_range
              transportDown closestFromSuccessors (config ringAt10)
              (set_finger (localAt10 [Some (vnodeAt x30 "h3")])
                 (replicate 8 None) 0) 0
              ltac:(vm_compute; reflexivity) eq_refl
              ltac:(vm_compute; reflexivity) eq_refl)
            (vnodeAt x30 "h3") [] eq_refl)
    as (m & vn' & H1 & H2 & H3 & _).
  exists m, vn'. split; [exact H1|]. split; [exact H2|exact H3].
Defined.

Example fixFingerTable_skips :
  (λ r, (finger r.1, last_finger r.1)) <$>
    (match fixFingerTable transportDown closestFromSuccessors
             (config ringAt10)
             (set_finger (localAt10 [Some (vnodeAt x30 "h3")])
                (replicate 8 None) 0)
     with Ret r => Some r | Panic _ => None end)
  = Some (replicate 6 (Some (vnodeAt x30 "h3")) ++ [None; None], 6).
Proof. vm_compute. reflexivity. Qed.
